(** * w3g: a shallow embedding of [w3g/w3gfile.py]

    The Warcraft III replay reader is embedded function by function, as
    it runs under Python 3 (the branch of the module where [b2i] is
    [int.from_bytes] and indexing [bytes] yields an [int]).  Python
    values are modelled as follows.

    - [bytes] is [list byte]; indexing a [bytes] value yields an [int],
      here a [Z] in [0, 256).
    - [int] is [Z].
    - [str] is [string]; a decoded text is held by its UTF-8 encoding, as
      Rocq's own string literals are, so [bytes.decode('utf-8')] checks
      that the bytes are well-formed UTF-8 and keeps them.
    - A raised exception is the [Raise] result, carrying the exception
      class of the Python run.
    - The attributes of [File] that the event parsers mutate ([events],
      [_clock], [_lastleft]) are a record threaded through the parsers;
      an event object is named by its index in [events], so the [next]
      attribute of a [LeftGame] and [_lastleft] are indices into that
      list, and the assignment [self._lastleft.next = e] is an update of
      the list at that index.
    - The attributes [_parse_startup] and [_read_header] set are the
      records they return; those of a call that raises are not kept.
    - [zlib.decompress] and the method [_parse_actions], which the module
      calls and does not define, are parameters of the reader. *)

From Stdlib Require Import ZArith Lia Bool Strings.Byte String Ascii DecimalString.
From Stdlib Require DecimalZ DecimalPos.
From stdpp Require Import base relations list.

Local Open Scope Z_scope.

(** ** Exceptions and results *)

Inductive exn : Type :=
  | IndexError
  | KeyError (key : Z)
  | ValueError
  | TypeError
  | AssertionError
  | ZeroDivisionError
  | UnicodeDecodeError
  | AttributeError
  | zlib_error.

(** [OutOfFuel] is not a Python outcome: it is what a [while] loop of the
    model answers when its iteration budget is used up.  The budget each
    caller passes, the number of bytes left, is shown to be enough: no
    run of the reader ends in [OutOfFuel] (see [File_init_total]). *)
Inductive Result (A : Type) : Type :=
  | OK (a : A)
  | Raise (e : exn)
  | OutOfFuel.

Arguments OK {A} a.
Arguments Raise {A} e.
Arguments OutOfFuel {A}.

Definition bind {A B} (r : Result A) (k : A -> Result B) : Result B :=
  match r with
  | OK a => k a
  | Raise e => Raise e
  | OutOfFuel => OutOfFuel
  end.

Notation "x <- e ; k" := (bind e (fun x => k))
  (at level 20, e at level 100, k at level 200, only parsing).
Notation "' p <- e ; k" := (bind e (fun x => match x with p => k end))
  (at level 20, p pattern, e at level 100, k at level 200, only parsing).

Definition assert (b : bool) : Result unit :=
  if b then OK tt else Raise AssertionError.

(** ** Byte strings *)

Abbreviation bytes := (list byte) (only parsing).

Definition WORD : Z := 2.
Definition DWORD : Z := 4.

Definition b2z (b : byte) : Z := Z.of_N (Byte.to_N b).

(** [len(b)] *)
Definition len {A} (l : list A) : Z := Z.of_nat (length l).

(** A slice bound, as Python normalises it against the length. *)
Definition norm (n i : Z) : Z :=
  if i <? 0 then Z.max 0 (n + i) else Z.min i n.

(** [l[a:b]], [l[a:]] and [l[:b]] *)
Definition slice {A} (l : list A) (a b : Z) : list A :=
  let na := norm (len l) a in
  let nb := norm (len l) b in
  take (Z.to_nat (nb - na)) (drop (Z.to_nat na) l).

Definition slice_from {A} (l : list A) (a : Z) : list A :=
  drop (Z.to_nat (norm (len l) a)) l.

Definition slice_to {A} (l : list A) (b : Z) : list A :=
  take (Z.to_nat (norm (len l) b)) l.

(** [l[i]] *)
Definition index {A} (l : list A) (i : Z) : Result A :=
  let j := if i <? 0 then len l + i else i in
  if j <? 0 then Raise IndexError
  else match l !! Z.to_nat j with
       | Some x => OK x
       | None => Raise IndexError
       end.

(** [b[i]] on [bytes]: the element as an [int]. *)
Definition byte_at (b : bytes) (i : Z) : Result Z :=
  x <- index b i; OK (b2z x).

(** [int.from_bytes(b, 'little')].  [b2i] applied to an [int] (an indexed
    byte) returns it unchanged, so such calls are [byte_at]. *)
Fixpoint b2i (b : bytes) : Z :=
  match b with
  | [] => 0
  | x :: r => b2z x + 256 * b2i r
  end.

(** [b.find(b'\0')] *)
Fixpoint find_null (b : bytes) : Z :=
  match b with
  | [] => -1
  | x :: r =>
      if b2z x =? 0 then 0
      else let i := find_null r in if i <? 0 then -1 else i + 1
  end.

(** *** UTF-8 *)

Definition is_cont (b : byte) : bool :=
  (0x80 <=? b2z b) && (b2z b <=? 0xBF).

Definition in_range (lo hi : Z) (b : byte) : bool :=
  (lo <=? b2z b) && (b2z b <=? hi).

(** Well-formed UTF-8 (no overlong forms, no surrogates, nothing above
    U+10FFFF), which is what the strict codec accepts. *)
Fixpoint utf8_valid (l : bytes) : bool :=
  match l with
  | [] => true
  | b0 :: r0 =>
      let c := b2z b0 in
      if c <? 0x80 then utf8_valid r0
      else if (0xC2 <=? c) && (c <=? 0xDF) then
        match r0 with
        | b1 :: r1 => is_cont b1 && utf8_valid r1
        | _ => false
        end
      else if (0xE0 <=? c) && (c <=? 0xEF) then
        match r0 with
        | b1 :: b2 :: r2 =>
            (if c =? 0xE0 then in_range 0xA0 0xBF b1
             else if c =? 0xED then in_range 0x80 0x9F b1
             else is_cont b1)
            && is_cont b2 && utf8_valid r2
        | _ => false
        end
      else if (0xF0 <=? c) && (c <=? 0xF4) then
        match r0 with
        | b1 :: b2 :: b3 :: r3 =>
            (if c =? 0xF0 then in_range 0x90 0xBF b1
             else if c =? 0xF4 then in_range 0x80 0x8F b1
             else is_cont b1)
            && is_cont b2 && is_cont b3 && utf8_valid r3
        | _ => false
        end
      else false
  end.

(** [b.decode('utf-8')], also [b.decode()] *)
Definition decode (b : bytes) : Result string :=
  if utf8_valid b then OK (string_of_list_byte b)
  else Raise UnicodeDecodeError.

(** [nulltermstr(b)] *)
Definition nulltermstr (b : bytes) : Result (string * Z) :=
  let i := find_null b in
  s <- decode (slice_to b i);
  OK (s, i).

(** ** The settings string *)

(** [bytes(d)] for a list of ints *)
Fixpoint bytes_of_ints (d : list Z) : Result bytes :=
  match d with
  | [] => OK []
  | x :: r =>
      if (0 <=? x) && (x <? 256) then
        match Byte.of_N (Z.to_N x) with
        | Some c => r' <- bytes_of_ints r; OK (c :: r')
        | None => Raise ValueError
        end
      else Raise ValueError
  end.

(** The loop of [blizdecomp]: [rest] is [b[pos:]], so its head is
    [b[pos]] and the empty list is an index past the end. *)
Fixpoint blizdecomp_loop (rest : bytes) (pos : Z) (mask : option Z)
    (d : list Z) : Result (list Z * Z) :=
  match rest with
  | [] => Raise IndexError
  | x :: rest' =>
      let c := b2z x in
      if c =? 0 then OK (d, pos)
      else if pos mod 8 =? 0 then
        blizdecomp_loop rest' (pos + 1) (Some c) d
      else
        match mask with
        | None => Raise TypeError
        | Some m =>
            if Z.land m (Z.shiftl 1 (pos mod 8)) =? 0 then
              blizdecomp_loop rest' (pos + 1) mask (d ++ [c - 1])
            else
              blizdecomp_loop rest' (pos + 1) mask (d ++ [c])
        end
  end.

(** [blizdecomp(b)] *)
Definition blizdecomp (b : bytes) : Result (bytes * Z) :=
  '(d, pos) <- blizdecomp_loop b 0 None [];
  d' <- bytes_of_ints d;
  OK (d', pos).

(** [blizdecode(b)] *)
Definition blizdecode (b : bytes) : Result (string * Z) :=
  '(d, l) <- blizdecomp b;
  s <- decode d;
  OK (s, l).

(** [bits(b)]: the eight bits of a byte, least significant first. *)
Definition bits (b : Z) : list Z :=
  map (fun i => Z.land (Z.shiftr b i) 1) [0; 1; 2; 3; 4; 5; 6; 7].

(** [bitfield(b, idx)], where [idx] is an index or a slice. *)
Inductive bitidx : Type :=
  | At (i : Z)
  | Slice (lo hi : Z).

Fixpoint weigh (f : list Z) (w : Z) : Z :=
  match f with
  | [] => 0
  | x :: r => x * w + weigh r (2 * w)
  end.

Definition bitfield (b : Z) (idx : bitidx) : Result Z :=
  match idx with
  | At i => index (bits b) i
  | Slice lo hi => OK (weigh (slice (bits b) lo hi) 1)
  end.

(** ** Tables *)

(** A [dict] with [int] keys, in source order. *)
Definition dict (V : Type) := list (Z * V).

Fixpoint get {V} (d : dict V) (k : Z) : option V :=
  match d with
  | [] => None
  | (k', v) :: r => if k' =? k then Some v else get r k
  end.

(** [d[k]] *)
Definition getitem {V} (d : dict V) (k : Z) : Result V :=
  match get d k with
  | Some v => OK v
  | None => Raise (KeyError k)
  end.

Local Open Scope string_scope.
Local Open Scope list_scope.
Local Open Scope Z_scope.

Definition RACES : dict string :=
  [(0x01, "human"); (0x02, "orc"); (0x04, "nightelf"); (0x08, "undead");
   (0x10, "daemon"); (0x20, "random"); (0x40, "selectable/fixed")].
Definition SPEED : list string := ["slow"; "normal"; "fast"; "unused"].
Definition OBSERVER : list string := ["off"; "unused"; "defeat"; "on"].
Definition FIXED_TEAMS : list string := ["off"; "unused"; "unused"; "on"].
Definition GAME_TYPES : dict string :=
  [(0x00, "unknown"); (0x01, "1on1"); (0x09, "custom");
   (0x1D, "single player game"); (0x20, "ladder team game")].
Definition STATUS : dict string :=
  [(0x00, "empty"); (0x01, "closed"); (0x02, "used")].
Definition COLORS : list string :=
  ["red"; "blue"; "cyan"; "purple"; "yellow"; "orange"; "green"; "pink";
   "gray"; "light blue"; "dark green"; "brown"; "observer"].
Definition AI_STRENGTH : dict string :=
  [(0x00, "easy"); (0x01, "normal"); (0x02, "insane")].
Definition SELECT_MODES : dict string :=
  [(0x00, "team & race selectable"); (0x01, "team not selectable");
   (0x03, "team & race not selectable"); (0x04, "race fixed to random");
   (0xcc, "automated match making")].
Definition CHAT_MODES : dict string :=
  [(0x00, "all"); (0x01, "allies"); (0x02, "observers")].

(** ** Players and slot records *)

Module Player.

Record t : Type := mk {
  id : Z;
  name : string;
  race : string;
  ishost : bool;
  runtime : Z;
  raw : bytes;
  size : Z
}.

(** [Player.from_raw(data)] *)
Definition from_raw (data : bytes) : Result t :=
  d0 <- byte_at data 0;
  d1 <- byte_at data 1;
  '(nm, i) <- nulltermstr (slice_from data 2);
  let n := 2 + i + 1 in
  custom_or_ladder <- byte_at data n;
  let n := n + 1 in
  if custom_or_ladder =? 0x01 then
    let n := n + 1 in
    OK (mk d1 nm "none" (d0 =? 0) 0 (slice_to data n) n)
  else if custom_or_ladder =? 0x08 then
    let rt := b2i (slice data n (n + 4)) in
    let n := n + 4 in
    let race_flag := b2i (slice data n (n + 4)) in
    let n := n + 4 in
    rc <- getitem RACES race_flag;
    OK (mk d1 nm rc (d0 =? 0) rt (slice_to data n) n)
  else Raise ValueError.

End Player.

Module SlotRecord.

Record t : Type := mk {
  player_id : Z;
  status : string;
  ishuman : bool;
  team : Z;
  color : string;
  race : string;
  ai : string;
  handicap : Z;
  raw : bytes;
  size : Z
}.

(** [SlotRecord.from_raw(data)]; [ai] and [handicap] keep the defaults
    of [__new__] when the record is too short to hold them. *)
Definition from_raw (data : bytes) : Result t :=
  pid <- byte_at data 0;
  d2 <- byte_at data 2;
  st <- getitem STATUS d2;
  d3 <- byte_at data 3;
  tm <- byte_at data 4;
  d5 <- byte_at data 5;
  col <- index COLORS d5;
  d6 <- byte_at data 6;
  let rc := default "none" (get RACES d6) in
  let sz := len data in
  a <- (if 8 <=? sz then (d7 <- byte_at data 7; getitem AI_STRENGTH d7)
        else OK "normal");
  h <- (if 9 <=? sz then byte_at data 8 else OK 100);
  OK (mk pid st (d3 =? 0x00) tm col rc a h data sz).

End SlotRecord.

(** ** Events *)

Module Chat.
Record t : Type := mk {
  time : Z;
  player_id : Z;
  mode : string;
  msg : string
}.
End Chat.

Module LeftGame.

Definition remote_results : dict string :=
  [(0x01, "left"); (0x07, "left"); (0x08, "lost"); (0x09, "won");
   (0x0A, "draw"); (0x0B, "left")].

Definition local_not_last_results : dict string :=
  [(0x01, "disconnected"); (0x07, "lost"); (0x08, "lost"); (0x09, "won");
   (0x0A, "draw"); (0x0B, "lost")].

Definition local_last_results : dict string :=
  [(0x01, "disconnected"); (0x08, "lost"); (0x09, "won")].

(** [next] is the index in [events] of the event it refers to. *)
Record t : Type := mk {
  time : Z;
  player_id : Z;
  closedby : string;
  resultflag : Z;
  inc : bool;
  unknownflag : Z;
  next : option nat
}.

Definition set_next (e : t) (nx : option nat) : t :=
  mk (time e) (player_id e) (closedby e) (resultflag e) (inc e)
     (unknownflag e) nx.

(** [LeftGame.result(self)] *)
Definition result (self : t) : Result string :=
  let cb := closedby self in
  let res := resultflag self in
  if String.eqb cb "remote" then getitem remote_results res
  else if String.eqb cb "local" then
    match next self with
    | None =>
        if (res =? 0x07) || (res =? 0x0B) then
          OK (if inc self then "won" else "lost")
        else getitem local_last_results res
    | Some _ => getitem local_not_last_results res
    end
  else OK "left".

End LeftGame.

Module Countdown.
Record t : Type := mk {
  time : Z;
  mode : string;
  secs : Z
}.
End Countdown.

Inductive Event : Type :=
  | EChat (e : Chat.t)
  | ELeftGame (e : LeftGame.t)
  | ECountdown (e : Countdown.t).

(** The [time] attribute set by [Event.__init__]. *)
Definition time (e : Event) : Z :=
  match e with
  | EChat c => Chat.time c
  | ELeftGame l => LeftGame.time l
  | ECountdown c => Countdown.time c
  end.

(** ** The startup record *)

Record Startup : Type := mkStartup {
  players : list Player.t;
  game_name : string;
  game_speed : string;
  visibility_hide_terrain : bool;
  visibility_map_explored : bool;
  visibility_always_visible : bool;
  visibility_default : bool;
  observer : string;
  teams_together : bool;
  fixed_teams : string;
  full_shared_unit_control : bool;
  random_hero : bool;
  random_races : bool;
  observer_referees : bool;
  map_name : string;
  creator_name : string;
  player_count : Z;
  game_type : string;
  ispublic : bool;
  isprivate : bool;
  language_id : bytes;
  slot_records : list SlotRecord.t;
  random_seed : bytes;
  select_mode : string;
  num_start_positions : Z
}.

(** [bool(x)] for an int *)
Definition truthy (x : Z) : bool := negb (x =? 0).

(** The [while b2i(data[offset]) == 0x16] loop of [_parse_startup]. *)
Fixpoint players_loop (fuel : nat) (data : bytes) (offset : Z)
    (ps : list Player.t) : Result (list Player.t * Z) :=
  tag <- byte_at data offset;
  if tag =? 0x16 then
    match fuel with
    | O => OutOfFuel
    | S fuel' =>
        p <- Player.from_raw (slice_from data offset);
        let offset := offset + Player.size p in
        let offset := offset + 4 in
        players_loop fuel' data offset (ps ++ [p])
    end
  else OK (ps, offset).

(** [int((nstartbytes - DWORD - 3) / nrecs)] followed by the assertion on
    it.  The division is the true division of two ints of at most 16 bits,
    which [int] truncates towards zero: that is [Z.quot]. *)
Definition recsize_of (nstartbytes nrecs : Z) : Result Z :=
  if nrecs =? 0 then Raise ZeroDivisionError
  else
    let recsize := Z.quot (nstartbytes - DWORD - 3) nrecs in
    _ <- assert ((7 <=? recsize) && (recsize <=? 9));
    OK recsize.

(** [[SlotRecord.from_raw(rawrecs[n*recsize:(n+1)*recsize])
      for n in range(nrecs)]], from [n] on. *)
Fixpoint slot_records_from (rawrecs : bytes) (recsize : Z) (n : Z)
    (count : nat) : Result (list SlotRecord.t) :=
  match count with
  | O => OK []
  | S count' =>
      r <- SlotRecord.from_raw (slice rawrecs (n * recsize) ((n + 1) * recsize));
      rs <- slot_records_from rawrecs recsize (n + 1) count';
      OK (r :: rs)
  end.

(** The slot-info record of [_parse_startup], from the assertion on its
    tag to the list of slot records: the records and the offset after
    them. *)
Definition parse_slot_info (data : bytes) (offset : Z)
    : Result (list SlotRecord.t * Z) :=
  tag <- byte_at data offset;
  _ <- assert (tag =? 0x19);
  let offset := offset + 1 in
  let nstartbytes := b2i (slice data offset (offset + WORD)) in
  let offset := offset + WORD in
  nrecs <- byte_at data offset;
  let offset := offset + 1 in
  recsize <- recsize_of nstartbytes nrecs;
  let rawrecs := slice data offset (offset + recsize * nrecs) in
  let offset := offset + recsize * nrecs in
  recs <- slot_records_from rawrecs recsize 0 (Z.to_nat nrecs);
  OK (recs, offset).

(** [File._parse_startup(data)]: the attributes it sets and the offset it
    returns. *)
Definition _parse_startup (data : bytes) : Result (Startup * Z) :=
  let offset := 4 in
  host <- Player.from_raw (slice_from data offset);
  let offset := offset + Player.size host in
  '(gname, i) <- nulltermstr (slice_from data offset);
  let offset := offset + (i + 1) in
  let offset := offset + 1 in
  '(decomp, i) <- blizdecomp (slice_from data offset);
  let offset := offset + (i + 1) in
  let settings := slice_to decomp 13 in
  s0 <- byte_at settings 0;
  f0 <- bitfield s0 (Slice 0 2);
  speed <- index SPEED f0;
  s1 <- byte_at settings 1;
  let vis := bits s1 in
  v0 <- index vis 0;
  v1 <- index vis 1;
  v2 <- index vis 2;
  v3 <- index vis 3;
  v4 <- index vis 4;
  v5 <- index vis 5;
  obs <- index OBSERVER (v4 + 2 * v5);
  v6 <- index vis 6;
  s2 <- byte_at settings 2;
  f2 <- bitfield s2 (Slice 1 3);
  fixed <- index FIXED_TEAMS f2;
  s3 <- byte_at settings 3;
  let ctl := bits s3 in
  c0 <- index ctl 0;
  c1 <- index ctl 1;
  c2 <- index ctl 2;
  c6 <- index ctl 6;
  '(mname, i) <- nulltermstr (slice_from decomp 13);
  '(cname, _) <- nulltermstr (slice_from decomp (13 + i + 1));
  let pcount := b2i (slice data offset (offset + 4)) in
  let offset := offset + 4 in
  gt <- byte_at data offset;
  gtype <- getitem GAME_TYPES gt;
  let offset := offset + 1 in
  priv <- byte_at data offset;
  let offset := offset + 1 in
  let offset := offset + WORD in
  let lang := slice data offset (offset + 4) in
  let offset := offset + 4 in
  '(ps, offset) <- players_loop (length data) data offset [host];
  '(recs, offset) <- parse_slot_info data offset;
  let seed := slice data offset (offset + DWORD) in
  let offset := offset + DWORD in
  sm <- byte_at data offset;
  smode <- getitem SELECT_MODES sm;
  let offset := offset + 1 in
  nstart <- byte_at data offset;
  let offset := offset + 1 in
  OK (mkStartup ps gname speed (truthy v0) (truthy v1) (truthy v2)
        (truthy v3) obs (truthy v6) fixed (truthy c0) (truthy c1)
        (truthy c2) (truthy c6) mname cname pcount gtype (priv =? 0x00)
        (priv =? 0x08) lang recs seed smode nstart,
      offset).

(** ** The event stream *)

(** The attributes of [File] that the event parsers read and write.
    [_lastleft] is the index in [events] of the last [LeftGame]. *)
Record State : Type := mkState {
  events : list Event;
  _clock : Z;
  _lastleft : option nat
}.

(** A method that may mutate [self] and may raise: the state at the
    raise is kept, as the mutations of a Python run are. *)
Definition M (A : Type) : Type := State -> Result A * State.

Definition lift {A B} (r : Result A) (k : A -> M B) : M B :=
  fun self =>
    match r with
    | OK a => k a self
    | Raise e => (Raise e, self)
    | OutOfFuel => (OutOfFuel, self)
    end.

(** [self.events.append(e)] *)
Definition append (e : Event) (self : State) : State :=
  mkState (events self ++ [e]) (_clock self) (_lastleft self).

Definition set_next (nx : option nat) (e : Event) : Event :=
  match e with
  | ELeftGame l => ELeftGame (LeftGame.set_next l nx)
  | _ => e
  end.

(** [self._lastleft.unknownflag] *)
Definition lastleft_unknownflag (self : State) (l : nat) : Result Z :=
  match events self !! l with
  | Some (ELeftGame e) => OK (LeftGame.unknownflag e)
  | _ => Raise AttributeError
  end.

(** [File._parse_leave_game(data)] *)
Definition _parse_leave_game (data : bytes) : M Z :=
  let offset := 1 in
  let reason := b2i (slice data offset (offset + DWORD)) in
  let offset := offset + DWORD in
  lift (byte_at data offset) (fun player_id =>
  let offset := offset + 1 in
  let res := b2i (slice data offset (offset + DWORD)) in
  let offset := offset + DWORD in
  let unknownflag := b2i (slice data offset (offset + DWORD)) in
  fun self =>
  lift (match _lastleft self with
        | None => OK false
        | Some l =>
            u <- lastleft_unknownflag self l;
            OK (unknownflag =? u + 1)
        end) (fun inc self =>
  let closedby :=
    if reason =? 0x01 then "remote"
    else if reason =? 0x0C then "local"
    else "unknown" in
  let e := LeftGame.mk (_clock self) player_id closedby res inc
             unknownflag None in
  let ix := length (events self) in
  let evs := events self ++ [ELeftGame e] in
  let evs :=
    match _lastleft self with
    | Some l => alter (set_next (Some ix)) l evs
    | None => evs
    end in
  (OK 14, mkState evs (_clock self) (Some ix))) self).

(** [File._parse_countdown(data)] *)
Definition _parse_countdown (data : bytes) : M Z :=
  fun self =>
  let offset := 1 in
  let m := b2i (slice data offset (offset + DWORD)) in
  let offset := offset + DWORD in
  let mode := if m =? 0x00 then "running" else "over" in
  let secs := b2i (slice data offset (offset + DWORD)) in
  let e := Countdown.mk (_clock self) mode secs in
  (OK 9, append (ECountdown e) self).

(** ['player{0}'.format(k)] *)
Definition str_of_int (k : Z) : string :=
  NilZero.string_of_int (Z.to_int k).

(** [File._parse_chat(data)] *)
Definition _parse_chat (data : bytes) : M Z :=
  lift (byte_at data 1) (fun player_id =>
  let n := b2i (slice data 2 (2 + WORD)) in
  let offset := 2 + WORD in
  lift (byte_at data offset) (fun flags =>
  let offset := offset + 1 in
  let '(mode, offset) :=
    if flags =? 0x10 then ("startup", offset)
    else
      let m := b2i (slice data offset (offset + DWORD)) in
      let offset := offset + DWORD in
      match get CHAT_MODES m with
      | Some mode => (mode, offset)
      | None => (("player" ++ str_of_int (m - 0x3))%string, offset)
      end in
  lift (nulltermstr (slice_from data offset)) (fun '(msg, _) self =>
  (OK (n + 4), append (EChat (Chat.mk (_clock self) player_id mode msg)) self)))).

(** ** The replay object *)

Record Header : Type := mkHeader {
  header_size : Z;
  file_size_compressed : Z;
  header_version : Z;
  file_size_decompressed : Z;
  nblocks : Z;
  version_id_str : option string;
  version_num : Z;
  build_num : Z;
  flags : bytes;
  singleplayer : bool;
  multiplayer : bool;
  replay_length : Z;
  header_checksum : Z
}.

(** A [File] whose constructor has returned. *)
Record File : Type := mkFile {
  header : Header;
  startup : Startup;
  state : State
}.

(** [for p in players: if p.id == pid: break] *)
Fixpoint first_with_id (ps : list Player.t) (pid : Z) : option Player.t :=
  match ps with
  | [] => None
  | p :: r => if Player.id p =? pid then Some p else first_with_id r pid
  end.

(** [File.player(pid)].  The [lru_cache] around it only memoises the
    value computed here. *)
Definition player (self : File) (pid : Z)
    : Result (Player.t + SlotRecord.t) :=
  let ps := players (startup self) in
  direct <- (if pid <? len ps then
               p <- index ps pid;
               OK (if Player.id p =? pid then Some p else None)
             else OK None);
  match direct with
  | Some p => OK (inl p)
  | None =>
      match first_with_id ps pid with
      | Some p => OK (inl p)
      | None =>
          s <- index (slot_records (startup self)) pid;
          OK (inr s)
      end
  end.

(** [File.player_name(pid)] *)
Definition player_name (self : File) (pid : Z) : Result string :=
  p <- player self pid;
  match p with
  | inr _ => OK "observer"
  | inl p => OK (Player.name p)
  end.

(** [int(s)] on a string of decimal digits with an optional minus sign,
    which is all that [strmode] passes to it. *)
Definition int_of_str (s : string) : Result Z :=
  match NilZero.int_of_string s with
  | Some d => OK (Z.of_int d)
  | None => Raise ValueError
  end.

(** [s[6:]] *)
Definition from6 (s : string) : string :=
  String.substring 6 (String.length s - 6) s.

(** The player a chat mode names: [int(mode[6:])] in [Chat.strmode],
    for a mode that starts with ['player']. *)
Definition strmode_pid (mode : string) : option (Result Z) :=
  if String.prefix "player" mode then Some (int_of_str (from6 mode))
  else None.


(** A file handle: [f.read(n)], [f.tell()] and [f.seek(v)]. *)
Record Handle : Type := mkHandle {
  content : bytes;
  loc : Z
}.

Definition read (n : Z) (f : Handle) : bytes * Handle :=
  let b := slice (content f) (loc f) (loc f + n) in
  (b, mkHandle (content f) (loc f + len b)).

Definition seek (v : Z) (f : Handle) : Handle :=
  mkHandle (content f) v.

(** [File._read_header()] *)
Definition _read_header (f : Handle) : Result (Header * Handle) :=
  let f := seek 28 f in
  let '(b, f) := read DWORD f in
  let hsize := b2i b in
  let '(b, f) := read DWORD f in
  let csize := b2i b in
  let '(b, f) := read DWORD f in
  let hv := b2i b in
  let '(b, f) := read DWORD f in
  let dsize := b2i b in
  let '(b, f) := read DWORD f in
  let nb := b2i b in
  let f := seek 0x30 f in
  '(vid, vnum, f) <-
    (if hv =? 0 then
       let f := seek (loc f + WORD) f in
       let '(b, f) := read WORD f in
       OK (None, b2i b, f)
     else if hv =? 1 then
       let '(b, f) := read DWORD f in
       s <- decode (rev b);
       let '(b, f) := read DWORD f in
       OK (Some s, b2i b, f)
     else Raise ValueError);
  let '(b, f) := read WORD f in
  let build := b2i b in
  let '(fl, f) := read WORD f in
  let iflags := b2i fl in
  let '(b, f) := read DWORD f in
  let rlen := b2i b in
  let '(b, f) := read DWORD f in
  let cks := b2i b in
  OK (mkHeader hsize csize hv dsize nb vid vnum build fl (iflags =? 0)
        (iflags =? 0x8000) rlen cks,
      f).

Section Reader.

(** Modelled from the spec: [File._parse_actions], which
    [_parse_time_slot] calls and the module does not define.  The action
    payloads are opaque to the reader, only their length matters to the
    cursor; so the call is a parameter that returns ([None]) or raises,
    and that leaves [events], [_clock] and [_lastleft] alone.  Run as it
    stands, the module raises [AttributeError] at the call: that is the
    instance [missing_actions] below. *)
Variable _parse_actions : Z -> bytes -> option exn.

(** [zlib.decompress(raw)]; [None] is a raised [zlib.error]. *)
Variable zlib_decompress : bytes -> option bytes.

Definition call (r : option exn) : Result unit :=
  match r with
  | None => OK tt
  | Some e => Raise e
  end.

(** The [while len(cmddata) > 0] loop of [_parse_time_slot]. *)
Fixpoint time_slot_loop (fuel : nat) (cmddata : bytes) : Result unit :=
  if len cmddata >? 0 then
    match fuel with
    | O => OutOfFuel
    | S fuel' =>
        player_id <- byte_at cmddata 0;
        let i := b2i (slice cmddata 1 (1 + WORD)) in
        let action_block := slice cmddata (1 + WORD) (i + 1 + WORD) in
        _ <- call (_parse_actions player_id action_block);
        time_slot_loop fuel' (slice_from cmddata (i + 1 + WORD))
    end
  else OK tt.

(** [File._parse_time_slot(data)] *)
Definition _parse_time_slot (data : bytes) : M Z :=
  let n := b2i (slice data 1 (1 + WORD)) in
  let offset := 1 + WORD in
  let dt := b2i (slice data offset (offset + WORD)) in
  let offset := offset + WORD in
  let cmddata := slice data offset (n + 3) in
  lift (time_slot_loop (length cmddata) cmddata) (fun _ self =>
  (OK (n + 3), mkState (events self) (_clock self + dt) (_lastleft self))).

(** The dispatch table of [_parse_blocks]. *)
Definition _parsers : dict (bytes -> M Z) :=
  [(0x17, _parse_leave_game);
   (0x1A, fun _ self => (OK 5, self));
   (0x1B, fun _ self => (OK 5, self));
   (0x1C, fun _ self => (OK 5, self));
   (0x1E, _parse_time_slot);
   (0x1F, _parse_time_slot);
   (0x20, _parse_chat);
   (0x22, fun _ self => (OK 6, self));
   (0x23, fun _ self => (OK 11, self));
   (0x2F, _parse_countdown)].

(** The [while blockid != 0] loop of [_parse_blocks]; [data[0]] is read
    at the head of each turn, as it is before the loop and at the end
    of its body. *)
Fixpoint events_loop (fuel : nat) (data : bytes) : M unit :=
  lift (byte_at data 0) (fun blockid =>
  if blockid =? 0 then fun self => (OK tt, self)
  else
    match fuel with
    | O => fun self => (OutOfFuel, self)
    | S fuel' =>
        lift (getitem _parsers blockid) (fun parser self =>
        match parser data self with
        | (OK offset, self') =>
            events_loop fuel' (slice_from data offset) self'
        | (Raise e, self') => (Raise e, self')
        | (OutOfFuel, self') => (OutOfFuel, self')
        end)
    end).

(** The event stream of [_parse_blocks], from the cursor on. *)
Definition parse_events (data : bytes) : M unit :=
  events_loop (length data) data.

(** [File._parse_blocks(data)]: the outcome, the startup attributes on
    success, and the event attributes as the call left them. *)
Definition _parse_blocks (data : bytes) : Result Startup * State :=
  let self := mkState [] 0 None in
  match _parse_startup data with
  | OK (su, offset) =>
      let '(r, self) := parse_events (slice_from data offset) self in
      (_ <- r; OK su, self)
  | Raise e => (Raise e, self)
  | OutOfFuel => (OutOfFuel, self)
  end.

(** The [for n in range(self.nblocks)] loop of [_read_blocks]. *)
Fixpoint read_blocks_loop (n : nat) (f : Handle) (data : bytes)
    : Result (bytes * Handle) :=
  match n with
  | O => OK (data, f)
  | S n' =>
      let '(b, f) := read WORD f in
      let block_size := b2i b in
      let '(b, f) := read WORD f in
      let block_size_decomp := b2i b in
      let f := seek (loc f + DWORD) f in
      let '(raw, f) := read block_size f in
      match zlib_decompress raw with
      | None => Raise zlib_error
      | Some dat =>
          if negb (len dat =? block_size_decomp) then Raise zlib_error
          else read_blocks_loop n' f (data ++ dat)
      end
  end.

(** [File._read_blocks()].  The event attributes exist once
    [_parse_blocks] has been entered. *)
Definition _read_blocks (h : Header) (f : Handle)
    : Result Startup * option State :=
  let f := seek (header_size h) f in
  match read_blocks_loop (Z.to_nat (nblocks h)) f [] with
  | OK (data, _) =>
      let '(r, self) := _parse_blocks data in (r, Some self)
  | Raise e => (Raise e, None)
  | OutOfFuel => (OutOfFuel, None)
  end.

(** [File(f)] on a handle at position 0. *)
Definition File_init (file : bytes) : Result File :=
  '(h, f) <- _read_header (mkHandle file 0);
  match _read_blocks h f with
  | (OK su, Some self) => OK (mkFile h su self)
  | (OK _, None) => Raise AttributeError
  | (Raise e, _) => Raise e
  | (OutOfFuel, _) => OutOfFuel
  end.

End Reader.

(** * Notions used in the statements *)

(** ** The disconnect chain *)

Definition left_at (evs : list Event) (i : nat) : Prop :=
  exists e, evs !! i = Some (ELeftGame e).

(** What the [next] references and [_lastleft] point at: [_lastleft] is
    the last [LeftGame] of [events], the [next] of a [LeftGame] is the
    first [LeftGame] after it, and both are [None] exactly when there is
    no such event.  The first [LeftGame] is not consecutive. *)
Record chain_ok (self : State) : Prop := mk_chain_ok {
  chain_last :
    match _lastleft self with
    | Some l =>
        left_at (events self) l /\
        forall k, (l < k)%nat -> ~ left_at (events self) k
    | None => forall k, ~ left_at (events self) k
    end;
  chain_next :
    forall i e, events self !! i = Some (ELeftGame e) ->
    match LeftGame.next e with
    | Some j =>
        (i < j)%nat /\ left_at (events self) j /\
        forall k, (i < k < j)%nat -> ~ left_at (events self) k
    | None => forall k, (i < k)%nat -> ~ left_at (events self) k
    end;
  chain_first :
    forall i e, events self !! i = Some (ELeftGame e) ->
    (forall k, (k < i)%nat -> ~ left_at (events self) k) ->
    LeftGame.inc e = false
}.

(** ** Timestamps *)

Record times_ok (self : State) : Prop := mk_times_ok {
  times_sorted :
    forall i j ei ej, (i <= j)%nat ->
    events self !! i = Some ei -> events self !! j = Some ej ->
    time ei <= time ej;
  times_clock :
    forall e, e ∈ events self -> 0 <= time e /\ time e <= _clock self;
  clock_nonneg : 0 <= _clock self
}.

(** ** What one record does to the attributes *)

(** The state after a [LeftGame] [e] has been appended and chained. *)
Definition link (self : State) (e : LeftGame.t) : State :=
  let ix := length (events self) in
  let evs := events self ++ [ELeftGame e] in
  mkState (match _lastleft self with
           | Some l => alter (set_next (Some ix)) l evs
           | None => evs
           end)
          (_clock self) (Some ix).

(** Whether [e] follows the event [_lastleft] refers to by one. *)
Definition consecutive (self : State) (e : LeftGame.t) : bool :=
  match _lastleft self with
  | None => false
  | Some l =>
      match events self !! l with
      | Some (ELeftGame p) =>
          LeftGame.unknownflag e =? LeftGame.unknownflag p + 1
      | _ => false
      end
  end.

Definition not_left (e : Event) : Prop :=
  match e with
  | ELeftGame _ => False
  | _ => True
  end.

(** One record of the event stream: nothing, an event that is not a
    [LeftGame] stamped with the clock, a clock advance by an unsigned
    16-bit delta, or a [LeftGame] stamped with the clock and chained. *)
Inductive effect (self : State) : State -> Prop :=
  | eff_none : effect self self
  | eff_append e :
      not_left e -> time e = _clock self -> effect self (append e self)
  | eff_tick dt :
      0 <= dt < 65536 ->
      effect self (mkState (events self) (_clock self + dt) (_lastleft self))
  | eff_left e :
      LeftGame.time e = _clock self ->
      LeftGame.next e = None ->
      LeftGame.inc e = consecutive self e ->
      effect self (link self e).

(** ** Completed records *)

(** One turn of the loop of [_parse_blocks] that runs to its end: the tag
    at the cursor is not zero, the table has a decoder for it, and the
    decoder returns. *)
Definition record_done (_parse_actions : Z -> bytes -> option exn)
    (c c' : bytes * State) : Prop :=
  exists blockid parser offset,
    byte_at c.1 0 = OK blockid /\ blockid <> 0 /\
    get (_parsers _parse_actions) blockid = Some parser /\
    parser c.1 c.2 = (OK offset, c'.2) /\
    c'.1 = slice_from c.1 offset.

(** ** A small replay *)

(** A startup record: the host "al" (id 1), the game "g1", the settings
    string with the map "m.w3x", a second player "bo" (id 2) and four
    slot records of nine bytes, the last two without a player. *)
Definition sample_startup : bytes :=
  [x10; x01; x00; x00; x00; x01; x61; x6c; x00; x01; x00; x67; x31; x00;
   x00; x01; x03; x49; x07; x41; x01; x01; x01; x81; x01; x01; x01; x01;
   x01; x01; x6d; x4d; x2f; x77; x33; x79; x01; x61; x6d; x01; x01; x00;
   x02; x00; x00; x00; x01; x00; x00; x00; x09; x04; x00; x00; x16; x02;
   x62; x6f; x00; x01; x00; x00; x00; x00; x00; x19; x2b; x00; x04; x01;
   x64; x02; x00; x00; x00; x01; x01; x64; x02; x64; x02; x00; x01; x01;
   x02; x01; x64; x00; xff; x00; x00; x00; x02; x20; x01; x64; x00; xff;
   x01; x00; x00; x03; x20; x01; x64; x12; x34; x56; x78; x00; x02].

(** An event stream: a time slot of 100 ms with one action, a chat line
    to all, the local leave of player 2 (result 7, sequence flag 5), a
    time slot of 50 ms, the local leave of player 1 (result 7, sequence
    flag 6), a countdown, and the closing zero tag. *)
Definition sample_events : bytes :=
  [x1f; x06; x00; x64; x00; x01; x01; x00; x01; x20; x01; x08; x00; x20;
   x00; x00; x00; x00; x68; x69; x00; x17; x0c; x00; x00; x00; x02; x07;
   x00; x00; x00; x05; x00; x00; x00; x1f; x02; x00; x32; x00; x17; x0c;
   x00; x00; x00; x01; x07; x00; x00; x00; x06; x00; x00; x00; x2f; x00;
   x00; x00; x00; x1e; x00; x00; x00; x00].

Definition sample_data : bytes := sample_startup ++ sample_events.

(** The reader with action payloads skipped. *)
Definition skip_actions (player_id : Z) (action_block : bytes) : option exn :=
  None.

(** The reader as the module stands, without a [_parse_actions]. *)
Definition missing_actions (player_id : Z) (action_block : bytes)
    : option exn :=
  Some AttributeError.

(** The two leaves and the other events the sample stream decodes to. *)
Definition sample_leave_1 : LeftGame.t :=
  LeftGame.mk 100 2 "local" 7 false 5 (Some 2%nat).

Definition sample_leave_2 : LeftGame.t :=
  LeftGame.mk 150 1 "local" 7 true 6 None.

Definition sample_decoded : list Event :=
  [EChat (Chat.mk 100 1 "all" "hi");
   ELeftGame sample_leave_1;
   ELeftGame sample_leave_2;
   ECountdown (Countdown.mk 150 "running" 30)].

(** ** Terminated strings and the settings string, as the format has them *)

(** The first zero byte of [b] is at index [k]. *)
Definition first_zero (b : bytes) (k : nat) : Prop :=
  b !! k = Some x00 /\ forall p, (p < k)%nat -> b !! p <> Some x00.

(** The mask of the run of eight bytes that position [p] lies in. *)
Definition mask_of (b : bytes) (p : nat) : Z :=
  default 0 (b2z <$> b !! (p - p mod 8)%nat).

(** What the byte at position [p] contributes to the decoded string:
    nothing for a mask byte, the byte itself when bit [p mod 8] of the
    mask of its run is 1, the byte minus 1 when that bit is 0. *)
Definition emitted (b : bytes) (p : nat) : option Z :=
  if (p mod 8 =? 0)%nat then None
  else
    match b !! p with
    | Some x =>
        Some (if Z.testbit (mask_of b p) (Z.of_nat (p mod 8)) then b2z x
              else b2z x - 1)
    | None => None
    end.

(** The decoded string of a settings string whose first zero byte is at
    index [k]. *)
Definition decoded (b : bytes) (k : nat) : list Z :=
  omap (emitted b) (seq 0 k).

(** The startup record of the sample with two slot records of eight
    bytes under a section byte count of 24, one more than 7 + 2 * 8. *)
Definition odd_startup : bytes :=
  [x10; x01; x00; x00; x00; x01; x61; x6c; x00; x01; x00; x67; x31; x00;
   x00; x01; x03; x49; x07; x41; x01; x01; x01; x81; x01; x01; x01; x01;
   x01; x01; x6d; x4d; x2f; x77; x33; x79; x01; x61; x6d; x01; x01; x00;
   x02; x00; x00; x00; x01; x00; x00; x00; x09; x04; x00; x00; x16; x02;
   x62; x6f; x00; x01; x00; x00; x00; x00; x00; x19; x18; x00; x02; x01;
   x64; x02; x00; x00; x00; x01; x01; x02; x64; x02; x00; x01; x01; x02;
   x01; x12; x34; x56; x78; x00; x02].

(** ** Chat modes *)

(** The mode of a chat record whose mode code is [m]. *)
Definition chat_mode (m : Z) : string :=
  match get CHAT_MODES m with
  | Some mode => mode
  | None => ("player" ++ str_of_int (m - 3))%string
  end.

(** What [_parse_chat] answers for a record of player [player_id] once
    its mode is known, the message starting at [offset]. *)
Definition chat_outcome (data : bytes) (self : State) (player_id : Z)
    (mode : string) (offset : Z) : Result Z * State :=
  match nulltermstr (slice_from data offset) with
  | OK (msg, _) =>
      (OK (b2i (slice data 2 4) + 4),
       append (EChat (Chat.mk (_clock self) player_id mode msg)) self)
  | Raise e => (Raise e, self)
  | OutOfFuel => (OutOfFuel, self)
  end.

(** ** The block stream *)

(** The blocks as they lie in the file from the handle on: for each, the
    compressed bytes and the decompressed length its prefix declares. *)
Fixpoint block_stream (n : nat) (f : Handle) : list (bytes * Z) :=
  match n with
  | O => []
  | S n' =>
      let '(b, f) := read WORD f in
      let block_size := b2i b in
      let '(b, f) := read WORD f in
      let block_size_decomp := b2i b in
      let f := seek (loc f + DWORD) f in
      let '(raw, f) := read block_size f in
      (raw, block_size_decomp) :: block_stream n' f
  end.

(** A block whose payload does not decompress, or not to the declared
    length. *)
Definition bad_block (zlib_decompress : bytes -> option bytes)
    (block : bytes * Z) : Prop :=
  zlib_decompress block.1 = None \/
  exists dat, zlib_decompress block.1 = Some dat /\ len dat <> block.2.

(** A block and the payload it decompresses to, of the declared length. *)
Definition good_block (zlib_decompress : bytes -> option bytes)
    (block : bytes * Z) (dat : bytes) : Prop :=
  zlib_decompress block.1 = Some dat /\ len dat = block.2.

(** A sample file: the header (version 1, one block) and the prefix of
    the block, followed by the sample replay as the payload. *)
Definition sample_file : bytes :=
  [x57; x61; x72; x63; x72; x61; x66; x74; x20; x49; x49; x49; x20; x72;
   x65; x63; x6f; x72; x64; x65; x64; x20; x67; x61; x6d; x65; x1a; x00;
   x44; x00; x00; x00; xfb; x00; x00; x00; x01; x00; x00; x00; xaf; x00;
   x00; x00; x01; x00; x00; x00; x50; x58; x33; x57; x1a; x00; x00; x00;
   xab; x17; x00; x80; x96; x00; x00; x00; x00; x00; x00; x00; xaf; x00;
   xaf; x00; x00; x00; x00; x00]
  ++ sample_data.

(** A stand-in for [zlib.decompress] on the sample file, whose payload
    is held as it is. *)
Definition stored (raw : bytes) : option bytes := Some raw.

(** ** Bit fields *)

(** Whether a bit field is what shifting and masking give. *)
Definition field_ok (b lo hi : Z) : bool :=
  match bitfield b (Slice lo hi) with
  | OK v => v =? (b / 2 ^ lo) mod 2 ^ (hi - lo)
  | _ => false
  end.

(** ** Result codes and decoded events *)

(** The result codes the tables of [LeftGame] know. *)
Definition known_result (res : Z) : Prop :=
  res = 0x01 \/ res = 0x07 \/ res = 0x08 \/ res = 0x09 \/ res = 0x0A \/
  res = 0x0B.

(** Each [LeftGame] that points at a next one is followed by it by one
    step of the sequence flag exactly when the next one has [inc] set. *)
Definition inc_ok (self : State) : Prop :=
  forall i p j e,
  events self !! i = Some (ELeftGame p) ->
  LeftGame.next p = Some j ->
  events self !! j = Some (ELeftGame e) ->
  LeftGame.inc e = (LeftGame.unknownflag e =? LeftGame.unknownflag p + 1).

(** The fields of a decoded event lie in the ranges of the bytes they
    were read from, and its mode or closer is one of the texts the
    decoders write. *)
Definition event_wf (e : Event) : Prop :=
  match e with
  | EChat c =>
      0 <= Chat.player_id c < 256 /\
      (Chat.mode c ∈ ["startup"; "all"; "allies"; "observers"] \/
       exists k, 0 <= k /\
                 Chat.mode c = ("player" ++ str_of_int k)%string)
  | ELeftGame l =>
      0 <= LeftGame.player_id l < 256 /\
      LeftGame.closedby l ∈ ["remote"; "local"; "unknown"] /\
      0 <= LeftGame.resultflag l < 2 ^ 32 /\
      0 <= LeftGame.unknownflag l < 2 ^ 32
  | ECountdown c =>
      Countdown.mode c ∈ ["running"; "over"] /\
      0 <= Countdown.secs c < 2 ^ 32
  end.

(** The closer a reason code stands for. *)
Definition closer (reason : Z) : string :=
  if reason =? 0x01 then "remote"
  else if reason =? 0x0C then "local"
  else "unknown".

(** The event [e'] is [e], up to the [next] reference of a [LeftGame]. *)
Definition same_but_next (e e' : Event) : Prop :=
  e' = e \/ exists nx, e' = set_next nx e.

(** ** Records of the event stream, as the format lays them out *)

(** The byte of an integer in [0, 256). *)
Definition byte_of (z : Z) : byte :=
  default x00 (Byte.of_N (Z.to_N z)).

(** An unsigned 16-bit integer in little-endian order. *)
Definition le16 (n : Z) : bytes := [byte_of (n mod 256); byte_of (n / 256)].

(** An action sub-record of a time slot: the player id, the length of
    the payload and the payload. *)
Definition action_record (r : byte * bytes) : bytes :=
  r.1 :: le16 (len r.2) ++ r.2.

(** The first exception of a sequence of calls. *)
Fixpoint first_raise (calls : list (option exn)) : Result unit :=
  match calls with
  | [] => OK tt
  | None :: rest => first_raise rest
  | Some e :: _ => Raise e
  end.

(** The records the loop skips, with their sizes. *)
Definition skipped_records : list (byte * Z) :=
  [(x1a, 5); (x1b, 5); (x1c, 5); (x22, 6); (x23, 11)].

(** Whether the sequence flag [flag] follows by one the sequence flag of
    the event [_lastleft] refers to. *)
Definition follows (self : State) (flag : Z) : bool :=
  match _lastleft self with
  | None => false
  | Some l =>
      match events self !! l with
      | Some (ELeftGame p) => flag =? LeftGame.unknownflag p + 1
      | _ => false
      end
  end.

(** A player record as the startup record holds it: the host flag, the
    player id, the name and its terminator, the kind of game (1 custom,
    8 ladder) and what follows the kind. *)
Definition player_record (host pid : byte) (name : bytes) (kind : byte)
    (tail : bytes) : bytes :=
  [host; pid] ++ name ++ [x00; kind] ++ tail.

(** What every player record read from a startup record satisfies: the
    id is a byte and the record has at least 4 bytes. *)
Definition player_ok (p : Player.t) : Prop :=
  0 <= Player.id p < 256 /\ 4 <= Player.size p.

(** What every slot record of a startup record whose records have
    [recsize] bytes satisfies: it holds [recsize] bytes, and the fields
    a short record has no room for have the defaults of [__new__]. *)
Definition slot_ok (recsize : Z) (r : SlotRecord.t) : Prop :=
  SlotRecord.size r = recsize /\ len (SlotRecord.raw r) = recsize /\
  0 <= SlotRecord.player_id r < 256 /\
  (recsize = 7 -> SlotRecord.ai r = "normal") /\
  (recsize <= 8 -> SlotRecord.handicap r = 100) /\
  0 <= SlotRecord.handicap r < 256.

(** The [n]-byte little-endian integer at the offset [a] of a file; what
    lies beyond the end of the file counts for nothing. *)
Definition field (file : bytes) (a n : Z) : Z := b2i (slice file a (a + n)).

(** The header of a replay file, field by field: the five integers at
    0x1C, the version fields at 0x30, whose layout depends on the header
    version, and after them the build number, the flags, the length of
    the replay and the checksum, which start at [a]. *)
Definition header_at (file : bytes) : Result Header :=
  let hv := field file 0x24 4 in
  let fields version_id_str version_num a :=
    let flags := slice file (a + 2) (a + 4) in
    mkHeader (field file 0x1C 4) (field file 0x20 4) hv (field file 0x28 4)
      (field file 0x2C 4) version_id_str version_num (field file a 2) flags
      (b2i flags =? 0) (b2i flags =? 0x8000) (field file (a + 4) 4)
      (field file (a + 8) 4) in
  if hv =? 0 then OK (fields None (field file 0x32 2) 0x34)
  else if hv =? 1 then
    s <- decode (rev (slice file 0x30 0x34));
    OK (fields (Some s) (field file 0x34 4) 0x38)
  else Raise ValueError.

(** The cursor [p] of a handle reads what a cursor at [q] would: they
    are equal, or both are at or past the end of the file. *)
Definition reads_as (file : bytes) (p q : Z) : Prop :=
  0 <= p /\ 0 <= q /\ (p = q \/ (len file <= p /\ len file <= q)).

(** A chat record: the tag 0x20, the player, the number of bytes that
    follow the length, then those bytes: [head], which is the flag byte
    and, unless the flag is 0x10, the 4-byte mode code; the message and
    its terminator; and whatever the record holds after it. *)
Definition chat_record (pid : byte) (head msg pad : bytes) : bytes :=
  x20 :: pid :: le16 (len head + len msg + 1 + len pad)
    ++ head ++ msg ++ [x00] ++ pad.

(** * Properties of the reader *)

Create HintDb nofuel.

(** One step through a sequence of calls none of which runs out of
    budget. *)
Ltac bind_fuel :=
  match goal with
  | |- OK _ <> OutOfFuel => discriminate
  | |- Raise _ <> OutOfFuel => discriminate
  | |- bind ?r _ <> OutOfFuel =>
      let H := fresh in
      assert (r <> OutOfFuel) as H by auto with nofuel;
      destruct r as [?|?|]; cbn [bind]; [|discriminate|contradiction]
  | |- bind (if ?c then _ else _) _ <> OutOfFuel => destruct c
  | |- bind (bind ?r _) _ <> OutOfFuel =>
      let H := fresh in
      assert (r <> OutOfFuel) as H by auto with nofuel;
      destruct r as [?|?|]; cbn [bind]; [|discriminate|contradiction]
  | |- (if ?c then _ else _) <> OutOfFuel => destruct c
  | |- match ?x with (_, _) => _ end <> OutOfFuel => destruct x
  | |- match ?x with Some _ => _ | None => _ end <> OutOfFuel => destruct x
  end.

(** ** Bytes, slices and indices *)

Lemma b2z_range (b : byte) : 0 <= b2z b < 256.
Proof.
  unfold b2z. pose proof (Byte.to_N_bounded b) as H.
  split; [apply N2Z.is_nonneg|].
  apply N2Z.inj_le in H. simpl in H. lia.
Qed.

Lemma b2z_zero (b : byte) : b2z b = 0 <-> b = x00.
Proof.
  split; [|intros ->; reflexivity].
  unfold b2z. intros H.
  assert (Byte.to_N b = Byte.to_N x00) as E by (simpl; lia).
  apply (f_equal Byte.of_N) in E.
  rewrite !Byte.of_to_N in E. congruence.
Qed.

Lemma b2i_nonneg (b : bytes) : 0 <= b2i b.
Proof.
  induction b as [|x r IH]; simpl; [lia|].
  pose proof (b2z_range x). lia.
Qed.

Lemma len_nonneg {A} (l : list A) : 0 <= len l.
Proof. unfold len. lia. Qed.

Lemma index_nonneg {A} (l : list A) (i : Z) :
  0 <= i ->
  index l i = match l !! Z.to_nat i with
              | Some x => OK x
              | None => Raise IndexError
              end.
Proof.
  intros Hi. unfold index.
  destruct (i <? 0) eqn:E; [lia|].
  now rewrite E.
Qed.

Lemma index_OK_nonneg {A} (l : list A) (i : Z) (x : A) :
  0 <= i -> index l i = OK x -> l !! Z.to_nat i = Some x.
Proof.
  intros Hi. rewrite index_nonneg by assumption.
  destruct (l !! Z.to_nat i); congruence.
Qed.

Lemma byte_at_0 (x : byte) (r : bytes) : byte_at (x :: r) 0 = OK (b2z x).
Proof. reflexivity. Qed.

Lemma byte_at_nil (i : Z) : byte_at [] i = Raise IndexError.
Proof.
  unfold byte_at, index. rewrite lookup_nil.
  now destruct (_ <? 0).
Qed.

Lemma byte_at_OK_lt (b : bytes) (i v : Z) :
  0 <= i -> byte_at b i = OK v -> i < len b.
Proof.
  intros Hi. unfold byte_at. rewrite index_nonneg by assumption.
  destruct (b !! Z.to_nat i) eqn:E; cbn; intros H; [|discriminate H].
  apply lookup_lt_Some in E. unfold len. lia.
Qed.

Lemma slice_from_length {A} (l : list A) (a : Z) :
  1 <= a -> l <> [] -> (length (slice_from l a) < length l)%nat.
Proof.
  intros Ha Hl. unfold slice_from, norm.
  destruct (a <? 0) eqn:E; [lia|].
  rewrite length_drop.
  assert (0 < length l)%nat by (destruct l; simpl; [congruence|lia]).
  unfold len. lia.
Qed.

Lemma slice_from_nonneg {A} (l : list A) (a : Z) :
  0 <= a -> slice_from l a = drop (Z.to_nat a) l.
Proof.
  intros Ha. unfold slice_from, norm.
  destruct (a <? 0) eqn:E; [lia|].
  destruct (Z.le_gt_cases a (len l)) as [H|H].
  - now rewrite Z.min_l.
  - rewrite Z.min_r by lia. unfold len in *.
    rewrite !drop_ge; [reflexivity|lia|lia].
Qed.

Lemma slice_to_nonneg {A} (l : list A) (b : Z) :
  0 <= b -> slice_to l b = take (Z.to_nat b) l.
Proof.
  intros Hb. unfold slice_to, norm.
  destruct (b <? 0) eqn:E; [lia|].
  destruct (Z.le_gt_cases b (len l)) as [H|H].
  - now rewrite Z.min_l.
  - rewrite Z.min_r by lia. unfold len in *.
    rewrite !take_ge; [reflexivity|lia|lia].
Qed.

Lemma slice_nonneg {A} (l : list A) (a b : Z) :
  0 <= a -> a <= b ->
  slice l a b = take (Z.to_nat (b - a)) (drop (Z.to_nat a) l).
Proof.
  intros Ha Hab. unfold slice, norm.
  destruct (a <? 0) eqn:Ea; [lia|].
  destruct (b <? 0) eqn:Eb; [lia|].
  unfold len.
  destruct (Z.le_gt_cases b (Z.of_nat (length l))) as [H|H].
  - rewrite (Z.min_l b), (Z.min_l a) by lia. reflexivity.
  - rewrite (Z.min_r b) by lia.
    destruct (Z.le_gt_cases a (Z.of_nat (length l))) as [H'|H'].
    + rewrite (Z.min_l a) by lia.
      rewrite !take_ge; [reflexivity| |]; rewrite length_drop; lia.
    + rewrite (Z.min_r a) by lia.
      rewrite !drop_ge by lia. now rewrite !take_nil.
Qed.

(** The straight-line decoders never answer [OutOfFuel]. *)

Lemma index_fuel {A} (l : list A) (i : Z) : index l i <> OutOfFuel.
Proof.
  unfold index. destruct (_ <? 0); [discriminate|].
  destruct (l !! _); discriminate.
Qed.

Lemma byte_at_fuel (b : bytes) (i : Z) : byte_at b i <> OutOfFuel.
Proof.
  unfold byte_at. pose proof (index_fuel b i).
  destruct (index b i); cbn; congruence.
Qed.

Lemma nulltermstr_fuel (b : bytes) : nulltermstr b <> OutOfFuel.
Proof.
  unfold nulltermstr, decode.
  destruct (utf8_valid _); cbn; discriminate.
Qed.

(** ** The effects keep the chain and the timestamps in order *)

Lemma left_at_lt evs i : left_at evs i -> (i < length evs)%nat.
Proof. intros [e He]. now apply lookup_lt_Some in He. Qed.

Lemma left_at_alter nx l evs k :
  left_at (alter (set_next nx) l evs) k <-> left_at evs k.
Proof.
  unfold left_at. destruct (decide (l = k)) as [->|Hne].
  - rewrite list_lookup_alter_eq.
    destruct (evs !! k) as [[c|e|c]|]; cbn; split; intros [x Hx];
      try discriminate; eauto.
  - now rewrite list_lookup_alter_ne.
Qed.

Lemma left_at_snoc evs e k :
  left_at (evs ++ [e]) k <->
  left_at evs k \/ (k = length evs /\ ~ not_left e).
Proof.
  unfold left_at. split.
  - intros [x Hx]. apply lookup_snoc_Some in Hx as [[_ Hx]|[-> ->]]; [eauto|].
    right. cbn. tauto.
  - intros [[x Hx]|[-> He]].
    + exists x. now apply lookup_app_l_Some.
    + destruct e as [c|x|c]; cbn in He; try tauto.
      exists x. apply list_lookup_middle. reflexivity.
Qed.

Lemma time_set_next nx e : time (set_next nx e) = time e.
Proof. now destruct e. Qed.

Lemma link_events self e :
  events (link self e) =
  match _lastleft self with
  | Some l =>
      alter (set_next (Some (length (events self)))) l
        (events self ++ [ELeftGame e])
  | None => events self ++ [ELeftGame e]
  end.
Proof. reflexivity. Qed.

(** An event of the chained state is the event of the same index before,
    up to its [next]. *)
Lemma link_lookup self e i x :
  events (link self e) !! i = Some x ->
  exists y, (events self ++ [ELeftGame e]) !! i = Some y /\
            (x = y \/ x = set_next (Some (length (events self))) y).
Proof.
  rewrite link_events. destruct (_lastleft self) as [l|]; [|eauto].
  destruct (decide (l = i)) as [->|Hne].
  - rewrite list_lookup_alter_eq.
    destruct (_ !! i) as [y|]; cbn; [|discriminate].
    intros [= <-]. eauto.
  - rewrite list_lookup_alter_ne by assumption. eauto.
Qed.

Lemma left_at_link self e k :
  left_at (events (link self e)) k <->
  left_at (events self) k \/ k = length (events self).
Proof.
  rewrite link_events.
  destruct (_lastleft self) as [l|]; rewrite ?left_at_alter, left_at_snoc;
    cbn; intuition.
Qed.

Lemma effect_times self self' :
  effect self self' -> times_ok self -> times_ok self'.
Proof.
  intros Heff [Hs Hc H0].
  assert (forall e i j ei ej, time e = _clock self -> (i <= j)%nat ->
            (events self ++ [e]) !! i = Some ei ->
            (events self ++ [e]) !! j = Some ej -> time ei <= time ej) as Hsnoc.
  { intros e i j ei ej He Hij Hi Hj.
    apply lookup_snoc_Some in Hi as [[Hi1 Hi]|[-> <-]];
      apply lookup_snoc_Some in Hj as [[Hj1 Hj]|[-> <-]].
    - eauto.
    - rewrite He. apply Hc. eapply list_elem_of_lookup_2; eauto.
    - lia.
    - lia. }
  destruct Heff as [|e He Ht|dt Hdt|e Ht Hn Hi].
  - now split.
  - split; cbn; [eauto| |assumption].
    intros x [Hx|Hx%list_elem_of_singleton]%elem_of_app; [eauto|].
    subst. lia.
  - split; cbn; [assumption| |lia].
    intros x Hx. specialize (Hc x Hx). lia.
  - split; [| |assumption].
    + intros i j ei ej Hij (yi & Hyi & Ei)%link_lookup (yj & Hyj & Ej)%link_lookup.
      assert (time ei = time yi) as ->
        by (destruct Ei as [->| ->]; now rewrite ?time_set_next).
      assert (time ej = time yj) as ->
        by (destruct Ej as [->| ->]; now rewrite ?time_set_next).
      eapply (Hsnoc (ELeftGame e)); eauto.
    + intros x (i & (y & Hy & E)%link_lookup)%list_elem_of_lookup_1.
      assert (time x = time y) as ->
        by (destruct E as [->| ->]; now rewrite ?time_set_next).
      change (_clock (link self e)) with (_clock self).
      apply lookup_snoc_Some in Hy as [[_ Hy]|[_ <-]].
      * apply Hc. eapply list_elem_of_lookup_2; eauto.
      * cbn. lia.
Qed.

Lemma lastleft_lt self l :
  chain_ok self -> _lastleft self = Some l -> (l < length (events self))%nat.
Proof.
  intros [Hl _ _] E. rewrite E in Hl. apply left_at_lt, Hl.
Qed.

(** In the chained state the events before the new one are the old ones,
    the one [_lastleft] referred to now pointing at the new one. *)
Lemma link_lookup_old self e i x :
  chain_ok self -> (i < length (events self))%nat ->
  events (link self e) !! i = Some (ELeftGame x) ->
  exists y, events self !! i = Some (ELeftGame y) /\
    LeftGame.inc x = LeftGame.inc y /\
    if decide (_lastleft self = Some i)
    then LeftGame.next x = Some (length (events self))
    else x = y.
Proof.
  intros Hok Hi. rewrite link_events.
  destruct (_lastleft self) as [l|] eqn:El.
  - destruct (decide (l = i)) as [->|Hne].
    + rewrite list_lookup_alter_eq, lookup_app_l by assumption.
      destruct (events self !! i) as [[c|y|c]|]; cbn; intros [= <-].
      exists y. rewrite decide_True by reflexivity. now repeat split.
    + rewrite list_lookup_alter_ne, lookup_app_l by assumption.
      intros H. exists x. rewrite decide_False by congruence. now repeat split.
  - rewrite lookup_app_l by assumption.
    intros H. exists x. rewrite decide_False by congruence. now repeat split.
Qed.

Lemma link_lookup_new self e :
  chain_ok self ->
  events (link self e) !! length (events self) = Some (ELeftGame e).
Proof.
  intros Hok. rewrite link_events.
  destruct (_lastleft self) as [l|] eqn:El.
  - pose proof (lastleft_lt _ _ Hok El).
    rewrite list_lookup_alter_ne by lia. now apply list_lookup_middle.
  - now apply list_lookup_middle.
Qed.

Lemma link_length self e :
  length (events (link self e)) = S (length (events self)).
Proof.
  rewrite link_events.
  destruct (_lastleft self); rewrite ?length_alter, length_app; cbn; lia.
Qed.

Lemma effect_chain self self' :
  effect self self' -> chain_ok self -> chain_ok self'.
Proof.
  intros Heff Hok. destruct Heff as [|e He Ht|dt Hdt|e Ht Hn Hi].
  - assumption.
  - destruct Hok as [Hl Hn Hf].
    assert (forall k, left_at (events self ++ [e]) k <-> left_at (events self) k)
      as Hk by (intros k; rewrite left_at_snoc; tauto).
    assert (forall i x, (events self ++ [e]) !! i = Some (ELeftGame x) ->
                        events self !! i = Some (ELeftGame x)) as Hx.
    { intros i x [[_ H]|[_ ->]]%lookup_snoc_Some; [assumption|].
      now destruct He. }
    split; cbn.
    + destruct (_lastleft self) as [l|]; setoid_rewrite Hk; assumption.
    + intros i x H%Hx. specialize (Hn i x H).
      destruct (LeftGame.next x); setoid_rewrite Hk; assumption.
    + intros i x H%Hx. setoid_rewrite Hk. now apply Hf.
  - destruct Hok as [Hl Hn Hf]. now split.
  - pose proof Hok as [Hl Hnx Hf].
    split.
    + change (_lastleft (link self e)) with (Some (length (events self))).
      split.
      * exists e. now apply link_lookup_new.
      * intros k Hk Hat%left_at_lt. rewrite link_length in Hat. lia.
    + intros i x Hx.
      assert (i < S (length (events self)))%nat as Hlt
        by (rewrite <- (link_length self e); now apply lookup_lt_Some in Hx).
      destruct (decide (i = length (events self))) as [->|Hne].
      * rewrite link_lookup_new in Hx by assumption.
        injection Hx as <-. rewrite Hn.
        intros k Hk Hat%left_at_lt. rewrite link_length in Hat. lia.
      * apply link_lookup_old in Hx as (y & Hy & _ & Hd); [|assumption|lia].
        destruct (decide (_lastleft self = Some i)) as [El|El].
        -- rewrite Hd. repeat split; [lia|apply left_at_link; now right|].
           intros k Hk [Hat|?]%left_at_link; [|lia].
           rewrite El in Hl. destruct Hl as [_ Hl]. apply (Hl k); [lia|assumption].
        -- subst x. specialize (Hnx i y Hy).
           destruct (LeftGame.next y) as [j|].
           ++ destruct Hnx as (Hij & Hj & Hb).
              repeat split; [assumption|apply left_at_link; now left|].
              intros k Hk [Hat | ->]%left_at_link; [now apply (Hb k)|].
              apply left_at_lt in Hj. lia.
           ++ exfalso. destruct (_lastleft self) as [l|].
              ** destruct Hl as [Hat Hl].
                 destruct (Nat.lt_trichotomy i l) as [?|[->|?]].
                 --- now apply (Hnx l).
                 --- congruence.
                 --- apply (Hl i); [assumption|now exists y].
              ** apply (Hl i). now exists y.
    + intros i x Hx Hbefore.
      assert (forall k, (k < i)%nat -> ~ left_at (events self) k) as Hb'.
      { intros k Hk Hat. apply (Hbefore k Hk). apply left_at_link. now left. }
      assert (i < S (length (events self)))%nat as Hlt
        by (rewrite <- (link_length self e); now apply lookup_lt_Some in Hx).
      destruct (decide (i = length (events self))) as [->|Hne].
      * rewrite link_lookup_new in Hx by assumption.
        injection Hx as <-. rewrite Hi. unfold consecutive.
        destruct (_lastleft self) as [l|] eqn:El; [|reflexivity].
        exfalso. destruct Hl as [Hat _].
        apply (Hb' l); [now apply left_at_lt|assumption].
      * apply link_lookup_old in Hx as (y & Hy & -> & _); [|assumption|lia].
        now apply (Hf i).
Qed.

(** The state the loop starts from. *)
Lemma initial_ok : chain_ok (mkState [] 0 None) /\ times_ok (mkState [] 0 None).
Proof.
  split; split; cbn.
  - intros k [e He]. now rewrite lookup_nil in He.
  - intros i e He. now rewrite lookup_nil in He.
  - intros i e He. now rewrite lookup_nil in He.
  - intros i j ei ej _ He. now rewrite lookup_nil in He.
  - intros e He. now apply not_elem_of_nil in He.
  - lia.
Qed.

(** ** The event loop *)

Section ReaderProperties.

Variable _parse_actions : Z -> bytes -> option exn.

Lemma lift_inv {A B} (r : Result A) (k : A -> M B) self res self' :
  lift r k self = (res, self') ->
  (exists a, r = OK a /\ k a self = (res, self')) \/
  (self' = self /\ ((exists e, r = Raise e /\ res = Raise e) \/
                    (r = OutOfFuel /\ res = OutOfFuel))).
Proof.
  unfold lift. destruct r; intros H.
  - left. eauto.
  - right. inversion H; subst. eauto.
  - right. inversion H; subst. eauto.
Qed.

Lemma lift_ok {A B} (r : Result A) (k : A -> M B) self res self' :
  r <> OutOfFuel ->
  lift r k self = (res, self') ->
  (exists a, r = OK a /\ k a self = (res, self')) \/
  (self' = self /\ exists e, res = Raise e).
Proof.
  intros Hr H. apply lift_inv in H as [H|(-> & [(e & _ & ->)|(? & _)])];
    [now left|right; eauto|contradiction].
Qed.

(** The four decoders and the skipped records are all the table holds. *)
Lemma parsers_cases k p :
  get (_parsers _parse_actions) k = Some p ->
  p = _parse_leave_game \/ p = _parse_time_slot _parse_actions \/ p = _parse_chat \/
  p = _parse_countdown \/ exists c, 1 <= c /\ p = (fun _ self => (OK c, self)).
Proof.
  unfold _parsers. cbn [get].
  repeat (destruct (_ =? k);
          [intros [= <-]; first [tauto | do 4 right; eexists; split; [|reflexivity]; lia]|]).
  discriminate.
Qed.

Lemma time_slot_loop_total fuel cmddata :
  (length cmddata <= fuel)%nat -> time_slot_loop _parse_actions fuel cmddata <> OutOfFuel.
Proof.
  revert cmddata. induction fuel as [|fuel IH]; intros cmddata Hf; cbn.
  - destruct cmddata; [cbn; discriminate|simpl in Hf; lia].
  - destruct (len cmddata >? 0) eqn:E; [|discriminate].
    destruct cmddata as [|x r]; [discriminate|].
    rewrite byte_at_0. cbn [bind].
    destruct (_parse_actions _ _); cbn; [discriminate|].
    apply IH.
    assert (length (slice_from (x :: r) (b2i (slice (x :: r) 1 (1 + WORD)) + 1 + WORD))
            < length (x :: r))%nat; [|lia].
    apply slice_from_length; [|discriminate].
    pose proof (b2i_nonneg (slice (x :: r) 1 (1 + WORD))). unfold WORD in *. lia.
Qed.

Lemma b2i_bound (b : bytes) : b2i b < 256 ^ len b.
Proof.
  induction b as [|x r IH]; [reflexivity|].
  unfold len in *. cbn [b2i length]. rewrite Nat2Z.inj_succ, Z.pow_succ_r by lia.
  pose proof (b2z_range x). lia.
Qed.

Lemma b2i_word (data : bytes) (a : Z) :
  0 <= a -> 0 <= b2i (slice data a (a + WORD)) < 65536.
Proof.
  intros Ha. split; [apply b2i_nonneg|].
  pose proof (b2i_bound (slice data a (a + WORD))) as H.
  assert (len (slice data a (a + WORD)) <= 2) as Hl.
  { unfold WORD. rewrite slice_nonneg by lia. unfold len.
    rewrite length_take. lia. }
  pose proof (len_nonneg (slice data a (a + WORD))).
  assert (256 ^ len (slice data a (a + WORD)) <= 256 ^ 2)
    by (apply Z.pow_le_mono_r; lia).
  lia.
Qed.

Lemma parse_leave_game_effect data self r self' :
  _parse_leave_game data self = (r, self') ->
  (self' = self /\ exists x, r = Raise x) \/
  (r = OK 14 /\ exists e, self' = link self e /\
     LeftGame.time e = _clock self /\ LeftGame.next e = None /\
     LeftGame.inc e = consecutive self e).
Proof.
  unfold _parse_leave_game. intros H.
  apply lift_ok in H as [(pid & _ & H)|?]; [|now left|apply byte_at_fuel].
  apply lift_ok in H as [(inc & Hinc & H)|?]; [|now left|].
  2: { destruct (_lastleft self) as [l|]; [|discriminate].
       unfold lastleft_unknownflag.
       destruct (events self !! l) as [[| |]|]; discriminate. }
  right. inversion H; subst; clear H. split; [reflexivity|].
  eexists. split; [reflexivity|]. cbn.
  repeat split. unfold consecutive, lastleft_unknownflag in *.
  destruct (_lastleft self) as [l|]; [|congruence].
  destruct (events self !! l) as [[| |]|]; cbn in Hinc; try discriminate.
  cbn. congruence.
Qed.

Lemma parse_chat_effect data self r self' :
  _parse_chat data self = (r, self') ->
  (self' = self /\ exists x, r = Raise x) \/
  (exists c, r = OK (b2i (slice data 2 (2 + WORD)) + 4) /\
     self' = append (EChat c) self /\ Chat.time c = _clock self).
Proof.
  unfold _parse_chat. intros H.
  apply lift_ok in H as [(pid & _ & H)|?]; [|now left|apply byte_at_fuel].
  apply lift_ok in H as [(fl & _ & H)|?]; [|now left|apply byte_at_fuel].
  destruct (if fl =? 16 then _ else _) as [mode off].
  apply lift_ok in H as [([msg i] & _ & H)|?];
    [|now left|apply nulltermstr_fuel].
  right. inversion H; subst; clear H. eexists. repeat split.
Qed.

Lemma parse_time_slot_effect data self r self' :
  _parse_time_slot _parse_actions data self = (r, self') ->
  (self' = self /\ exists x, r = Raise x) \/
  (r = OK (b2i (slice data 1 (1 + WORD)) + 3) /\
   self' = mkState (events self)
             (_clock self + b2i (slice data 3 (3 + WORD))) (_lastleft self)).
Proof.
  unfold _parse_time_slot. intros H.
  apply lift_ok in H as [(pid & _ & H)|?];
    [|now left|now apply time_slot_loop_total].
  right. inversion H; subst; clear H. split; reflexivity.
Qed.

(** Every decoder of the table has one of the four effects and, when it
    returns, returns a positive offset. *)
Lemma parser_effect k p data self r self' :
  get (_parsers _parse_actions) k = Some p ->
  p data self = (r, self') ->
  effect self self' /\ r <> OutOfFuel /\ forall o, r = OK o -> 1 <= o.
Proof.
  intros Hp H.
  apply parsers_cases in Hp as [->|[->|[->|[->|(c & Hc & ->)]]]].
  - apply parse_leave_game_effect in H
      as [(-> & x & ->)|(-> & e & -> & ? & ? & ?)].
    + repeat split; [constructor|discriminate..].
    + repeat split; [now constructor|discriminate|]. intros o [= <-]. lia.
  - apply parse_time_slot_effect in H as [(-> & x & ->)|(-> & ->)].
    + repeat split; [constructor|discriminate..].
    + split; [|split; [discriminate|]].
      * apply eff_tick. apply (b2i_word data 3). lia.
      * intros o [= <-]. pose proof (b2i_nonneg (slice data 1 (1 + WORD))). lia.
  - apply parse_chat_effect in H as [(-> & x & ->)|(c & -> & -> & Hc)].
    + repeat split; [constructor|discriminate..].
    + repeat split; [now constructor|discriminate|].
      intros o [= <-]. pose proof (b2i_nonneg (slice data 2 (2 + WORD))). lia.
  - inversion H; subst; clear H.
    repeat split; [now constructor|discriminate|]. intros o [= <-]. lia.
  - inversion H; subst; clear H.
    repeat split; [constructor|discriminate|]. intros o [= <-]. lia.
Qed.

Lemma events_loop_S fuel data self :
  events_loop _parse_actions (S fuel) data self =
  lift (byte_at data 0) (fun blockid =>
    if blockid =? 0 then fun self => (OK tt, self)
    else
      lift (getitem (_parsers _parse_actions) blockid) (fun parser self =>
      match parser data self with
      | (OK offset, self') =>
          events_loop _parse_actions fuel (slice_from data offset) self'
      | (Raise e, self') => (Raise e, self')
      | (OutOfFuel, self') => (OutOfFuel, self')
      end)) self.
Proof. reflexivity. Qed.

Lemma events_loop_nil fuel self :
  events_loop _parse_actions fuel [] self = (Raise IndexError, self).
Proof. destruct fuel; reflexivity. Qed.

Lemma getitem_inv {V} (d : dict V) k v :
  getitem d k = OK v -> get d k = Some v.
Proof. unfold getitem. destruct (get d k); congruence. Qed.

(** The budget does not matter once it covers the bytes left. *)
Lemma events_loop_fuel fuel1 fuel2 data self :
  (length data <= fuel1)%nat -> (length data <= fuel2)%nat ->
  events_loop _parse_actions fuel1 data self =
  events_loop _parse_actions fuel2 data self.
Proof.
  revert fuel2 data self.
  induction fuel1 as [|fuel1 IH]; intros fuel2 data self H1 H2.
  - destruct data; [|simpl in H1; lia]. now rewrite !events_loop_nil.
  - destruct data as [|x rest]; [now rewrite !events_loop_nil|].
    destruct fuel2 as [|fuel2]; [simpl in H2; lia|].
    rewrite !events_loop_S. rewrite byte_at_0. cbn [lift].
    destruct (b2z x =? 0); [reflexivity|].
    destruct (getitem _ (b2z x)) as [p| |] eqn:Hp; cbn [lift]; try reflexivity.
    apply getitem_inv in Hp.
    destruct (p (x :: rest) self) as [[off| |] self'] eqn:Hr; try reflexivity.
    destruct (parser_effect _ _ _ _ _ _ Hp Hr) as (_ & _ & Hoff).
    specialize (Hoff off eq_refl).
    assert (length (slice_from (x :: rest) off) < length (x :: rest))%nat
      by (apply slice_from_length; [lia|discriminate]).
    apply IH; lia.
Qed.

(** The loop of [_parse_blocks], turn by turn. *)
Lemma parse_events_unfold data self :
  parse_events _parse_actions data self =
  lift (byte_at data 0) (fun blockid =>
    if blockid =? 0 then fun self => (OK tt, self)
    else
      lift (getitem (_parsers _parse_actions) blockid) (fun parser self =>
      match parser data self with
      | (OK offset, self') =>
          parse_events _parse_actions (slice_from data offset) self'
      | (Raise e, self') => (Raise e, self')
      | (OutOfFuel, self') => (OutOfFuel, self')
      end)) self.
Proof.
  unfold parse_events.
  destruct data as [|x rest]; [now rewrite events_loop_nil|].
  cbn [length]. rewrite events_loop_S, byte_at_0. cbn [lift].
  destruct (b2z x =? 0); [reflexivity|].
  destruct (getitem _ (b2z x)) as [p| |] eqn:Hp; cbn [lift]; try reflexivity.
  apply getitem_inv in Hp.
  destruct (p (x :: rest) self) as [[off| |] self'] eqn:Hr; try reflexivity.
  destruct (parser_effect _ _ _ _ _ _ Hp Hr) as (_ & _ & Hoff).
  specialize (Hoff off eq_refl).
  assert (length (slice_from (x :: rest) off) < length (x :: rest))%nat
    by (apply slice_from_length; [lia|discriminate]).
  apply events_loop_fuel; cbn [length] in *; lia.
Qed.

(** The loop ends: its budget, the number of bytes left, is never used
    up, so every run returns or raises. *)
Lemma events_loop_total fuel data self :
  (length data <= fuel)%nat ->
  (events_loop _parse_actions fuel data self).1 <> OutOfFuel.
Proof.
  revert data self. induction fuel as [|fuel IH]; intros data self Hf.
  - destruct data; [|simpl in Hf; lia]. rewrite events_loop_nil. discriminate.
  - destruct data as [|x rest]; [rewrite events_loop_nil; discriminate|].
    rewrite events_loop_S, byte_at_0. cbn [lift].
    destruct (b2z x =? 0); [discriminate|].
    destruct (getitem _ (b2z x)) as [p| |] eqn:Hp; cbn [lift]; try discriminate.
    { apply getitem_inv in Hp.
      destruct (p (x :: rest) self) as [[off| |] self'] eqn:Hr; try discriminate.
      - destruct (parser_effect _ _ _ _ _ _ Hp Hr) as (_ & _ & Hoff).
        specialize (Hoff off eq_refl).
        assert (length (slice_from (x :: rest) off) < length (x :: rest))%nat
          by (apply slice_from_length; [lia|discriminate]).
        apply IH. cbn [length] in *; lia.
      - now destruct (parser_effect _ _ _ _ _ _ Hp Hr) as (_ & ? & _). }
    unfold getitem in Hp. destruct (get _ _); discriminate.
Qed.

Lemma parse_events_total data self :
  (parse_events _parse_actions data self).1 <> OutOfFuel.
Proof. now apply events_loop_total. Qed.

(** A run of the loop is a sequence of record effects. *)
Lemma events_loop_effects fuel data self r self' :
  events_loop _parse_actions fuel data self = (r, self') ->
  rtc effect self self'.
Proof.
  revert data self. induction fuel as [|fuel IH]; intros data self H.
  - change (lift (byte_at data 0) (fun blockid =>
              if blockid =? 0 then fun self => (OK tt, self)
              else fun self => (OutOfFuel, self)) self = (r, self')) in H.
    apply lift_inv in H as [(k & _ & H)|(-> & _)]; [|constructor].
    destruct (k =? 0); injection H as _ <-; constructor.
  - rewrite events_loop_S in H.
    apply lift_inv in H as [(k & _ & H)|(-> & _)]; [|constructor].
    destruct (k =? 0); [injection H as _ <-; constructor|].
    apply lift_inv in H as [(p & Hp%getitem_inv & H)|(-> & _)]; [|constructor].
    destruct (p data self) as [res self1] eqn:Hr.
    destruct (parser_effect _ _ _ _ _ _ Hp Hr) as (Heff & _).
    apply rtc_l with self1; [assumption|].
    destruct res; [eauto|injection H as _ <-; constructor..].
Qed.

Lemma effects_ok self self' :
  rtc effect self self' ->
  chain_ok self /\ times_ok self -> chain_ok self' /\ times_ok self'.
Proof.
  induction 1 as [|self self1 self' Heff _ IH]; [trivial|].
  intros [Hc Ht]. apply IH.
  split; [now apply (effect_chain self)|now apply (effect_times self)].
Qed.

Lemma parse_events_ok data self :
  chain_ok self /\ times_ok self ->
  chain_ok (parse_events _parse_actions data self).2 /\
  times_ok (parse_events _parse_actions data self).2.
Proof.
  destruct (parse_events _ data self) as [r self'] eqn:H.
  apply events_loop_effects in H. now apply effects_ok.
Qed.

(** Whatever [_parse_blocks] answers, it leaves the chain and the
    timestamps in order. *)
Lemma parse_blocks_ok data :
  chain_ok (_parse_blocks _parse_actions data).2 /\
  times_ok (_parse_blocks _parse_actions data).2.
Proof.
  unfold _parse_blocks.
  destruct (_parse_startup data) as [[su offset]| |];
    [|apply initial_ok..].
  pose proof (parse_events_ok (slice_from data offset) _ initial_ok) as H.
  now destruct (parse_events _ _ _).
Qed.

(** The resolution of a local leave, from the [next] reference. *)
Lemma result_local e :
  LeftGame.closedby e = "local" ->
  LeftGame.result e =
  match LeftGame.next e with
  | Some _ =>
      getitem LeftGame.local_not_last_results (LeftGame.resultflag e)
  | None =>
      if (LeftGame.resultflag e =? 0x07) || (LeftGame.resultflag e =? 0x0B)
      then OK (if LeftGame.inc e then "won" else "lost")
      else getitem LeftGame.local_last_results (LeftGame.resultflag e)
  end.
Proof. unfold LeftGame.result. now intros ->. Qed.

(** C1: in the events [_parse_blocks] leaves, a [LeftGame] closed by
    "local" that is followed by another [LeftGame] resolves to the
    entry of its result code in the local-not-last table; one that is
    followed by none resolves, for the result codes 0x07 and 0x0B, to
    "won" when its [inc] flag is set and to "lost" otherwise, and for
    any other result code to the entry of the local-last table.  A
    code the table lacks is the [KeyError] of the lookup. *)
Theorem local_leave_result data i e :
  let evs := events (_parse_blocks _parse_actions data).2 in
  evs !! i = Some (ELeftGame e) ->
  LeftGame.closedby e = "local" ->
  ((exists j, (i < j)%nat /\ left_at evs j) ->
   LeftGame.result e =
   getitem LeftGame.local_not_last_results (LeftGame.resultflag e)) /\
  ((forall j, (i < j)%nat -> ~ left_at evs j) ->
   LeftGame.result e =
   if (LeftGame.resultflag e =? 0x07) || (LeftGame.resultflag e =? 0x0B)
   then OK (if LeftGame.inc e then "won" else "lost")
   else getitem LeftGame.local_last_results (LeftGame.resultflag e)).
Proof.
  intros evs He Hcb.
  destruct (parse_blocks_ok data) as [[_ Hn _] _].
  specialize (Hn i e He). rewrite (result_local e Hcb).
  destruct (LeftGame.next e) as [j|].
  - split; [reflexivity|].
    intros Hnone. destruct Hn as (Hij & Hj & _). now destruct (Hnone j).
  - split; [|reflexivity].
    intros (j & Hij & Hj). now destruct (Hn j).
Qed.

(** C9: a [LeftGame] decoded while [_lastleft] is [None] has [inc]
    false whatever its sequence flag is, and so the first [LeftGame] of
    the events [_parse_blocks] leaves has [inc] false. *)
Theorem first_leave_not_consecutive :
  (forall record self offset self',
     _lastleft self = None ->
     _parse_leave_game record self = (OK offset, self') ->
     exists e, events self' = events self ++ [ELeftGame e] /\
               LeftGame.unknownflag e = b2i (slice record 10 14) /\
               LeftGame.inc e = false) /\
  (forall data i e,
     let evs := events (_parse_blocks _parse_actions data).2 in
     evs !! i = Some (ELeftGame e) ->
     (forall k, (k < i)%nat -> ~ left_at evs k) ->
     LeftGame.inc e = false).
Proof.
  split.
  - intros record self offset self' Hl H. unfold _parse_leave_game in H.
    apply lift_inv in H as [(pid & _ & H)|(_ & [(x & _ & [=])|(_ & [=])])].
    rewrite Hl in H. cbn in H. injection H as _ <-.
    eexists. cbn. rewrite Hl. repeat split.
  - intros data i e evs He Hfirst.
    destruct (parse_blocks_ok data) as [[_ _ Hf] _]. now apply (Hf i).
Qed.

(** C10: the events [_parse_blocks] leaves carry timestamps that do not
    decrease along the sequence, none above the running clock, which
    starts at 0 and moves only by the unsigned 16-bit delta of a time
    slot. *)
Theorem event_times_nondecreasing data i j ei ej :
  let self := (_parse_blocks _parse_actions data).2 in
  (i <= j)%nat ->
  events self !! i = Some ei -> events self !! j = Some ej ->
  0 <= time ei /\ time ei <= time ej /\ time ej <= _clock self.
Proof.
  intros self Hij Hi Hj.
  destruct (parse_blocks_ok data) as [_ [Hs Hc H0]].
  repeat split.
  - apply Hc. eapply list_elem_of_lookup_2; eauto.
  - now apply (Hs i j).
  - apply Hc. eapply list_elem_of_lookup_2; eauto.
Qed.

Lemma record_done_events c c' :
  record_done _parse_actions c c' ->
  parse_events _parse_actions c.1 c.2 =
  parse_events _parse_actions c'.1 c'.2.
Proof.
  intros (blockid & parser & offset & Hb & Hnz & Hp & Hr & Hd).
  rewrite parse_events_unfold, Hb. cbn [lift].
  apply Z.eqb_neq in Hnz. rewrite Hnz.
  unfold getitem. rewrite Hp. cbn [lift]. rewrite Hr. now rewrite Hd.
Qed.

(** C5: once some records have been completed, a nonzero tag byte the
    dispatch table has no entry for makes the loop raise the
    [KeyError] of the table lookup, and the events are then exactly
    those of the completed records: nothing is appended for the
    record of the unknown tag.  The same holds of [_parse_blocks],
    whose loop starts after the startup record. *)
Theorem unknown_block_fails data0 self0 data self tag :
  rtc (record_done _parse_actions) (data0, self0) (data, self) ->
  byte_at data 0 = OK tag -> tag <> 0 ->
  get (_parsers _parse_actions) tag = None ->
  parse_events _parse_actions data0 self0 = (Raise (KeyError tag), self) /\
  (forall stream su offset,
     _parse_startup stream = OK (su, offset) ->
     slice_from stream offset = data0 -> self0 = mkState [] 0 None ->
     _parse_blocks _parse_actions stream = (Raise (KeyError tag), self)).
Proof.
  intros Hsteps Hb Hnz Hp.
  assert (parse_events _parse_actions data0 self0
          = (Raise (KeyError tag), self)) as Hev.
  { change data0 with (data0, self0).1. change self0 with (data0, self0).2 at 2.
    remember (data0, self0) as c eqn:Ec. remember (data, self) as c' eqn:Ec'.
    clear Ec. induction Hsteps as [c|c c1 c' Hstep _ IH].
    - subst c. cbn [fst snd]. rewrite parse_events_unfold, Hb. cbn [lift].
      apply Z.eqb_neq in Hnz. rewrite Hnz.
      unfold getitem. now rewrite Hp.
    - rewrite (record_done_events _ _ Hstep). now apply IH. }
  split; [assumption|].
  intros stream su offset Hsu <- ->. unfold _parse_blocks.
  now rewrite Hsu, Hev.
Qed.

End ReaderProperties.

(** ** The statements on the sample replay *)

Lemma sample_parse :
  events (_parse_blocks skip_actions sample_data).2 = sample_decoded.
Proof. vm_compute. reflexivity. Qed.

(** Without [_parse_actions] the first time slot that carries an action
    ends the run, before any event. *)
Example sample_parse_as_it_stands :
  (_parse_blocks missing_actions sample_data).1 = Raise AttributeError /\
  events (_parse_blocks missing_actions sample_data).2 = [].
Proof. split; vm_compute; reflexivity. Qed.

Lemma local_leave_result_witness :
  LeftGame.result sample_leave_1 = OK "lost" /\
  LeftGame.result sample_leave_2 = OK "won".
Proof.
  split.
  - refine (proj1 (local_leave_result skip_actions sample_data 1%nat
                     sample_leave_1 _ _) _).
    + vm_compute. reflexivity.
    + reflexivity.
    + exists 2%nat. split; [lia|]. exists sample_leave_2.
      vm_compute. reflexivity.
  - refine (proj2 (local_leave_result skip_actions sample_data 2%nat
                     sample_leave_2 _ _) _).
    + vm_compute. reflexivity.
    + reflexivity.
    + intros j Hj [e He]. rewrite sample_parse in He.
      do 3 (destruct j as [|j]; [lia|]).
      destruct j as [|j]; cbn in He; discriminate.
Defined.

Lemma first_leave_not_consecutive_witness :
  LeftGame.inc sample_leave_1 = false.
Proof.
  refine (proj2 (first_leave_not_consecutive skip_actions) sample_data 1%nat
            sample_leave_1 _ _).
  - vm_compute. reflexivity.
  - intros k Hk [e He]. rewrite sample_parse in He.
    destruct k as [|k]; [discriminate|lia].
Defined.

Lemma event_times_nondecreasing_witness :
  0 <= 100 /\ 100 <= 150 /\ 150 <= 150.
Proof.
  refine (event_times_nondecreasing skip_actions sample_data 1%nat 3%nat
            (ELeftGame sample_leave_1)
            (ECountdown (Countdown.mk 150 "running" 30)) _ _ _).
  - lia.
  - vm_compute. reflexivity.
  - vm_compute. reflexivity.
Defined.

Lemma unknown_block_fails_witness :
  parse_events skip_actions
    [x2f; x00; x00; x00; x00; x05; x00; x00; x00; xff; x00]
    (mkState [] 0 None)
  = (Raise (KeyError 0xFF),
     mkState [ECountdown (Countdown.mk 0 "running" 5)] 0 None).
Proof.
  refine (proj1 (unknown_block_fails skip_actions _ _ [xff; x00] _ 0xFF
                   _ _ _ _)).
  - apply rtc_once. exists 0x2F, _parse_countdown, 9.
    repeat split. lia.
  - reflexivity.
  - lia.
  - reflexivity.
Defined.


(** ** Terminated strings *)

Lemma first_zero_nil k : ~ first_zero [] k.
Proof. intros [H _]. now rewrite lookup_nil in H. Qed.

Lemma first_zero_cons x r k :
  first_zero (x :: r) k <->
  (x = x00 /\ k = O) \/ (x <> x00 /\ exists k', k = S k' /\ first_zero r k').
Proof.
  split.
  - intros [Hk Hp]. destruct k as [|k'].
    + left. cbn in Hk. split; congruence.
    + right. split.
      * intros ->. now apply (Hp O); [lia|].
      * exists k'. split; [reflexivity|]. split; [exact Hk|].
        intros p Hlt. apply (Hp (S p)). lia.
  - intros [[-> ->]|(Hx & k' & -> & Hk & Hp)].
    + split; [reflexivity|]. intros p Hlt. lia.
    + split; [exact Hk|]. intros [|p] Hlt; cbn; [congruence|].
      apply Hp. lia.
Qed.

Lemma find_null_first_zero b k : first_zero b k -> find_null b = Z.of_nat k.
Proof.
  revert k. induction b as [|x r IH]; intros k Hk.
  - now apply first_zero_nil in Hk.
  - apply first_zero_cons in Hk as [[-> ->]|(Hx & k' & -> & Hk)];
      [reflexivity|].
    cbn [find_null]. destruct (b2z x =? 0) eqn:E.
    + apply Z.eqb_eq, b2z_zero in E. contradiction.
    + rewrite (IH k' Hk). destruct (Z.of_nat k' <? 0) eqn:E'; lia.
Qed.

(** C7, as the code has it: on a byte string whose first zero byte is at
    index [k], [nulltermstr] decodes the [k] bytes before it as UTF-8
    and returns the text with the length [k], the terminator not
    counted (every caller adds 1 for it); it raises
    [UnicodeDecodeError] when those bytes are not well-formed UTF-8. *)
Theorem nulltermstr_first_zero b k :
  first_zero b k ->
  nulltermstr b = (s <- decode (take k b); OK (s, Z.of_nat k)) /\
  (utf8_valid (take k b) = true ->
   nulltermstr b = OK (string_of_list_byte (take k b), Z.of_nat k)) /\
  (utf8_valid (take k b) = false ->
   nulltermstr b = Raise UnicodeDecodeError).
Proof.
  intros Hk. unfold nulltermstr.
  rewrite (find_null_first_zero b k Hk), slice_to_nonneg, Nat2Z.id by lia.
  split; [reflexivity|]. unfold decode. now split; intros ->.
Qed.

Lemma nulltermstr_first_zero_witness :
  nulltermstr [x68; x69; x00; x21] = OK ("hi", 2).
Proof.
  refine (proj1 (proj2 (nulltermstr_first_zero [x68; x69; x00; x21] 2 _)) _).
  - split; [reflexivity|]. intros [|[|p]] Hp; cbn; [discriminate..|lia].
  - reflexivity.
Defined.

(** The length returned for "a" followed by its terminator is 1, the
    index of the zero byte, not 2. *)
Lemma nulltermstr_length_counterexample :
  first_zero [x61; x00] 1 /\
  nulltermstr [x61; x00] = OK ("a", 1) /\
  nulltermstr [x61; x00] <> OK ("a", 1 + 1).
Proof.
  repeat split; try discriminate.
  intros [|p] Hp; cbn; [discriminate|lia].
Qed.

(** ** The settings string *)

Lemma land_bit (m i : Z) :
  0 <= i -> (Z.land m (Z.shiftl 1 i) =? 0) = negb (Z.testbit m i).
Proof.
  intros Hi. rewrite Z.shiftl_1_l.
  destruct (Z.testbit m i) eqn:E; cbn.
  - apply Z.eqb_neq. intros H.
    apply (f_equal (fun z => Z.testbit z i)) in H.
    rewrite Z.land_spec, E, Z.pow2_bits_true, Z.bits_0 in H by assumption.
    discriminate.
  - apply Z.eqb_eq, Z.bits_inj'. intros n Hn.
    rewrite Z.land_spec, Z.pow2_bits_eqb, Z.bits_0 by assumption.
    destruct (Z.eqb_spec i n) as [->|]; [now rewrite E|apply andb_false_r].
Qed.

Lemma mod8_succ (p : nat) :
  (p mod 8 = 0 -> S p mod 8 = 1 /\ S p - S p mod 8 = p)%nat /\
  (p mod 8 <> 0 -> S p mod 8 <> 0 ->
   S p - S p mod 8 = p - p mod 8)%nat.
Proof.
  pose proof (Nat.div_mod_eq p 8) as Hp.
  pose proof (Nat.mod_upper_bound p 8) as Hlt.
  pose proof (Nat.div_mod_eq (S p) 8) as Hs.
  pose proof (Nat.mod_upper_bound (S p) 8) as Hslt.
  split; intros; lia.
Qed.

Lemma omap_cons {A B} (f : A -> option B) (x : A) (l : list A) :
  omap f (x :: l) =
  match f x with
  | Some y => y :: omap f l
  | None => omap f l
  end.
Proof. reflexivity. Qed.

(** The loop of [blizdecomp] from position [pos] on, where [rest] is what
    is left of [b] and [mask] the mask of the current run. *)
Lemma blizdecomp_loop_spec (b : bytes) rest :
  forall pos mask d j,
  drop pos b = rest ->
  ((pos mod 8 <> 0)%nat -> mask = Some (mask_of b pos)) ->
  first_zero rest j ->
  blizdecomp_loop rest (Z.of_nat pos) mask d =
  OK (d ++ omap (emitted b) (seq pos j), Z.of_nat (pos + j)).
Proof.
  induction rest as [|x rest IH]; intros pos mask d j Hdrop Hmask Hj.
  - now apply first_zero_nil in Hj.
  - assert (b !! pos = Some x) as Hx.
    { rewrite <- (Nat.add_0_r pos), <- lookup_drop, Hdrop. reflexivity. }
    assert (drop (S pos) b = rest) as Hdrop'.
    { replace (S pos) with (pos + 1)%nat by lia.
      rewrite <- drop_drop, Hdrop. reflexivity. }
    apply first_zero_cons in Hj as [[-> ->]|(Hnz & j' & -> & Hj)].
    + cbn. now rewrite app_nil_r, Nat.add_0_r.
    + cbn [blizdecomp_loop].
      destruct (b2z x =? 0) eqn:E;
        [apply Z.eqb_eq, b2z_zero in E; contradiction|].
      replace (Z.of_nat pos + 1) with (Z.of_nat (S pos)) by lia.
      replace (Z.of_nat pos mod 8) with (Z.of_nat (pos mod 8))
        by (rewrite Nat2Z.inj_mod; reflexivity).
      replace (pos + S j')%nat with (S pos + j')%nat by lia.
      change (seq pos (S j')) with (pos :: seq (S pos) j').
      rewrite omap_cons. unfold emitted at 1. rewrite Hx.
      destruct (mod8_succ pos) as [H0 H1].
      destruct (Nat.eqb_spec (pos mod 8) 0) as [Hm|Hm].
      * rewrite Hm. cbn [Z.of_nat Z.eqb].
        apply IH; [assumption| |assumption].
        intros _. destruct (H0 Hm) as [_ Hs].
        unfold mask_of. now rewrite Hs, Hx.
      * replace (Z.of_nat (pos mod 8) =? 0) with false by lia.
        rewrite (Hmask Hm), land_bit by lia.
        assert ((S pos mod 8 <> 0)%nat -> Some (mask_of b pos)
                = Some (mask_of b (S pos))) as Hnext.
        { intros Hs. unfold mask_of. now rewrite (H1 Hm Hs). }
        destruct (Z.testbit (mask_of b pos) (Z.of_nat (pos mod 8))); cbn [negb];
          rewrite (IH (S pos) _ _ j' Hdrop' Hnext Hj), <- app_assoc;
          reflexivity.
Qed.

Lemma bytes_of_ints_ok (d : list Z) :
  Forall (fun v => 0 <= v < 256) d ->
  exists d', bytes_of_ints d = OK d' /\ map b2z d' = d.
Proof.
  induction 1 as [|v d Hv _ (d' & Hd & Hm)]; [now exists []|].
  cbn [bytes_of_ints].
  replace ((0 <=? v) && (v <? 256)) with true by lia.
  destruct (Byte.of_N (Z.to_N v)) as [c|] eqn:Hc.
  - exists (c :: d'). rewrite Hd. split; [reflexivity|].
    cbn. rewrite Hm. f_equal. unfold b2z.
    apply Byte.to_of_N in Hc. rewrite Hc. lia.
  - apply Byte.of_N_None_iff in Hc. lia.
Qed.

Lemma decoded_range (b : bytes) (k : nat) :
  first_zero b k -> Forall (fun v => 0 <= v < 256) (decoded b k).
Proof.
  intros [_ Hnz]. unfold decoded. apply Forall_forall. intros v Hv.
  apply list_elem_of_omap in Hv as (p & Hp & Hv).
  apply elem_of_seq in Hp. unfold emitted in Hv.
  destruct (p mod 8 =? 0)%nat; [discriminate|].
  destruct (b !! p) as [x|] eqn:Hx; [|discriminate].
  assert (b2z x <> 0) as Hne.
  { intros ->%b2z_zero. apply (Hnz p); [lia|assumption]. }
  pose proof (b2z_range x).
  destruct (Z.testbit _ _); injection Hv as <-; lia.
Qed.

(** C2, as the code has it: on a byte string whose first zero byte is at
    index [k], [blizdecomp] returns [k] and the bytes emitted by the
    positions before [k]: a mask byte (positions 0, 8, 16, ...) emits
    nothing, another byte is emitted unchanged when bit [p mod 8] of the
    mask of its run is 1 and minus 1 when it is 0.  The first zero byte
    ends the decoding wherever it stands, so a zero mask ends it too:
    [0x00, 0x69, 0x66, 0x6D, 0x6D, 0x70, 0x00] decodes to the empty text
    with length 0, and it is under the mask 0x01 that the same bytes
    decode to "hello" with length 6. *)
Theorem settings_string_decoding :
  (forall b k,
     first_zero b k ->
     exists d, blizdecomp b = OK (d, Z.of_nat k) /\
               map b2z d = decoded b k) /\
  blizdecode [x01; x69; x66; x6d; x6d; x70; x00] = OK ("hello", 6) /\
  blizdecode [x00; x69; x66; x6d; x6d; x70; x00] = OK ("", 0).
Proof.
  split; [|split; reflexivity].
  intros b k Hk. unfold blizdecomp.
  change 0 with (Z.of_nat O) at 1.
  rewrite (blizdecomp_loop_spec b b O None [] k); [|reflexivity|tauto|assumption].
  cbn [bind app Nat.add].
  destruct (bytes_of_ints_ok _ (decoded_range b k Hk)) as (d & Hd & Hm).
  exists d. unfold decoded in *. now rewrite Hd.
Qed.

Lemma settings_string_decoding_witness :
  exists d, blizdecomp [x01; x69; x66; x6d; x6d; x70; x00] = OK (d, 6) /\
            map b2z d = [0x68; 0x65; 0x6C; 0x6C; 0x6F].
Proof.
  refine (proj1 settings_string_decoding
            [x01; x69; x66; x6d; x6d; x70; x00] 6%nat _).
  split; [reflexivity|].
  intros p Hp. do 6 (destruct p as [|p]; [discriminate|]). lia.
Defined.

(** Under the zero mask the decoding stops at position 0. *)
Lemma blizdecode_zero_mask_counterexample :
  blizdecode [x00; x69; x66; x6d; x6d; x70; x00] = OK ("", 0) /\
  blizdecode [x00; x69; x66; x6d; x6d; x70; x00] <> OK ("hello", 6).
Proof. split; [reflexivity|discriminate]. Qed.

(** ** The slot-info record *)

Lemma quot_between (a n : Z) :
  0 < n -> (7 <= Z.quot a n <= 9 <-> 7 * n <= a < 10 * n).
Proof.
  intros Hn. pose proof (Z.quot_rem' a n) as E.
  destruct (Z.le_gt_cases 0 a) as [Ha|Ha].
  - pose proof (Z.rem_bound_pos a n Ha Hn). split; intros Hq.
    + assert (7 * n <= n * Z.quot a n <= 9 * n) by nia. lia.
    + split.
      * destruct (Z.le_gt_cases 7 (Z.quot a n)); [assumption|].
        assert (n * Z.quot a n <= 6 * n) by nia. lia.
      * destruct (Z.le_gt_cases (Z.quot a n) 9); [assumption|].
        assert (10 * n <= n * Z.quot a n) by nia. lia.
  - pose proof (Z.rem_bound_abs a n ltac:(lia)).
    pose proof (Z.rem_nonpos a n ltac:(lia) ltac:(lia)).
    split; intros Hq; exfalso; [|lia].
    assert (7 * n <= n * Z.quot a n) by nia. lia.
Qed.

(** C3, as the code has it: the size of a slot record is the quotient
    (sectionByteCount - 7) / slotRecordCount truncated to an integer; the
    record is refused, by the assertion, exactly when that integer lies
    outside [7, 9], that is unless 7 n <= sectionByteCount - 7 < 10 n,
    and by the division when the count is 0.  A quotient that is not
    integral is truncated, not refused.  A byte count of 23 with 2
    records gives the size 8. *)
Theorem slot_record_size data offset nrecs :
  byte_at data offset = OK 0x19 ->
  byte_at data (offset + 3) = OK nrecs ->
  let nstartbytes := b2i (slice data (offset + 1) (offset + 3)) in
  let recsize := Z.quot (nstartbytes - 7) nrecs in
  (nrecs = 0 -> parse_slot_info data offset = Raise ZeroDivisionError) /\
  (nrecs <> 0 -> ~ (7 * nrecs <= nstartbytes - 7 < 10 * nrecs) ->
   parse_slot_info data offset = Raise AssertionError) /\
  (nrecs <> 0 -> 7 * nrecs <= nstartbytes - 7 < 10 * nrecs ->
   7 <= recsize <= 9 /\
   parse_slot_info data offset =
   (recs <- slot_records_from
              (slice data (offset + 4) (offset + 4 + recsize * nrecs))
              recsize 0 (Z.to_nat nrecs);
    OK (recs, offset + 4 + recsize * nrecs))) /\
  recsize_of 23 2 = OK 8.
Proof.
  intros Htag Hn nstartbytes recsize.
  assert (0 <= nrecs) as Hpos.
  { unfold byte_at in Hn. destruct (index data (offset + 3)); [|discriminate..].
    injection Hn as <-. apply b2z_range. }
  unfold parse_slot_info, recsize_of. rewrite Htag. cbn [bind assert Z.eqb].
  replace (offset + 1 + WORD) with (offset + 3) by (unfold WORD; lia).
  rewrite Hn. cbn [bind].
  replace (offset + 3 + 1) with (offset + 4) by lia.
  fold nstartbytes.
  replace (nstartbytes - DWORD - 3) with (nstartbytes - 7) by (unfold DWORD; lia).
  fold recsize.
  split; [|split; [|split; [|reflexivity]]].
  - intros ->. reflexivity.
  - intros Hnz Hout. apply Z.eqb_neq in Hnz as E. rewrite E.
    rewrite <- (quot_between (nstartbytes - 7) nrecs) in Hout by lia.
    fold recsize in Hout.
    replace ((7 <=? recsize) && (recsize <=? 9)) with false by lia.
    reflexivity.
  - intros Hnz Hin. apply Z.eqb_neq in Hnz as E. rewrite E.
    rewrite <- (quot_between (nstartbytes - 7) nrecs) in Hin by lia.
    fold recsize in Hin. split; [assumption|].
    replace ((7 <=? recsize) && (recsize <=? 9)) with true by lia.
    reflexivity.
Qed.

Lemma slot_record_size_witness :
  exists recs, parse_slot_info sample_startup 65 = OK (recs, 105) /\
               length recs = 4%nat.
Proof.
  destruct (slot_record_size sample_startup 65 4 eq_refl eq_refl)
    as (_ & _ & H & _).
  destruct H as [_ E];
    [lia|vm_compute; split; [intros [=]|reflexivity]|].
  rewrite E. vm_compute. eexists. split; reflexivity.
Defined.

(** A section byte count of 24 with 2 records: the quotient 17 / 2 is not
    integral, and the startup record is read, with two records of size
    8. *)
Lemma slot_record_size_counterexample :
  (24 - 7) mod 2 <> 0 /\
  byte_at odd_startup 65 = OK 0x19 /\
  b2i (slice odd_startup 66 68) = 24 /\
  byte_at odd_startup 68 = OK 2 /\
  exists su, _parse_startup odd_startup = OK (su, 91) /\
             map SlotRecord.size (slot_records su) = [8; 8].
Proof.
  repeat split; try discriminate.
  vm_compute. eexists. split; reflexivity.
Qed.

(** ** Chat records *)

Lemma substring_full (s : string) : substring 0 (String.length s) s = s.
Proof. induction s as [|a s IH]; [reflexivity|]. cbn. now rewrite IH. Qed.

Lemma int_of_str_of_int (k : Z) : int_of_str (str_of_int k) = OK k.
Proof.
  unfold int_of_str, str_of_int. rewrite NilZero.isi.
  - now rewrite DecimalZ.of_to.
  - destruct k; cbn; [discriminate| |discriminate].
    intros [= H]. now apply DecimalPos.Unsigned.to_uint_nonnil in H.
  - destruct k; cbn; [discriminate..|].
    intros [= H]. now apply DecimalPos.Unsigned.to_uint_nonnil in H.
Qed.

Lemma strmode_pid_player (s : string) :
  strmode_pid ("player" ++ s) = Some (int_of_str s).
Proof.
  unfold strmode_pid, from6. cbn. rewrite Nat.sub_0_r, substring_full.
  now destruct s.
Qed.

Lemma chat_mode_cases (m : Z) :
  (m = 0 /\ chat_mode m = "all") \/
  (m = 1 /\ chat_mode m = "allies") \/
  (m = 2 /\ chat_mode m = "observers") \/
  (get CHAT_MODES m = None /\
   chat_mode m = ("player" ++ str_of_int (m - 3))%string).
Proof.
  unfold chat_mode, CHAT_MODES. cbn [get].
  destruct (Z.eqb_spec 0 m) as [<-|]; [tauto|].
  destruct (Z.eqb_spec 1 m) as [<-|]; [tauto|].
  destruct (Z.eqb_spec 2 m) as [<-|]; tauto.
Qed.

(** C4: a chat record whose flag byte is 0x10 has the mode "startup" and
    its message starts right after the flag, at offset 5, so no mode code
    is read whatever the next bytes are; under any other flag the four
    bytes at offset 5 are the mode code [m], the message starts at offset
    9, and the mode is the entry of [m] in the table (all, allies,
    observers) or, for a code the table lacks, the text "player"
    followed by [m - 3] in decimal, which [strmode] reads back as the
    player id [m - 3]; the code 5 gives player 2. *)
Theorem chat_mode_resolution data self player_id flags :
  byte_at data 1 = OK player_id ->
  byte_at data 4 = OK flags ->
  let m := b2i (slice data 5 9) in
  (flags = 0x10 ->
   _parse_chat data self = chat_outcome data self player_id "startup" 5) /\
  (flags <> 0x10 ->
   _parse_chat data self = chat_outcome data self player_id (chat_mode m) 9 /\
   (forall mode, get CHAT_MODES m = Some mode -> chat_mode m = mode) /\
   (get CHAT_MODES m = None ->
    chat_mode m = ("player" ++ str_of_int (m - 3))%string /\
    strmode_pid (chat_mode m) = Some (OK (m - 3)))) /\
  (chat_mode 5 = "player2" /\ strmode_pid "player2" = Some (OK 2)).
Proof.
  intros Hp Hf m.
  assert (forall mode off,
            lift (nulltermstr (slice_from data off))
              (fun '(msg, _) self =>
                 (OK (b2i (slice data 2 (2 + WORD)) + 4),
                  append (EChat (Chat.mk (_clock self) player_id mode msg))
                    self)) self
            = chat_outcome data self player_id mode off) as Hout.
  { intros mode off. unfold lift, chat_outcome.
    now destruct (nulltermstr _) as [[msg i]| |]. }
  split; [|split; [|split; reflexivity]].
  - intros ->. unfold _parse_chat. rewrite Hp. cbn [lift].
    change (2 + WORD) with 4. rewrite Hf. cbn [lift Z.eqb Pos.eqb].
    apply (Hout "startup" 5).
  - intros Hne. split; [|split].
    + unfold _parse_chat. rewrite Hp. cbn [lift].
      change (2 + WORD) with 4. rewrite Hf. cbn [lift].
      apply Z.eqb_neq in Hne. rewrite Hne.
      change (4 + 1 + DWORD) with 9. change (4 + 1) with 5. fold m.
      unfold chat_mode. destruct (get CHAT_MODES m); apply Hout.
    + intros mode Hm. unfold chat_mode. now rewrite Hm.
    + intros Hm. unfold chat_mode. rewrite Hm. split; [reflexivity|].
      now rewrite strmode_pid_player, int_of_str_of_int.
Qed.

Lemma chat_mode_resolution_witness :
  _parse_chat
    [x20; x01; x08; x00; x20; x05; x00; x00; x00; x68; x69; x00]
    (mkState [] 0 None)
  = (OK 12, mkState [EChat (Chat.mk 0 1 "player2" "hi")] 0 None) /\
  _parse_chat
    [x20; x01; x08; x00; x10; x41; x00; x00; x00; x68; x69; x00]
    (mkState [] 0 None)
  = (OK 12, mkState [EChat (Chat.mk 0 1 "startup" "A")] 0 None).
Proof.
  split.
  - refine (proj1 (proj1 (proj2 (chat_mode_resolution
              [x20; x01; x08; x00; x20; x05; x00; x00; x00; x68; x69; x00]
              (mkState [] 0 None) 1 0x20 eq_refl eq_refl)) _)).
    discriminate.
  - exact (proj1 (chat_mode_resolution
              [x20; x01; x08; x00; x10; x41; x00; x00; x00; x68; x69; x00]
              (mkState [] 0 None) 1 0x10 eq_refl eq_refl) eq_refl).
Defined.

(** ** Player lookups *)

Lemma first_with_id_Some ps pid p :
  first_with_id ps pid = Some p -> p ∈ ps /\ Player.id p = pid.
Proof.
  induction ps as [|q ps IH]; cbn; [discriminate|].
  destruct (Z.eqb_spec (Player.id q) pid) as [E|_].
  - intros [= <-]. split; [left|assumption].
  - intros H. destruct (IH H). split; [now right|assumption].
Qed.

Lemma first_with_id_None ps pid :
  first_with_id ps pid = None <-> forall p, p ∈ ps -> Player.id p <> pid.
Proof.
  induction ps as [|q ps IH]; cbn.
  - split; [|reflexivity]. intros _ p Hp. now apply not_elem_of_nil in Hp.
  - destruct (Z.eqb_spec (Player.id q) pid) as [E|E].
    + split; [discriminate|]. intros H. exfalso. apply (H q); [left|assumption].
    + rewrite IH. split.
      * intros H p [->|Hp]%elem_of_cons; auto.
      * intros H p Hp. apply H. now right.
Qed.

(** The direct hit on [players[pid]] and the search agree: a player
    with the id, when there is one. *)
Lemma player_found (f : File) (pid : Z) p :
  0 <= pid ->
  p ∈ players (startup f) -> Player.id p = pid ->
  exists q, q ∈ players (startup f) /\ Player.id q = pid /\
            player f pid = OK (inl q).
Proof.
  intros Hpid Hp Hid. unfold player.
  set (ps := players (startup f)) in *.
  assert (exists q, q ∈ ps /\ Player.id q = pid /\
                    first_with_id ps pid = Some q) as (q' & Hq' & Hid' & Hf).
  { destruct (first_with_id ps pid) as [q'|] eqn:Hf.
    - apply first_with_id_Some in Hf as [? ?]. now exists q'.
    - rewrite first_with_id_None in Hf. now destruct (Hf p). }
  destruct (pid <? len ps) eqn:E; cbn [bind].
  - rewrite index_nonneg by assumption.
    destruct (ps !! Z.to_nat pid) as [q|] eqn:Hq;
      [|apply lookup_ge_None in Hq; unfold len in E; lia].
    cbn [bind]. destruct (Z.eqb_spec (Player.id q) pid) as [Eq|Eq].
    + exists q. apply list_elem_of_lookup_2 in Hq. now repeat split.
    + exists q'. rewrite Hf. now repeat split.
  - exists q'. rewrite Hf. now repeat split.
Qed.

(** Without a player of that id, the id is a position in the slot
    records. *)
Lemma player_fallback (f : File) (pid : Z) :
  0 <= pid ->
  (forall p, p ∈ players (startup f) -> Player.id p <> pid) ->
  player f pid =
  match slot_records (startup f) !! Z.to_nat pid with
  | Some r => OK (inr r)
  | None => Raise IndexError
  end.
Proof.
  intros Hpid Hno. unfold player.
  set (ps := players (startup f)) in *.
  assert ((if pid <? len ps
           then bind (index ps pid)
                  (fun p => OK (if Player.id p =? pid then Some p else None))
           else OK None) = OK None) as ->.
  { destruct (pid <? len ps) eqn:E; [|reflexivity].
    rewrite index_nonneg by assumption.
    destruct (ps !! Z.to_nat pid) as [p|] eqn:Hp; cbn.
    - apply list_elem_of_lookup_2 in Hp. apply Hno in Hp.
      apply Z.eqb_neq in Hp. now rewrite Hp.
    - apply lookup_ge_None in Hp. unfold len in E. lia. }
  cbn [bind]. apply first_with_id_None in Hno. rewrite Hno.
  rewrite index_nonneg by assumption.
  now destruct (slot_records (startup f) !! Z.to_nat pid).
Qed.

(** C8, as the code has it: for an id that is not negative,
    [player_name] is the name of a player with that id when the player
    list has one; when it has none, the id is used as a position in the
    list of slot records: [player] is the slot record at that position,
    whatever player id that record carries, and the name is "observer";
    and [player] raises [IndexError] when the list has no such
    position. *)
Theorem player_lookup (f : File) (pid : Z) :
  0 <= pid ->
  let ps := players (startup f) in
  let recs := slot_records (startup f) in
  ((exists p, p ∈ ps /\ Player.id p = pid) ->
   exists p, p ∈ ps /\ Player.id p = pid /\
             player f pid = OK (inl p) /\
             player_name f pid = OK (Player.name p)) /\
  ((forall p, p ∈ ps -> Player.id p <> pid) ->
   forall r, recs !! Z.to_nat pid = Some r ->
   player f pid = OK (inr r) /\ player_name f pid = OK "observer") /\
  ((forall p, p ∈ ps -> Player.id p <> pid) ->
   recs !! Z.to_nat pid = None ->
   player f pid = Raise IndexError /\ player_name f pid = Raise IndexError).
Proof.
  intros Hpid ps recs. split; [|split].
  - intros (p & Hp & Hid).
    destruct (player_found f pid p Hpid Hp Hid) as (q & Hq & Hqid & E).
    exists q. unfold player_name. rewrite E. now repeat split.
  - intros Hno r Hr. unfold player_name.
    rewrite (player_fallback f pid Hpid Hno). fold recs. now rewrite Hr.
  - intros Hno Hr. unfold player_name.
    rewrite (player_fallback f pid Hpid Hno). fold recs. now rewrite Hr.
Qed.

(** ** The block stream *)

Section Blocks.

Variable _parse_actions : Z -> bytes -> option exn.
Variable zlib_decompress : bytes -> option bytes.

Lemma read_blocks_bad n : forall f data block,
  block ∈ block_stream n f ->
  bad_block zlib_decompress block ->
  read_blocks_loop zlib_decompress n f data = Raise zlib_error.
Proof.
  induction n as [|n IH]; intros f data block Hin Hbad.
  - now apply not_elem_of_nil in Hin.
  - revert Hin. cbn [read_blocks_loop block_stream].
    destruct (read WORD f) as [b1 f1].
    destruct (read WORD f1) as [b2 f2].
    destruct (read (b2i b1) (seek (loc f2 + DWORD) f2)) as [raw f3].
    intros [->|Hin]%elem_of_cons.
    + destruct Hbad as [Hz|(dat & Hz & Hl)]; cbn in *; rewrite Hz;
        [reflexivity|].
      apply Z.eqb_neq in Hl. now rewrite Hl.
    + destruct (zlib_decompress raw) as [dat|]; [|reflexivity].
      destruct (negb _); [reflexivity|]. now apply (IH f3 _ block).
Qed.

Lemma read_blocks_good n : forall f data payloads,
  Forall2 (good_block zlib_decompress) (block_stream n f) payloads ->
  exists f', read_blocks_loop zlib_decompress n f data
             = OK (data ++ concat payloads, f').
Proof.
  induction n as [|n IH]; intros f data payloads Hall.
  - apply Forall2_nil_inv_l in Hall as ->. exists f. cbn.
    now rewrite app_nil_r.
  - revert Hall. cbn [read_blocks_loop block_stream].
    destruct (read WORD f) as [b1 f1].
    destruct (read WORD f1) as [b2 f2].
    destruct (read (b2i b1) (seek (loc f2 + DWORD) f2)) as [raw f3].
    intros (dat & rest & [Hz Hl] & Hall & ->)%Forall2_cons_inv_l.
    cbn in Hz, Hl. rewrite Hz. apply Z.eqb_eq in Hl. rewrite Hl. cbn [negb].
    destruct (IH f3 (data ++ dat) rest Hall) as [f' ->].
    exists f'. cbn. now rewrite app_assoc.
Qed.

(** C6: a block whose payload does not decompress, or decompresses to
    a length other than the one its prefix declares, makes
    [_read_blocks] raise [zlib.error]; when every one of the [nblocks]
    blocks decompresses to its declared length, the payloads,
    concatenated in block order, are the buffer [_parse_blocks] is
    called on, which reads the startup record from it. *)
Theorem block_stream_decoding (h : Header) (f : Handle) :
  let blocks :=
    block_stream (Z.to_nat (nblocks h)) (seek (header_size h) f) in
  (forall block,
     block ∈ blocks -> bad_block zlib_decompress block ->
     _read_blocks _parse_actions zlib_decompress h f
     = (Raise zlib_error, None)) /\
  (forall payloads,
     Forall2 (good_block zlib_decompress) blocks payloads ->
     _read_blocks _parse_actions zlib_decompress h f
     = ((_parse_blocks _parse_actions (concat payloads)).1,
        Some (_parse_blocks _parse_actions (concat payloads)).2) /\
     (forall e, _parse_startup (concat payloads) = Raise e ->
        (_parse_blocks _parse_actions (concat payloads)).1 = Raise e)).
Proof.
  intros blocks. split.
  - intros block Hin Hbad. unfold _read_blocks.
    now rewrite (read_blocks_bad _ _ [] block Hin Hbad).
  - intros payloads Hall. split.
    + unfold _read_blocks.
      destruct (read_blocks_good _ _ [] payloads Hall) as [f' ->].
      cbn [app]. now destruct (_parse_blocks _ _).
    + intros e He. unfold _parse_blocks. now rewrite He.
Qed.

End Blocks.

Lemma block_stream_decoding_witness :
  exists f, File_init skip_actions stored sample_file = OK f /\
            events (state f) = sample_decoded.
Proof.
  assert (_read_header (mkHandle sample_file 0)
          = OK (mkHeader 0x44 251 1 175 1 (Some "W3XP") 26 6059 [x00; x80]
                  false true 150 0, mkHandle sample_file 0x44)) as Hh
    by (vm_compute; reflexivity).
  unfold File_init. rewrite Hh. cbn [bind].
  destruct (block_stream_decoding skip_actions stored
              (mkHeader 0x44 251 1 175 1 (Some "W3XP") 26 6059 [x00; x80]
                 false true 150 0) (mkHandle sample_file 0x44)) as [_ H].
  destruct (H [sample_data]) as [-> _].
  - vm_compute. repeat constructor.
  - vm_compute. eexists. split; reflexivity.
Defined.

(** ** The lookups on the sample replay *)

(** The sample has the players 1 and 2 and four slot records, of the
    players 1, 2, 0 and 0.  No player and no slot record has the id 3,
    and yet [player 3] is not an error: it is the slot record at
    position 3. *)
Lemma player_lookup_counterexample :
  exists f, File_init skip_actions stored sample_file = OK f /\
    map Player.id (players (startup f)) = [1; 2] /\
    map SlotRecord.player_id (slot_records (startup f)) = [1; 2; 0; 0] /\
    exists r, player f 3 = OK (inr r) /\
              SlotRecord.player_id r = 0 /\
              player_name f 3 = OK "observer".
Proof.
  eexists. split; [vm_compute; reflexivity|].
  repeat split. eexists. repeat split.
Qed.

Lemma player_lookup_witness :
  exists f, File_init skip_actions stored sample_file = OK f /\
    player_name f 3 = OK "observer" /\
    player f 4 = Raise IndexError.
Proof.
  eexists. split; [vm_compute; reflexivity|].
  match goal with
  | |- player_name ?f _ = _ /\ _ =>
      destruct (player_lookup f 3 ltac:(lia)) as (_ & H3 & _);
      destruct (player_lookup f 4 ltac:(lia)) as (_ & _ & H4)
  end.
  split.
  - eapply H3; [|reflexivity].
    intros p Hp. cbn in Hp.
    repeat (apply elem_of_cons in Hp as [->|Hp]; [discriminate|]).
    now apply not_elem_of_nil in Hp.
  - apply H4; [|reflexivity].
    intros p Hp. cbn in Hp.
    repeat (apply elem_of_cons in Hp as [->|Hp]; [discriminate|]).
    now apply not_elem_of_nil in Hp.
Defined.

(** ** Every run returns or raises *)

Lemma decode_fuel (b : bytes) : decode b <> OutOfFuel.
Proof. unfold decode. destruct (utf8_valid b); discriminate. Qed.

Lemma getitem_fuel {V} (d : dict V) (k : Z) : getitem d k <> OutOfFuel.
Proof. unfold getitem. destruct (get d k); discriminate. Qed.

Lemma assert_fuel (c : bool) : assert c <> OutOfFuel.
Proof. destruct c; discriminate. Qed.

Lemma bitfield_fuel (b : Z) (idx : bitidx) : bitfield b idx <> OutOfFuel.
Proof. destruct idx; cbn; [apply index_fuel|discriminate]. Qed.

#[local] Hint Resolve index_fuel byte_at_fuel nulltermstr_fuel decode_fuel
  getitem_fuel assert_fuel bitfield_fuel : nofuel.

Lemma bytes_of_ints_fuel (d : list Z) : bytes_of_ints d <> OutOfFuel.
Proof.
  induction d as [|x d IH]; cbn [bytes_of_ints]; repeat bind_fuel.
Qed.

Lemma blizdecomp_loop_fuel (rest : bytes) :
  forall pos mask d, blizdecomp_loop rest pos mask d <> OutOfFuel.
Proof.
  induction rest as [|x rest IH]; intros pos mask d; cbn [blizdecomp_loop];
    repeat bind_fuel; apply IH.
Qed.

#[local] Hint Resolve bytes_of_ints_fuel blizdecomp_loop_fuel : nofuel.

Lemma blizdecomp_fuel (b : bytes) : blizdecomp b <> OutOfFuel.
Proof. unfold blizdecomp. repeat bind_fuel. Qed.

Lemma player_from_raw_fuel (data : bytes) :
  Player.from_raw data <> OutOfFuel.
Proof. unfold Player.from_raw. repeat bind_fuel. Qed.

Lemma slot_from_raw_fuel (data : bytes) :
  SlotRecord.from_raw data <> OutOfFuel.
Proof.
  unfold SlotRecord.from_raw. repeat bind_fuel.
Qed.

#[local] Hint Resolve blizdecomp_fuel player_from_raw_fuel
  slot_from_raw_fuel : nofuel.

Lemma recsize_of_fuel (nstartbytes nrecs : Z) :
  recsize_of nstartbytes nrecs <> OutOfFuel.
Proof. unfold recsize_of. repeat bind_fuel. Qed.

Lemma slot_records_from_fuel rawrecs recsize count :
  forall n, slot_records_from rawrecs recsize n count <> OutOfFuel.
Proof.
  induction count as [|count IH]; intros n; cbn [slot_records_from];
    repeat bind_fuel.
Qed.

#[local] Hint Resolve recsize_of_fuel slot_records_from_fuel : nofuel.

Lemma parse_slot_info_fuel (data : bytes) (offset : Z) :
  parse_slot_info data offset <> OutOfFuel.
Proof. unfold parse_slot_info. repeat bind_fuel. Qed.

#[local] Hint Resolve parse_slot_info_fuel : nofuel.

Lemma find_null_ge (b : bytes) : -1 <= find_null b.
Proof.
  induction b as [|x b IH]; cbn [find_null]; [lia|].
  destruct (b2z x =? 0); [lia|]. destruct (find_null b <? 0); lia.
Qed.

Lemma nulltermstr_ge (b : bytes) s i : nulltermstr b = OK (s, i) -> -1 <= i.
Proof.
  unfold nulltermstr. destruct (decode _); cbn [bind]; intros [= _ <-].
  apply find_null_ge.
Qed.

Lemma blizdecomp_loop_ge (rest : bytes) :
  forall pos mask d d' p,
  blizdecomp_loop rest pos mask d = OK (d', p) -> pos <= p.
Proof.
  induction rest as [|x rest IH]; intros pos mask d d' p;
    cbn [blizdecomp_loop]; [discriminate|].
  destruct (b2z x =? 0); [intros [= _ <-]; lia|].
  destruct (pos mod 8 =? 0); [intros H%IH; lia|].
  destruct mask as [m|]; [|discriminate].
  destruct (Z.land m _ =? 0); intros H%IH; lia.
Qed.

Lemma blizdecomp_ge (b : bytes) d i : blizdecomp b = OK (d, i) -> 0 <= i.
Proof.
  unfold blizdecomp.
  destruct (blizdecomp_loop b 0 None []) as [[d0 p]| |] eqn:E;
    cbn [bind]; [|discriminate..].
  apply blizdecomp_loop_ge in E.
  destruct (bytes_of_ints d0); cbn [bind]; intros [= _ <-]. assumption.
Qed.

Lemma player_size_pos (data : bytes) p :
  Player.from_raw data = OK p -> 1 <= Player.size p.
Proof.
  unfold Player.from_raw.
  destruct (byte_at data 0); cbn [bind]; [|discriminate..].
  destruct (byte_at data 1); cbn [bind]; [|discriminate..].
  destruct (nulltermstr _) as [[nm i]| |] eqn:E; cbn [bind]; [|discriminate..].
  apply nulltermstr_ge in E.
  destruct (byte_at data _); cbn [bind]; [|discriminate..].
  destruct (_ =? 1); [intros [= <-]; cbn; lia|].
  destruct (_ =? 8); [|discriminate].
  destruct (getitem _ _); cbn [bind]; intros [= <-]. cbn. lia.
Qed.

(** The loop over the player records ends: each turn moves the offset
    forward, and the byte at the offset is read before the turn. *)
Lemma players_loop_total (data : bytes) fuel :
  forall offset ps,
  0 <= offset -> (Z.to_nat (len data - offset) <= fuel)%nat ->
  players_loop fuel data offset ps <> OutOfFuel.
Proof.
  induction fuel as [|fuel IH]; intros offset ps Hoff Hfuel.
  - cbn [players_loop].
    destruct (byte_at data offset) as [tag| |] eqn:E; cbn [bind];
      [|discriminate|now apply byte_at_fuel in E].
    apply byte_at_OK_lt in E; [lia|assumption].
  - cbn [players_loop].
    destruct (byte_at data offset) as [tag| |] eqn:E; cbn [bind];
      [|discriminate|now apply byte_at_fuel in E].
    apply byte_at_OK_lt in E; [|assumption].
    destruct (tag =? 22); [|discriminate].
    destruct (Player.from_raw _) as [p| |] eqn:Ep; cbn [bind];
      [|discriminate|now apply player_from_raw_fuel in Ep].
    apply player_size_pos in Ep. apply IH; lia.
Qed.

Lemma bind_nofuel {A B} (r : Result A) (k : A -> Result B) :
  r <> OutOfFuel -> (forall a, r = OK a -> k a <> OutOfFuel) ->
  bind r k <> OutOfFuel.
Proof. destruct r; cbn [bind]; [eauto|discriminate|contradiction]. Qed.

Lemma parse_startup_total (data : bytes) : _parse_startup data <> OutOfFuel.
Proof.
  unfold _parse_startup.
  apply bind_nofuel; [apply player_from_raw_fuel|intros host Eh].
  apply player_size_pos in Eh.
  apply bind_nofuel; [apply nulltermstr_fuel|intros [gname i] En].
  apply nulltermstr_ge in En.
  apply bind_nofuel; [apply blizdecomp_fuel|intros [decomp i'] Eb].
  apply blizdecomp_ge in Eb. cbv beta iota zeta.
  repeat lazymatch goal with
         | |- bind (players_loop _ _ _ _) _ <> _ => fail
         | |- bind _ _ <> _ =>
             apply bind_nofuel;
             [auto with nofuel
             |first [intros [? ?] _ | intros ? _]; cbv beta iota zeta]
         end.
  apply bind_nofuel;
    [apply players_loop_total; unfold WORD, len; lia|intros [ps off] _].
  repeat (apply bind_nofuel;
          [auto with nofuel
          |first [intros [? ?] _ | intros ? _]; cbv beta iota zeta]).
  discriminate.
Qed.

Section Total.

Variable _parse_actions : Z -> bytes -> option exn.
Variable zlib_decompress : bytes -> option bytes.

(** [_parse_blocks] returns or raises on every buffer. *)
Lemma parse_blocks_total (data : bytes) :
  (_parse_blocks _parse_actions data).1 <> OutOfFuel.
Proof.
  unfold _parse_blocks. pose proof (parse_startup_total data) as Hs.
  destruct (_parse_startup data) as [[su offset]| |];
    [|discriminate|contradiction].
  pose proof (parse_events_total _parse_actions
                (slice_from data offset) (mkState [] 0 None)) as He.
  destruct (parse_events _ _ _) as [[[]| |] self]; cbn in *;
    [discriminate..|contradiction].
Qed.

Lemma read_blocks_loop_total n :
  forall f data, read_blocks_loop zlib_decompress n f data <> OutOfFuel.
Proof.
  induction n as [|n IH]; intros f data; cbn [read_blocks_loop];
    [discriminate|].
  destruct (read WORD f) as [b1 f1].
  destruct (read WORD f1) as [b2 f2].
  destruct (read _ _) as [raw f3].
  destruct (zlib_decompress raw); [|discriminate].
  destruct (negb _); [discriminate|apply IH].
Qed.

(** The constructor returns a replay or raises, on every file. *)
Lemma File_init_total (file : bytes) :
  File_init _parse_actions zlib_decompress file <> OutOfFuel.
Proof.
  unfold File_init.
  destruct (_read_header _) as [[h f]| |] eqn:Eh; cbn [bind];
    [|discriminate|].
  - unfold _read_blocks.
    pose proof (read_blocks_loop_total (Z.to_nat (nblocks h))
                  (seek (header_size h) f) []) as Hr.
    destruct (read_blocks_loop _ _ _ _) as [[data f']| |];
      [|discriminate|contradiction].
    pose proof (parse_blocks_total data) as Hp.
    destruct (_parse_blocks _ data) as [[su| |] self]; cbn in *;
      [discriminate..|contradiction].
  - exfalso. revert Eh. unfold _read_header.
    repeat first
      [ discriminate
      | progress cbn [bind]
      | match goal with
        | |- context [read ?n ?f] => destruct (read n f)
        | |- context [if ?c then _ else _] => destruct c
        | |- context [decode ?b] =>
            pose proof (decode_fuel b); destruct (decode b);
            [| |contradiction]
        end ].
Qed.

End Total.

(** * Further properties of the reader *)

(** ** Integers and bit fields *)



Lemma field_ok_all :
  forallb (fun b =>
    forallb (fun lo =>
      forallb (fun hi => negb (lo <=? hi) || field_ok b lo hi) (seqZ 0 9))
      (seqZ 0 9))
    (seqZ 0 256) = true.
Proof. vm_compute. reflexivity. Qed.

(** X2: for a byte [b] and bit positions 0 <= lo <= hi <= 8,
    [bitfield(b, slice(lo, hi))] is the integer held by the bits lo to
    hi - 1 of [b], that is (b >> lo) mod 2^(hi - lo); the whole range
    gives the byte back. *)
Theorem bitfield_slice (b lo hi : Z) :
  0 <= b < 256 -> 0 <= lo -> lo <= hi -> hi <= 8 ->
  bitfield b (Slice lo hi) = OK ((b / 2 ^ lo) mod 2 ^ (hi - lo)) /\
  bitfield b (Slice 0 8) = OK b.
Proof.
  intros Hb Hlo Hlh Hhi.
  assert (forall b lo hi, 0 <= b < 256 -> 0 <= lo -> lo <= hi -> hi <= 8 ->
            bitfield b (Slice lo hi) = OK ((b / 2 ^ lo) mod 2 ^ (hi - lo)))
    as Hall.
  { clear. intros b lo hi Hb Hlo Hlh Hhi.
    pose proof field_ok_all as H.
    rewrite forallb_forall in H.
    specialize (H b ltac:(apply list_elem_of_In, elem_of_seqZ; lia)).
    rewrite forallb_forall in H.
    specialize (H lo ltac:(apply list_elem_of_In, elem_of_seqZ; lia)).
    rewrite forallb_forall in H.
    specialize (H hi ltac:(apply list_elem_of_In, elem_of_seqZ; lia)).
    apply orb_true_iff in H as [H|H]; [lia|].
    unfold field_ok in H.
    destruct (bitfield b (Slice lo hi)); [|discriminate..].
    apply Z.eqb_eq in H. now subst. }
  split; [now apply Hall|].
  rewrite Hall by lia. f_equal.
  rewrite Z.pow_0_r, Z.div_1_r. apply Z.mod_small. cbn. lia.
Qed.

Lemma bitfield_slice_witness :
  bitfield 0x06 (Slice 1 3) = OK 3 /\ bitfield 0x06 (Slice 0 8) = OK 6.
Proof.
  exact (bitfield_slice 0x06 1 3 ltac:(lia) ltac:(lia) ltac:(lia) ltac:(lia)).
Defined.

(** ** Strings without a terminator *)

Lemma find_null_none (b : bytes) :
  (forall x, x ∈ b -> x <> x00) -> find_null b = -1.
Proof.
  induction b as [|x b IH]; intros Hnz; [reflexivity|].
  cbn [find_null]. destruct (b2z x =? 0) eqn:E.
  - apply Z.eqb_eq, b2z_zero in E. destruct (Hnz x); [left|assumption].
  - rewrite IH; [reflexivity|]. intros y Hy. apply Hnz. now right.
Qed.

(** X3: on a byte string that holds no zero byte [nulltermstr] does not
    raise for the missing terminator: [find] answers -1, so the text is
    the decoding of all the bytes but the last and the length returned
    is -1. *)
Theorem nulltermstr_unterminated (b : bytes) :
  (forall x, x ∈ b -> x <> x00) ->
  nulltermstr b = (s <- decode (take (length b - 1) b); OK (s, -1)).
Proof.
  intros Hnz. unfold nulltermstr. rewrite (find_null_none b Hnz).
  unfold slice_to, norm, len. cbn [Z.ltb Z.compare].
  replace (Z.to_nat (Z.max 0 (Z.of_nat (length b) + -1)))
    with (length b - 1)%nat by lia.
  reflexivity.
Qed.

Lemma nulltermstr_unterminated_witness :
  nulltermstr [x61; x62; x63] = OK ("ab", -1).
Proof.
  refine (eq_trans (nulltermstr_unterminated [x61; x62; x63] _) eq_refl).
  intros x Hx.
  repeat (apply elem_of_cons in Hx as [->|Hx]; [discriminate|]).
  now apply not_elem_of_nil in Hx.
Defined.

Lemma blizdecomp_loop_unterminated (rest : bytes) :
  forall pos mask d,
  (forall x, x ∈ rest -> x <> x00) ->
  (pos mod 8 <> 0 -> mask <> None) ->
  blizdecomp_loop rest pos mask d = Raise IndexError.
Proof.
  induction rest as [|x rest IH]; intros pos mask d Hnz Hmask;
    [reflexivity|].
  cbn [blizdecomp_loop].
  assert (forall y, y ∈ rest -> y <> x00) as Hrest
    by (intros y Hy; apply Hnz; now right).
  destruct (b2z x =? 0) eqn:E.
  - apply Z.eqb_eq, b2z_zero in E. destruct (Hnz x); [left|assumption].
  - destruct (pos mod 8 =? 0) eqn:Em.
    + apply IH; [assumption|discriminate].
    + apply Z.eqb_neq in Em. destruct mask as [m|]; [|now destruct (Hmask Em)].
      destruct (Z.land m _ =? 0); apply IH; (assumption || discriminate).
Qed.

(** X4: on a byte string that holds no zero byte [blizdecomp] runs past
    the end of its input and raises [IndexError], and so does
    [blizdecode]: nothing is returned for a settings string that is cut
    short. *)
Theorem blizdecomp_unterminated (b : bytes) :
  (forall x, x ∈ b -> x <> x00) ->
  blizdecomp b = Raise IndexError /\ blizdecode b = Raise IndexError.
Proof.
  intros Hnz. unfold blizdecode, blizdecomp.
  rewrite (blizdecomp_loop_unterminated b 0 None []); [now split|assumption|].
  intros H. now destruct H.
Qed.

Lemma blizdecomp_unterminated_witness :
  blizdecomp [x01; x69; x66] = Raise IndexError /\
  blizdecode [x01; x69; x66] = Raise IndexError.
Proof.
  apply blizdecomp_unterminated. intros x Hx.
  repeat (apply elem_of_cons in Hx as [->|Hx]; [discriminate|]).
  now apply not_elem_of_nil in Hx.
Defined.

(** ** The outcome of a leave *)

Lemma getitem_Raise {V} (d : dict V) (k : Z) (x : exn) :
  getitem d k = Raise x <-> x = KeyError k /\ get d k = None.
Proof.
  unfold getitem. destruct (get d k).
  - split; [discriminate|intros [_ [=]]].
  - split; [intros [= <-]; now split|intros [-> _]; reflexivity].
Qed.

Ltac table_none :=
  cbn [get];
  repeat match goal with
         | |- context [?k =? ?res] => destruct (Z.eqb_spec k res) as [<-|?]
         end;
  (split; [discriminate|intros H; exfalso; apply H; lia]) ||
  (split; [intros _ H; lia|reflexivity]).

Lemma remote_none (res : Z) :
  get LeftGame.remote_results res = None <-> ~ known_result res.
Proof. unfold LeftGame.remote_results, known_result. table_none. Qed.

Lemma local_not_last_none (res : Z) :
  get LeftGame.local_not_last_results res = None <-> ~ known_result res.
Proof. unfold LeftGame.local_not_last_results, known_result. table_none. Qed.

Lemma local_last_none (res : Z) :
  get LeftGame.local_last_results res = None <->
  ~ (res = 0x01 \/ res = 0x08 \/ res = 0x09).
Proof. unfold LeftGame.local_last_results. table_none. Qed.

(** X5: [LeftGame.result] raises nothing but the [KeyError] of its
    result code, and exactly when the closer is "remote" or "local" and
    the table in use lacks the code: any code outside 1, 7, 8, 9, 10, 11,
    and also the code 10 (a draw) for a local leave that is the last of
    the chain, whose table has no entry for it.  A leave with any other
    closer resolves to "left". *)
Theorem leave_result_errors (e : LeftGame.t) (x : exn) :
  (LeftGame.result e = Raise x <->
   x = KeyError (LeftGame.resultflag e) /\
   ((LeftGame.closedby e = "remote" /\
     ~ known_result (LeftGame.resultflag e)) \/
    (LeftGame.closedby e = "local" /\ LeftGame.next e <> None /\
     ~ known_result (LeftGame.resultflag e)) \/
    (LeftGame.closedby e = "local" /\ LeftGame.next e = None /\
     (~ known_result (LeftGame.resultflag e) \/
      LeftGame.resultflag e = 0x0A)))) /\
  (LeftGame.closedby e <> "remote" -> LeftGame.closedby e <> "local" ->
   LeftGame.result e = OK "left").
Proof.
  unfold LeftGame.result.
  destruct e as [t pid cb res inc uf nx]. cbn [LeftGame.closedby
    LeftGame.resultflag LeftGame.next LeftGame.inc].
  destruct (String.eqb_spec cb "remote") as [->|Hr].
  - split; [|congruence]. rewrite getitem_Raise, remote_none.
    split; [intros [-> H]; split; [reflexivity|now left]|].
    intros (-> & [[_ H]|[[[=] _]|[[=] _]]]). now split.
  - destruct (String.eqb_spec cb "local") as [->|Hl].
    + split; [|congruence]. destruct nx as [j|].
      * rewrite getitem_Raise, local_not_last_none.
        split; [intros [-> H]; split; [reflexivity|];
                right; left; now repeat split|].
        intros (-> & [[[=] _]|[(_ & _ & H)|(_ & [=] & _)]]). now split.
      * destruct ((res =? 7) || (res =? 11)) eqn:E.
        -- split; [discriminate|].
           intros (_ & [[[=] _]|[(_ & H & _)|(_ & _ & H)]]);
             [congruence|]. unfold known_result in H. lia.
        -- rewrite getitem_Raise, local_last_none. unfold known_result.
           split.
           ++ intros [-> H]. split; [reflexivity|].
              right. right. repeat split.
              destruct (Z.eq_dec res 10); [now right|left; lia].
           ++ intros (-> & [[[=] _]|[(_ & H & _)|(_ & _ & H)]]);
                [congruence|]. split; [reflexivity|lia].
    + split; [|reflexivity]. split; [discriminate|].
      intros (_ & [[? _]|[[? _]|[? _]]]); congruence.
Qed.

Lemma leave_result_errors_witness :
  LeftGame.result (LeftGame.mk 0 1 "local" 0x0A false 0 None)
  = Raise (KeyError 0x0A) /\
  LeftGame.result (LeftGame.mk 0 1 "gone" 0x0A false 0 None) = OK "left".
Proof.
  split.
  - apply (proj1 (leave_result_errors
                    (LeftGame.mk 0 1 "local" 0x0A false 0 None)
                    (KeyError 0x0A))).
    split; [reflexivity|]. right. right. repeat split. now right.
  - apply (proj2 (leave_result_errors
                    (LeftGame.mk 0 1 "gone" 0x0A false 0 None)
                    (KeyError 0))); discriminate.
Defined.

(** ** More invariants of the event loop *)

Lemma link_lookup_lt self e i :
  (i < length (events self))%nat ->
  events (link self e) !! i =
  if decide (_lastleft self = Some i)
  then set_next (Some (length (events self))) <$> events self !! i
  else events self !! i.
Proof.
  intros Hi. rewrite link_events.
  destruct (_lastleft self) as [l|].
  - destruct (decide (Some l = Some i)) as [[= ->]|Hne].
    + now rewrite list_lookup_alter_eq, lookup_app_l.
    + rewrite list_lookup_alter_ne by congruence. now apply lookup_app_l.
  - rewrite decide_False by discriminate. now apply lookup_app_l.
Qed.

Lemma set_next_left nx y p :
  set_next nx y = ELeftGame p ->
  exists q, y = ELeftGame q /\ p = LeftGame.set_next q nx.
Proof. destruct y as [c|q|c]; cbn; intros [= <-]. eauto. Qed.

Lemma effect_inc self self' :
  effect self self' -> chain_ok self -> inc_ok self -> inc_ok self'.
Proof.
  intros Heff Hok Hinc. destruct Heff as [|e He Ht|dt Hdt|e Ht Hn Hi].
  - assumption.
  - intros i p j e' Hp Hnx He'. cbn in Hp, He'.
    apply lookup_snoc_Some in Hp as [[_ Hp]|[_ ->]]; [|now destruct He].
    apply lookup_snoc_Some in He' as [[_ He']|[_ ->]]; [|now destruct He].
    now apply (Hinc i p j e').
  - assumption.
  - intros i p j e' Hp Hnx He'.
    assert (i < S (length (events self)))%nat as Hlt
      by (rewrite <- (link_length self e); now apply lookup_lt_Some in Hp).
    assert (j < S (length (events self)))%nat as Hlt'
      by (rewrite <- (link_length self e); now apply lookup_lt_Some in He').
    destruct (decide (i = length (events self))) as [->|Hne].
    { rewrite link_lookup_new in Hp by assumption.
      injection Hp as <-. congruence. }
    rewrite link_lookup_lt in Hp by lia.
    destruct (decide (_lastleft self = Some i)) as [El|El].
    + destruct (events self !! i) as [y|] eqn:Hy; [|discriminate].
      injection Hp as Hp. apply set_next_left in Hp as (q & -> & ->).
      cbn in Hnx. injection Hnx as <-.
      rewrite link_lookup_new in He' by assumption. injection He' as <-.
      rewrite Hi. unfold consecutive. now rewrite El, Hy.
    + pose proof (chain_next self Hok i p Hp) as Hc. rewrite Hnx in Hc.
      destruct Hc as (Hij & Hj%left_at_lt & _).
      rewrite link_lookup_lt in He' by lia.
      destruct (decide (_lastleft self = Some j)) as [Ej|Ej].
      * destruct (events self !! j) as [y|] eqn:Hy; [|discriminate].
        injection He' as He'. apply set_next_left in He' as (q & -> & ->).
        apply (Hinc i p j q Hp Hnx Hy).
      * now apply (Hinc i p j e').
Qed.

Lemma append_wf self e :
  event_wf e -> Forall event_wf (events self) ->
  Forall event_wf (events (append e self)).
Proof.
  intros He Hwf. cbn. apply Forall_app. split; [assumption|].
  now constructor.
Qed.

Lemma link_wf self e :
  event_wf (ELeftGame e) -> Forall event_wf (events self) ->
  Forall event_wf (events (link self e)).
Proof.
  intros He Hwf. apply Forall_lookup. intros i x (y & Hy & E)%link_lookup.
  assert (event_wf y) as Hwy.
  { apply lookup_snoc_Some in Hy as [[_ Hy]|[_ <-]]; [|assumption].
    now apply (Forall_lookup_1 _ _ _ _ Hwf Hy). }
  destruct E as [->| ->]; [assumption|]. now destruct y.
Qed.

Lemma byte_at_range (b : bytes) (i v : Z) :
  byte_at b i = OK v -> 0 <= v < 256.
Proof.
  unfold byte_at. destruct (index b i); cbn; intros [= <-].
  apply b2z_range.
Qed.

Lemma b2i_dword (data : bytes) (a : Z) :
  0 <= a -> 0 <= b2i (slice data a (a + DWORD)) < 2 ^ 32.
Proof.
  intros Ha. split; [apply b2i_nonneg|].
  pose proof (b2i_bound (slice data a (a + DWORD))) as H.
  assert (len (slice data a (a + DWORD)) <= 4) as Hl.
  { unfold DWORD. rewrite slice_nonneg by lia. unfold len.
    rewrite length_take. lia. }
  pose proof (len_nonneg (slice data a (a + DWORD))).
  assert (256 ^ len (slice data a (a + DWORD)) <= 256 ^ 4)
    by (apply Z.pow_le_mono_r; lia).
  change (2 ^ 32) with (256 ^ 4). lia.
Qed.

(** The record a leave decodes to. *)
Lemma parse_leave_game_fields data self o self' :
  _parse_leave_game data self = (OK o, self') ->
  exists pid inc,
    byte_at data 5 = OK pid /\
    self' = link self
              (LeftGame.mk (_clock self) pid (closer (b2i (slice data 1 5)))
                 (b2i (slice data 6 10)) inc (b2i (slice data 10 14)) None).
Proof.
  unfold _parse_leave_game. intros H.
  apply lift_inv in H as [(pid & Hpid & H)|(_ & [(x & _ & [=])|(_ & [=])])].
  apply lift_inv in H as [(inc & _ & H)|(_ & [(x & _ & [=])|(_ & [=])])].
  injection H as _ <-. exists pid, inc. split; [exact Hpid|reflexivity].
Qed.

(** The record a chat decodes to. *)
Lemma parse_chat_fields data self o self' :
  _parse_chat data self = (OK o, self') ->
  exists pid flags msg,
    byte_at data 1 = OK pid /\ byte_at data 4 = OK flags /\
    self' = append
              (EChat (Chat.mk (_clock self) pid
                        (if flags =? 0x10 then "startup"
                         else chat_mode (b2i (slice data 5 9))) msg)) self.
Proof.
  unfold _parse_chat. intros H.
  apply lift_inv in H as [(pid & Hpid & H)|(_ & [(x & _ & [=])|(_ & [=])])].
  apply lift_inv in H as [(fl & Hfl & H)|(_ & [(x & _ & [=])|(_ & [=])])].
  exists pid, fl. unfold chat_mode.
  change (2 + WORD + 1 + DWORD) with 9 in H. change (2 + WORD + 1) with 5 in H.
  destruct (fl =? 16).
  - apply lift_inv in H as [([msg i] & _ & H)|(_ & [(x & _ & [=])|(_ & [=])])].
    injection H as _ <-. now exists msg.
  - destruct (get CHAT_MODES (b2i (slice data 5 9)));
      apply lift_inv in H as [([msg i] & _ & H)|(_ & [(x & _ & [=])|(_ & [=])])];
      injection H as _ <-; now exists msg.
Qed.

Lemma chat_mode_wf (m : Z) :
  0 <= m ->
  chat_mode m ∈ ["startup"; "all"; "allies"; "observers"] \/
  exists k, 0 <= k /\ chat_mode m = ("player" ++ str_of_int k)%string.
Proof.
  intros Hm.
  destruct (chat_mode_cases m) as [[-> ->]|[[-> ->]|[[-> ->]|[Hn ->]]]].
  - left. set_solver.
  - left. set_solver.
  - left. set_solver.
  - right. exists (m - 3). split; [|reflexivity].
    unfold CHAT_MODES in Hn. cbn [get] in Hn.
    destruct (Z.eqb_spec 0 m); [discriminate|].
    destruct (Z.eqb_spec 1 m); [discriminate|].
    destruct (Z.eqb_spec 2 m); [discriminate|]. lia.
Qed.

Lemma set_next_twice nx nx' e :
  set_next nx (set_next nx' e) = set_next nx e.
Proof. now destruct e. Qed.

Lemma same_but_next_trans e1 e2 e3 :
  same_but_next e1 e2 -> same_but_next e2 e3 -> same_but_next e1 e3.
Proof.
  intros [->|[nx ->]] [->|[nx' ->]].
  - now left.
  - right. eauto.
  - right. eauto.
  - right. exists nx'. apply set_next_twice.
Qed.

Lemma effect_kept self self' i e :
  effect self self' -> events self !! i = Some e ->
  exists e', events self' !! i = Some e' /\ same_but_next e e'.
Proof.
  intros Heff He. destruct Heff as [|x Hx Ht|dt Hdt|x Ht Hn Hi].
  - exists e. split; [assumption|now left].
  - exists e. split; [now apply lookup_app_l_Some|now left].
  - exists e. split; [assumption|now left].
  - rewrite link_lookup_lt by (now apply lookup_lt_Some in He).
    rewrite He. destruct (decide _); eexists; (split; [reflexivity|]).
    + right. eauto.
    + now left.
Qed.

Section Loop.

Variable _parse_actions : Z -> bytes -> option exn.

(** What every decoder of the table keeps, the loop keeps. *)
Lemma events_loop_preserves (P : State -> Prop) :
  (forall k p data self r self',
     get (_parsers _parse_actions) k = Some p ->
     P self -> p data self = (r, self') -> P self') ->
  forall fuel data self r self',
  P self -> events_loop _parse_actions fuel data self = (r, self') ->
  P self'.
Proof.
  intros Hstep fuel. induction fuel as [|fuel IH]; intros data self r self' HP H.
  - change (lift (byte_at data 0) (fun blockid =>
              if blockid =? 0 then fun self => (OK tt, self)
              else fun self => (OutOfFuel, self)) self = (r, self')) in H.
    apply lift_inv in H as [(k & _ & H)|(-> & _)]; [|assumption].
    destruct (k =? 0); now injection H as _ <-.
  - rewrite events_loop_S in H.
    apply lift_inv in H as [(k & _ & H)|(-> & _)]; [|assumption].
    destruct (k =? 0); [now injection H as _ <-|].
    apply lift_inv in H as [(p & Hp%getitem_inv & H)|(-> & _)]; [|assumption].
    destruct (p data self) as [res self1] eqn:Hr.
    pose proof (Hstep _ _ _ _ _ _ Hp HP Hr) as HP1.
    destruct res; [eauto|now injection H as _ <-..].
Qed.

Lemma parse_blocks_preserves (P : State -> Prop) :
  (forall k p data self r self',
     get (_parsers _parse_actions) k = Some p ->
     P self -> p data self = (r, self') -> P self') ->
  P (mkState [] 0 None) ->
  forall data, P (_parse_blocks _parse_actions data).2.
Proof.
  intros Hstep H0 data. unfold _parse_blocks.
  destruct (_parse_startup data) as [[su offset]| |]; [|assumption..].
  destruct (parse_events _ _ _) as [r self] eqn:H. cbn.
  now apply (events_loop_preserves P Hstep _ _ _ _ _ H0 H).
Qed.

Lemma parse_blocks_inc data :
  chain_ok (_parse_blocks _parse_actions data).2 /\
  inc_ok (_parse_blocks _parse_actions data).2.
Proof.
  apply (parse_blocks_preserves (fun s => chain_ok s /\ inc_ok s)).
  - intros k p d self r self' Hp [Hc Hi] Hr.
    destruct (parser_effect _ _ _ _ _ _ _ Hp Hr) as (Heff & _).
    split; [now apply (effect_chain self)|now apply (effect_inc self)].
  - split; [apply initial_ok|].
    intros i p j e H. cbn in H. now rewrite lookup_nil in H.
Qed.

(** X6: in the events [_parse_blocks] leaves, a [LeftGame] has [inc]
    set exactly when its sequence flag is the sequence flag of the
    [LeftGame] before it plus one. *)
Theorem leave_consecutive data i j p e :
  let evs := events (_parse_blocks _parse_actions data).2 in
  evs !! i = Some (ELeftGame p) -> evs !! j = Some (ELeftGame e) ->
  (i < j)%nat -> (forall k, (i < k < j)%nat -> ~ left_at evs k) ->
  LeftGame.inc e = (LeftGame.unknownflag e =? LeftGame.unknownflag p + 1).
Proof.
  intros evs Hp He Hij Hbetween.
  destruct (parse_blocks_inc data) as [Hc Hi].
  pose proof (chain_next _ Hc i p Hp) as Hn.
  destruct (LeftGame.next p) as [j'|] eqn:Hnx.
  - destruct Hn as (Hij' & Hj' & Hnone).
    assert (j' = j) as ->.
    { destruct (Nat.lt_trichotomy j' j) as [?|[?|?]]; [|assumption|].
      - now destruct (Hbetween j').
      - destruct (Hnone j); [lia|now exists e]. }
    now apply (Hi i p j e).
  - destruct (Hn j Hij). now exists e.
Qed.

End Loop.

Lemma leave_consecutive_witness :
  LeftGame.inc sample_leave_2 = (6 =? 5 + 1).
Proof.
  refine (leave_consecutive skip_actions sample_data 1%nat 2%nat
            sample_leave_1 sample_leave_2 _ _ _ _).
  - vm_compute. reflexivity.
  - vm_compute. reflexivity.
  - lia.
  - intros k Hk. lia.
Defined.

Section Decoded.

Variable _parse_actions : Z -> bytes -> option exn.

Lemma parser_wf k p data self r self' :
  get (_parsers _parse_actions) k = Some p ->
  Forall event_wf (events self) -> p data self = (r, self') ->
  Forall event_wf (events self').
Proof.
  intros Hp Hwf H.
  apply parsers_cases in Hp as [->|[->|[->|[->|(c & Hc & ->)]]]].
  - destruct r as [o| |];
      [|apply parse_leave_game_effect in H as [(-> & _)|([=] & _)];
        assumption..].
    apply parse_leave_game_fields in H as (pid & inc & Hpid & ->).
    apply link_wf; [|assumption]. cbn.
    split; [now apply byte_at_range in Hpid|].
    split; [unfold closer; destruct (_ =? 1); [set_solver|];
            destruct (_ =? 12); set_solver|].
    split; [apply (b2i_dword data 6)|apply (b2i_dword data 10)]; lia.
  - apply parse_time_slot_effect in H as [(-> & _)|(_ & ->)]; assumption.
  - destruct r as [o| |];
      [|apply parse_chat_effect in H as [(-> & _)|(c & [=] & _)];
        assumption..].
    apply parse_chat_fields in H as (pid & fl & msg & Hpid & _ & ->).
    apply append_wf; [|assumption]. cbn.
    split; [now apply byte_at_range in Hpid|].
    destruct (fl =? 16); [left; set_solver|].
    apply chat_mode_wf, b2i_nonneg.
  - injection H as _ <-. apply append_wf; [|assumption]. cbn.
    split; [destruct (_ =? 0); set_solver|apply (b2i_dword data 5); lia].
  - now injection H as _ <-.
Qed.

(** X7: every event [_parse_blocks] leaves is well formed: player ids
    are bytes, result codes, sequence flags and seconds are unsigned
    32-bit integers, a closer is "remote", "local" or "unknown", a
    countdown mode is "running" or "over", and a chat mode is "startup",
    "all", "allies", "observers" or "player" followed by a decimal
    number that is not negative. *)
Theorem decoded_events_wf (data : bytes) :
  Forall event_wf (events (_parse_blocks _parse_actions data).2).
Proof.
  apply (parse_blocks_preserves _parse_actions
           (fun s => Forall event_wf (events s))).
  - intros k p d self r self'. apply parser_wf.
  - constructor.
Qed.


(** X9: the loop of [_parse_blocks] never removes, moves or rewrites an
    event: whatever the stream and however the run ends, an event that
    was at index [i] is still there, with the same timestamp, a chat or
    a countdown unchanged and a [LeftGame] changed at most in its [next]
    reference. *)
Theorem events_kept (data : bytes) (self : State) (i : nat) (e : Event) :
  events self !! i = Some e ->
  exists e', events (parse_events _parse_actions data self).2 !! i = Some e' /\
             same_but_next e e' /\ time e' = time e /\
             (not_left e -> e' = e).
Proof.
  intros He.
  assert (exists e', events (parse_events _parse_actions data self).2 !! i
                     = Some e' /\ same_but_next e e') as (e' & He' & Hs).
  { destruct (parse_events _ data self) as [r self'] eqn:H. cbn.
    refine (events_loop_preserves _parse_actions
              (fun s => exists e', events s !! i = Some e' /\
                                   same_but_next e e')
              _ _ _ _ _ _ _ H).
    - intros k p d s1 r1 s2 Hp (e1 & He1 & Hs1) Hr.
      destruct (parser_effect _ _ _ _ _ _ _ Hp Hr) as (Heff & _).
      destruct (effect_kept _ _ _ _ Heff He1) as (e2 & He2 & Hs2).
      exists e2. split; [assumption|].
      now apply (same_but_next_trans e e1 e2).
    - exists e. split; [assumption|now left]. }
  exists e'. split; [assumption|]. split; [assumption|].
  destruct Hs as [->|[nx ->]]; split; try reflexivity.
  - apply time_set_next.
  - now destruct e.
Qed.




End Decoded.


Lemma events_kept_witness :
  exists e', events (parse_events skip_actions
                       [x2f; x00; x00; x00; x00; x05; x00; x00; x00; x00]
                       (mkState [EChat (Chat.mk 0 1 "all" "hi")] 0 None)).2
             !! 0%nat = Some e' /\
             same_but_next (EChat (Chat.mk 0 1 "all" "hi")) e' /\
             time e' = 0 /\
             (not_left (EChat (Chat.mk 0 1 "all" "hi")) ->
              e' = EChat (Chat.mk 0 1 "all" "hi")).
Proof.
  apply (events_kept skip_actions
           [x2f; x00; x00; x00; x00; x05; x00; x00; x00; x00]
           (mkState [EChat (Chat.mk 0 1 "all" "hi")] 0 None) 0%nat).
  reflexivity.
Defined.


(** ** Whole records *)

Lemma slice_from_app {A} (a b : list A) : slice_from (a ++ b) (len a) = b.
Proof.
  rewrite slice_from_nonneg by apply len_nonneg.
  unfold len. rewrite Nat2Z.id. apply drop_app_length.
Qed.

Lemma slice_app_l {A} (a b : list A) (i j : Z) :
  0 <= i -> i <= j -> j <= len a -> slice (a ++ b) i j = slice a i j.
Proof.
  intros Hi Hij Hj. rewrite !slice_nonneg by lia. unfold len in Hj.
  rewrite drop_app_le by lia. rewrite take_app_le; [reflexivity|].
  rewrite length_drop. lia.
Qed.

Lemma slice_cons {A} (x : A) (l : list A) (i j : Z) :
  0 <= i -> i <= j -> slice (x :: l) (i + 1) (j + 1) = slice l i j.
Proof.
  intros Hi Hij. rewrite !slice_nonneg by lia.
  replace (Z.to_nat (i + 1)) with (S (Z.to_nat i)) by lia.
  replace (j + 1 - (i + 1)) with (j - i) by lia. reflexivity.
Qed.

Lemma slice_all {A} (l : list A) : slice l 0 (len l) = l.
Proof.
  rewrite slice_nonneg by (pose proof (len_nonneg l); lia).
  unfold len. rewrite Z.sub_0_r, Nat2Z.id. cbn. apply firstn_all.
Qed.

Lemma byte_at_cons (x : byte) (l : bytes) (i : Z) :
  0 <= i -> byte_at (x :: l) (i + 1) = byte_at l i.
Proof.
  intros Hi. unfold byte_at. rewrite !index_nonneg by lia.
  replace (Z.to_nat (i + 1)) with (S (Z.to_nat i)) by lia. reflexivity.
Qed.

Section Records.

Variable _parse_actions : Z -> bytes -> option exn.

(** A decoder that returns the size of the record at the head of the
    stream hands the rest of the stream to the next turn. *)
Lemma parse_events_record (record rest : bytes) self tag parser self' :
  byte_at record 0 = OK tag -> tag <> 0 ->
  get (_parsers _parse_actions) tag = Some parser ->
  parser (record ++ rest) self = (OK (len record), self') ->
  parse_events _parse_actions (record ++ rest) self =
  parse_events _parse_actions rest self'.
Proof.
  intros Ht Hnz Hp Hr. rewrite parse_events_unfold.
  assert (byte_at (record ++ rest) 0 = OK tag) as ->.
  { destruct record as [|x record]; [now rewrite byte_at_nil in Ht|].
    exact Ht. }
  cbn [lift]. apply Z.eqb_neq in Hnz. rewrite Hnz.
  unfold getitem. rewrite Hp. cbn [lift]. rewrite Hr.
  now rewrite slice_from_app.
Qed.

(** X11: a record of a kind the reader does not model (tags 0x1A, 0x1B,
    0x1C of 5 bytes, 0x22 of 6 bytes, 0x23 of 11 bytes) is passed over
    whole, whatever its body holds: the run on a stream that starts with
    such a record is the run on the rest of the stream, from the same
    state. *)
Theorem skipped_record_passed (tag : byte) (size : Z) (body rest : bytes)
    (self : State) :
  (tag, size) ∈ skipped_records -> len body = size - 1 ->
  parse_events _parse_actions (tag :: body ++ rest) self =
  parse_events _parse_actions rest self.
Proof.
  intros Hin Hlen.
  change (tag :: body ++ rest) with ((tag :: body) ++ rest).
  assert (len (tag :: body) = size) as Hsz
    by (unfold len in *; cbn [length]; lia).
  unfold skipped_records in Hin.
  repeat (apply elem_of_cons in Hin as [[= -> ->]|Hin];
          [eapply parse_events_record;
           [reflexivity|discriminate|reflexivity|now rewrite Hsz]|]).
  now apply not_elem_of_nil in Hin.
Qed.

(** X12: a countdown record (tag 0x2F, a 4-byte mode code and a 4-byte
    count of seconds) appends one [Countdown] stamped with the clock,
    with the mode "running" for the code 0 and "over" for any other,
    and the run goes on with the rest of the stream. *)
Theorem countdown_record (mode secs rest : bytes) (self : State) :
  len mode = 4 -> len secs = 4 ->
  parse_events _parse_actions (x2f :: mode ++ secs ++ rest) self =
  parse_events _parse_actions rest
    (append (ECountdown
               (Countdown.mk (_clock self)
                  (if b2i mode =? 0 then "running" else "over")
                  (b2i secs))) self).
Proof.
  intros Hm Hs.
  replace (x2f :: mode ++ secs ++ rest)
    with ((x2f :: mode ++ secs) ++ rest) by (cbn; now rewrite <- app_assoc).
  eapply parse_events_record;
    [reflexivity|discriminate|reflexivity|].
  unfold _parse_countdown.
  assert (len (x2f :: mode ++ secs) = 9) as ->.
  { unfold len in *. cbn [length]. rewrite length_app. lia. }
  change (1 + DWORD) with (4 + 1). change (4 + 1 + DWORD) with (8 + 1).
  cbn [app]. change 1 with (0 + 1) at 1. rewrite !slice_cons by lia.
  rewrite <- app_assoc.
  rewrite (slice_app_l mode) by lia. rewrite <- Hm at 1. rewrite slice_all.
  rewrite !slice_nonneg by lia.
  replace (Z.to_nat 4) with (length mode) by (unfold len in Hm; lia).
  rewrite drop_app_length.
  replace (Z.to_nat (8 - 4)) with (length secs) by (unfold len in Hs; lia).
  now rewrite take_app_length.
Qed.

End Records.

Lemma skipped_record_passed_witness :
  parse_events skip_actions
    [x22; x01; x02; x03; x04; x05; x00] (mkState [] 0 None)
  = parse_events skip_actions [x00] (mkState [] 0 None).
Proof.
  refine (skipped_record_passed skip_actions x22 6 [x01; x02; x03; x04; x05]
            [x00] (mkState [] 0 None) _ eq_refl).
  unfold skipped_records. set_solver.
Defined.

Lemma countdown_record_witness :
  parse_events skip_actions
    [x2f; x01; x00; x00; x00; x1e; x00; x00; x00; x00] (mkState [] 7 None)
  = (OK tt, mkState [ECountdown (Countdown.mk 7 "over" 30)] 7 None).
Proof.
  exact (countdown_record skip_actions [x01; x00; x00; x00]
           [x1e; x00; x00; x00] [x00] (mkState [] 7 None) eq_refl eq_refl).
Defined.

Lemma b2z_byte_of (z : Z) : 0 <= z < 256 -> b2z (byte_of z) = z.
Proof.
  intros Hz. unfold byte_of, b2z.
  destruct (Byte.of_N (Z.to_N z)) as [c|] eqn:E.
  - apply Byte.to_of_N in E. cbn. rewrite E. lia.
  - apply Byte.of_N_None_iff in E. lia.
Qed.

Lemma b2i_le16 (n : Z) : 0 <= n < 65536 -> b2i (le16 n) = n.
Proof.
  intros Hn. unfold le16. cbn [b2i].
  rewrite !b2z_byte_of.
  - pose proof (Z.div_mod n 256 ltac:(lia)). lia.
  - split; [apply Z.div_pos; lia|apply Z.div_lt_upper_bound; lia].
  - apply Z.mod_pos_bound. lia.
Qed.

Lemma slice_prefix {A} (a b : list A) : slice (a ++ b) 0 (len a) = a.
Proof.
  rewrite slice_app_l by (pose proof (len_nonneg a); lia). apply slice_all.
Qed.

Ltac list_eq :=
  repeat first [rewrite <- app_assoc | rewrite <- app_comm_cons
               | rewrite app_nil_l];
  reflexivity.

Section TimeSlots.

Variable _parse_actions : Z -> bytes -> option exn.

(** The loop of [_parse_time_slot] on a sequence of action sub-records:
    one call of [_parse_actions] for each, in order, up to the first
    that raises. *)
Lemma time_slot_loop_records (recs : list (byte * bytes)) :
  forall fuel,
  Forall (fun r => len r.2 < 65536) recs ->
  (length (concat (map action_record recs)) <= fuel)%nat ->
  time_slot_loop _parse_actions fuel (concat (map action_record recs)) =
  first_raise (map (fun r => _parse_actions (b2z r.1) r.2) recs).
Proof.
  induction recs as [|[pid payload] recs IH]; intros fuel Hall Hfuel.
  - destruct fuel; reflexivity.
  - apply Forall_cons in Hall as [Hlen Hall]. cbn [fst snd] in Hlen.
    cbn [map concat fst snd] in *.
    set (cmd := concat (map action_record recs)) in *.
    assert (action_record (pid, payload) ++ cmd
            = pid :: le16 (len payload) ++ payload ++ cmd) as Heq
      by (unfold action_record; cbn [fst snd app]; now rewrite <- app_assoc).
    rewrite Heq in *.
    destruct fuel as [|fuel]; [cbn in Hfuel; lia|].
    cbn [time_slot_loop].
    assert ((len (pid :: le16 (len payload) ++ payload ++ cmd) >? 0) = true)
      as -> by (apply Z.gtb_lt; unfold len; cbn [length]; lia).
    rewrite byte_at_0. cbn [bind].
    assert (slice (pid :: le16 (len payload) ++ payload ++ cmd) 1 (1 + WORD)
            = le16 (len payload)) as ->.
    { change 1 with (0 + 1) at 1. change (1 + WORD) with (2 + 1).
      rewrite slice_cons by lia. apply (slice_prefix (le16 (len payload))). }
    rewrite b2i_le16 by (pose proof (len_nonneg payload); lia).
    assert (slice (pid :: le16 (len payload) ++ payload ++ cmd) (1 + WORD)
              (len payload + 1 + WORD) = payload) as ->.
    { unfold le16. cbn [app]. pose proof (len_nonneg payload).
      replace (1 + WORD) with (0 + 1 + 1 + 1) by reflexivity.
      replace (len payload + 1 + WORD) with (len payload + 1 + 1 + 1)
        by (unfold WORD; lia).
      rewrite !slice_cons by lia. apply slice_prefix. }
    assert (slice_from (pid :: le16 (len payload) ++ payload ++ cmd)
              (len payload + 1 + WORD) = cmd) as ->.
    { replace (len payload + 1 + WORD)
        with (len (pid :: le16 (len payload) ++ payload))
        by (unfold len, le16, WORD; cbn [length app]; rewrite ?length_app;
            cbn [length]; lia).
      change (pid :: le16 (len payload) ++ payload ++ cmd)
        with ((pid :: le16 (len payload)) ++ payload ++ cmd).
      rewrite app_assoc. apply slice_from_app. }
    destruct (_parse_actions (b2z pid) payload) as [e|]; [reflexivity|].
    cbn [call bind first_raise]. apply IH; [assumption|].
    revert Hfuel. cbn [length]. rewrite !length_app. lia.
Qed.

(** X13: a time slot (tag 0x1E or 0x1F, a length, a clock delta and
    action sub-records that fill the declared length) calls
    [_parse_actions] once for each sub-record, in order, with its player
    id and its payload; if none of the calls raises, the clock is
    advanced by the delta, no event being added, and the run goes on
    with the rest of the stream; the first call that raises ends the run
    with the state as it was. *)
Theorem time_slot_record (tag : byte) (dt : Z) (recs : list (byte * bytes))
    (rest : bytes) (self : State) :
  tag = x1e \/ tag = x1f -> 0 <= dt < 65536 ->
  Forall (fun r => len r.2 < 65536) recs ->
  let cmd := concat (map action_record recs) in
  len cmd + 2 < 65536 ->
  parse_events _parse_actions
    (tag :: le16 (len cmd + 2) ++ le16 dt ++ cmd ++ rest) self =
  match first_raise (map (fun r => _parse_actions (b2z r.1) r.2) recs) with
  | OK _ =>
      parse_events _parse_actions rest
        (mkState (events self) (_clock self + dt) (_lastleft self))
  | Raise e => (Raise e, self)
  | OutOfFuel => (OutOfFuel, self)
  end.
Proof.
  intros Htag Hdt Hall cmd Hcmd. pose proof (len_nonneg cmd) as Hpos.
  rewrite parse_events_unfold, byte_at_0. cbn [lift].
  assert (getitem (_parsers _parse_actions) (b2z tag)
          = OK (_parse_time_slot _parse_actions)) as Hg
    by (destruct Htag as [-> | ->]; reflexivity).
  replace (b2z tag =? 0) with false by (destruct Htag as [-> | ->]; reflexivity).
  rewrite Hg. cbn [lift]. unfold _parse_time_slot.
  set (data := tag :: le16 (len cmd + 2) ++ le16 dt ++ cmd ++ rest).
  assert (slice data 1 (1 + WORD) = le16 (len cmd + 2)) as ->.
  { unfold data. change 1 with (0 + 1) at 1. change (1 + WORD) with (2 + 1).
    rewrite slice_cons by lia. apply (slice_prefix (le16 (len cmd + 2))). }
  rewrite b2i_le16 by lia.
  assert (slice data (1 + WORD) (1 + WORD + WORD) = le16 dt) as ->.
  { unfold data, le16. cbn [app].
    change (1 + WORD) with (0 + 1 + 1 + 1).
    change (0 + 1 + 1 + 1 + WORD) with (2 + 1 + 1 + 1).
    rewrite !slice_cons by lia.
    apply (slice_prefix [byte_of (dt mod 256); byte_of (dt / 256)]). }
  rewrite b2i_le16 by assumption.
  assert (slice data (1 + WORD + WORD) (len cmd + 2 + 3) = cmd) as ->.
  { unfold data, le16. cbn [app].
    change (1 + WORD + WORD) with (0 + 1 + 1 + 1 + 1 + 1).
    replace (len cmd + 2 + 3) with (len cmd + 1 + 1 + 1 + 1 + 1) by lia.
    rewrite !slice_cons by lia. apply slice_prefix. }
  pose proof (time_slot_loop_records recs (length cmd) Hall (le_n _))
    as Hloop.
  fold cmd in Hloop. rewrite Hloop. clear Hloop.
  destruct (first_raise _) as [[]|e|]; cbn [lift]; [|reflexivity..].
  f_equal. unfold data.
  replace (len cmd + 2 + 3)
    with (len (tag :: le16 (len cmd + 2) ++ le16 dt ++ cmd))
    by (unfold len, le16; cbn [length app]; rewrite ?length_app;
        cbn [length]; lia).
  replace (tag :: le16 (len cmd + 2) ++ le16 dt ++ cmd ++ rest)
    with ((tag :: le16 (len cmd + 2) ++ le16 dt ++ cmd) ++ rest)
    by list_eq.
  apply slice_from_app.
Qed.

(** X14: a leave record (tag 0x17, a 4-byte reason code, the player id,
    a 4-byte result code and a 4-byte sequence flag) appends one
    [LeftGame] stamped with the clock, whose closer is "remote" for the
    reason 1, "local" for the reason 12 and "unknown" for any other,
    and whose [inc] tells whether its sequence flag is the one of the
    last [LeftGame] plus one; that last [LeftGame] now refers to the new
    one, which becomes the last, and the run goes on with the rest of
    the stream. *)
Theorem leave_record (reason res flag rest : bytes) (pid : byte)
    (self : State) :
  chain_ok self -> len reason = 4 -> len res = 4 -> len flag = 4 ->
  parse_events _parse_actions
    (x17 :: reason ++ [pid] ++ res ++ flag ++ rest) self =
  parse_events _parse_actions rest
    (link self
       (LeftGame.mk (_clock self) (b2z pid) (closer (b2i reason)) (b2i res)
          (follows self (b2i flag)) (b2i flag) None)).
Proof.
  intros Hok Hr Hs Hf.
  replace (x17 :: reason ++ [pid] ++ res ++ flag ++ rest)
    with ((x17 :: reason ++ [pid] ++ res ++ flag) ++ rest)
    by list_eq.
  eapply parse_events_record; [reflexivity|discriminate|reflexivity|].
  assert (len (x17 :: reason ++ [pid] ++ res ++ flag) = 14) as ->.
  { unfold len in *. cbn [length]. rewrite !length_app. cbn [length]. lia. }
  unfold _parse_leave_game.
  set (data := (x17 :: reason ++ [pid] ++ res ++ flag) ++ rest).
  assert (data = x17 :: reason ++ pid :: res ++ flag ++ rest) as Hd
    by (unfold data; list_eq).
  assert (slice data 1 (1 + DWORD) = reason) as ->.
  { rewrite Hd. change 1 with (0 + 1) at 1. change (1 + DWORD) with (4 + 1).
    rewrite slice_cons by lia. rewrite <- Hr. apply slice_prefix. }
  assert (byte_at data (1 + DWORD) = OK (b2z pid)) as ->.
  { rewrite Hd. change (1 + DWORD) with (4 + 1). rewrite byte_at_cons by lia.
    unfold byte_at. rewrite index_nonneg by lia.
    replace (Z.to_nat 4) with (length reason) by (unfold len in Hr; lia).
    now rewrite list_lookup_middle. }
  cbn [lift].
  assert (forall a b, 0 <= a -> a <= b ->
            slice data (a + 6) (b + 6) = slice (res ++ flag ++ rest) a b)
    as Hsl.
  { intros a b Ha Hab. rewrite Hd.
    replace (a + 6) with (a + 5 + 1) by lia.
    replace (b + 6) with (b + 5 + 1) by lia.
    rewrite slice_cons by lia. rewrite !slice_nonneg by lia.
    replace (Z.to_nat (a + 5)) with (length (reason ++ [pid]) + Z.to_nat a)%nat
      by (rewrite length_app; unfold len in Hr; cbn [length]; lia).
    change (reason ++ pid :: res ++ flag ++ rest)
      with (reason ++ [pid] ++ res ++ flag ++ rest).
    rewrite (app_assoc reason), <- drop_drop, drop_app_length.
    f_equal. f_equal. lia. }
  change (1 + DWORD + 1) with (0 + 6).
  change (0 + 6 + DWORD) with (4 + 6).
  change (4 + 6 + DWORD) with (8 + 6).
  rewrite !Hsl by lia.
  assert (slice (res ++ flag ++ rest) 0 4 = res) as ->
    by (rewrite <- Hs; apply slice_prefix).
  assert (slice (res ++ flag ++ rest) 4 8 = flag) as ->.
  { rewrite slice_nonneg by lia.
    replace (Z.to_nat 4) with (length res) by (unfold len in Hs; lia).
    rewrite drop_app_length.
    replace (Z.to_nat (8 - 4)) with (length flag) by (unfold len in Hf; lia).
    apply take_app_length. }
  assert ((match _lastleft self with
           | Some l =>
               bind (lastleft_unknownflag self l)
                 (fun u => OK (b2i flag =? u + 1))
           | None => OK false
           end) = OK (follows self (b2i flag))) as ->.
  { unfold follows, lastleft_unknownflag.
    pose proof (chain_last self Hok) as Hl.
    destruct (_lastleft self) as [l|]; [|reflexivity].
    destruct Hl as [[p Hp] _]. now rewrite Hp. }
  reflexivity.
Qed.

End TimeSlots.

Lemma time_slot_record_witness :
  parse_events skip_actions
    [x1f; x06; x00; x64; x00; x01; x01; x00; x01; x00] (mkState [] 0 None)
  = (OK tt, mkState [] 100 None) /\
  parse_events missing_actions
    [x1f; x06; x00; x64; x00; x01; x01; x00; x01; x00] (mkState [] 0 None)
  = (Raise AttributeError, mkState [] 0 None).
Proof.
  split.
  - refine (eq_trans (time_slot_record skip_actions x1f 100 [(x01, [x01])]
                        [x00] (mkState [] 0 None) _ _ _ _) eq_refl).
    + now right.
    + lia.
    + repeat constructor.
    + reflexivity.
  - refine (eq_trans (time_slot_record missing_actions x1f 100
                        [(x01, [x01])] [x00] (mkState [] 0 None) _ _ _ _)
              eq_refl).
    + now right.
    + lia.
    + repeat constructor.
    + reflexivity.
Defined.

Lemma leave_record_witness :
  parse_events skip_actions
    [x17; x0c; x00; x00; x00; x02; x07; x00; x00; x00; x05; x00; x00; x00;
     x00] (mkState [] 40 None)
  = (OK tt,
     mkState [ELeftGame (LeftGame.mk 40 2 "local" 7 false 5 None)] 40
       (Some 0%nat)).
Proof.
  refine (eq_trans (leave_record skip_actions [x0c; x00; x00; x00]
                      [x07; x00; x00; x00] [x05; x00; x00; x00] [x00] x02
                      (mkState [] 40 None) _ eq_refl eq_refl eq_refl)
            eq_refl).
  split; cbn.
  - intros k [e He]. now rewrite lookup_nil in He.
  - intros i e He. now rewrite lookup_nil in He.
  - intros i e He. now rewrite lookup_nil in He.
Defined.

(** ** Player records *)

Lemma len_app {A} (a b : list A) : len (a ++ b) = len a + len b.
Proof. unfold len. rewrite length_app. lia. Qed.

Lemma len_cons {A} (x : A) (l : list A) : len (x :: l) = len l + 1.
Proof. unfold len. cbn [length]. lia. Qed.

Lemma slice_to_app {A} (a b : list A) : slice_to (a ++ b) (len a) = a.
Proof.
  rewrite slice_to_nonneg by apply len_nonneg.
  unfold len. rewrite Nat2Z.id. apply take_app_length.
Qed.

Lemma slice_mid {A} (a b c : list A) (i j : Z) :
  i = len a -> j = len a + len b -> slice (a ++ b ++ c) i j = b.
Proof.
  intros -> ->. pose proof (len_nonneg a). pose proof (len_nonneg b).
  rewrite slice_nonneg by lia. unfold len.
  rewrite Nat2Z.id, drop_app_length.
  replace (Z.to_nat _) with (length b) by lia. apply take_app_length.
Qed.

Lemma byte_at_app (a : bytes) (x : byte) (c : bytes) (i : Z) :
  i = len a -> byte_at (a ++ x :: c) i = OK (b2z x).
Proof.
  intros ->. unfold byte_at. rewrite index_nonneg by apply len_nonneg.
  unfold len. rewrite Nat2Z.id, list_lookup_middle by reflexivity.
  reflexivity.
Qed.

Lemma find_null_app (name rest : bytes) :
  (forall x, x ∈ name -> x <> x00) ->
  find_null (name ++ x00 :: rest) = len name.
Proof.
  intros Hn. induction name as [|x name IH]; [reflexivity|].
  cbn [app find_null].
  assert ((b2z x =? 0) = false) as ->.
  { apply Z.eqb_neq. rewrite b2z_zero. apply Hn. left. }
  rewrite IH by (intros y Hy; apply Hn; now right).
  pose proof (len_nonneg name).
  destruct (len name <? 0) eqn:E; [lia|]. rewrite len_cons. reflexivity.
Qed.

Lemma nulltermstr_app (name rest : bytes) :
  (forall x, x ∈ name -> x <> x00) ->
  nulltermstr (name ++ x00 :: rest) = (s <- decode name; OK (s, len name)).
Proof.
  intros Hn. unfold nulltermstr.
  now rewrite find_null_app, slice_to_app.
Qed.

(** X15: a player record is read field by field.  With a name that holds
    no zero byte and is well-formed UTF-8: a custom record (kind 1) has
    one more byte, which is passed over unread, and gives the race
    "none" and the runtime 0; a ladder record (kind 8) has a 4-byte
    runtime and a 4-byte race flag, and raises [KeyError] on a flag that
    is no race; any other kind raises [ValueError].  [raw] is the record
    and [size] its length, but for a custom record that ends the buffer
    before its last byte, whose [size] counts the byte that is not
    there. *)
Theorem player_record_fields (host pid : byte) (name rest : bytes) :
  (forall x, x ∈ name -> x <> x00) -> utf8_valid name = true ->
  let player race runtime raw size :=
    Player.mk (b2z pid) (string_of_list_byte name) race (b2z host =? 0)
      runtime raw size in
  (forall pad,
     let record := player_record host pid name x01 [pad] in
     Player.from_raw (record ++ rest) =
     OK (player "none" 0 record (len record))) /\
  (let record := player_record host pid name x01 [] in
   Player.from_raw record = OK (player "none" 0 record (len record + 1))) /\
  (forall rt rf, len rt = 4 -> len rf = 4 ->
     let record := player_record host pid name x08 (rt ++ rf) in
     Player.from_raw (record ++ rest) =
     (race <- getitem RACES (b2i rf);
      OK (player race (b2i rt) record (len record)))) /\
  (forall kind tail, kind <> x01 -> kind <> x08 ->
     Player.from_raw (player_record host pid name kind tail ++ rest) =
     Raise ValueError).
Proof.
  intros Hn Hv player.
  assert (forall kind tail,
    let data := player_record host pid name kind tail in
    Player.from_raw data =
    (let n := len name + 4 in
     if b2z kind =? 1 then
       OK (player "none" 0 (slice_to data (n + 1)) (n + 1))
     else if b2z kind =? 8 then
       rc <- getitem RACES (b2i (slice data (n + 4) (n + 4 + 4)));
       OK (player rc (b2i (slice data n (n + 4)))
             (slice_to data (n + 4 + 4)) (n + 4 + 4))
     else Raise ValueError)) as Hraw.
  { intros kind tail data. unfold Player.from_raw.
    change (byte_at data 0) with (OK (b2z host)).
    change (byte_at data 1) with (OK (b2z pid)). cbn [bind].
    assert (slice_from data 2 = name ++ x00 :: kind :: tail) as ->
      by now rewrite slice_from_nonneg.
    rewrite nulltermstr_app by assumption.
    unfold decode. rewrite Hv. cbn [bind].
    assert (byte_at data (2 + len name + 1) = OK (b2z kind)) as ->.
    { replace data with ((host :: pid :: name ++ [x00]) ++ kind :: tail)
        by (unfold data, player_record; list_eq).
      apply byte_at_app.
      rewrite !len_cons, len_app. change (len [x00]) with 1. lia. }
    cbn [bind].
    replace (2 + len name + 1 + 1) with (len name + 4) by lia.
    reflexivity. }
  assert (forall kind, kind <> x01 -> (b2z kind =? 1) = false) as H1.
  { intros kind Hk. apply Z.eqb_neq. intros E. apply Hk.
    apply (f_equal byte_of) in E. revert E.
    unfold byte_of, b2z. rewrite N2Z.id, Byte.of_to_N. now intros [=]. }
  assert (forall kind, kind <> x08 -> (b2z kind =? 8) = false) as H8.
  { intros kind Hk. apply Z.eqb_neq. intros E. apply Hk.
    apply (f_equal byte_of) in E. revert E.
    unfold byte_of, b2z. rewrite N2Z.id, Byte.of_to_N. now intros [=]. }
  assert (forall kind tail,
    len (player_record host pid name kind tail) = len name + 4 + len tail)
    as Hlen.
  { intros kind tail. unfold player_record.
    rewrite !len_app. change (len [host; pid]) with 2.
    change (len [x00; kind]) with 2. lia. }
  split; [|split; [|split]].
  - intros pad record.
    replace (record ++ rest)
      with (player_record host pid name x01 ([pad] ++ rest))
      by (unfold record, player_record; list_eq).
    rewrite Hraw. cbn [Z.eqb b2z Byte.to_N Z.of_N Pos.eqb].
    replace (player_record host pid name x01 ([pad] ++ rest))
      with (record ++ rest) by (unfold record, player_record; list_eq).
    replace (len name + 4 + 1) with (len record)
      by (unfold record; rewrite Hlen; reflexivity).
    now rewrite slice_to_app.
  - intros record. unfold record at 1. rewrite Hraw.
    cbn [Z.eqb b2z Byte.to_N Z.of_N Pos.eqb]. fold record.
    assert (len record = len name + 4) as Hr
      by (unfold record; rewrite Hlen; unfold len; cbn [length]; lia).
    rewrite Hr. do 3 f_equal.
    pose proof (len_nonneg name).
    rewrite slice_to_nonneg by lia. apply take_ge. unfold len in *. lia.
  - intros rt rf Hrt Hrf record.
    replace (record ++ rest)
      with (player_record host pid name x08 (rt ++ rf ++ rest))
      by (unfold record, player_record; list_eq).
    rewrite Hraw. cbn [Z.eqb b2z Byte.to_N Z.of_N Pos.eqb].
    set (pre := host :: pid :: name ++ [x00; x08]).
    assert (len pre = len name + 4) as Hpre.
    { unfold pre. rewrite !len_cons, len_app. change (len [x00; x08]) with 2.
      lia. }
    replace (player_record host pid name x08 (rt ++ rf ++ rest))
      with (pre ++ rt ++ rf ++ rest)
      by (unfold pre, player_record; list_eq).
    cbn zeta.
    rewrite (slice_mid pre rt (rf ++ rest) (len name + 4) (len name + 4 + 4))
      by lia.
    replace (pre ++ rt ++ rf ++ rest) with ((pre ++ rt) ++ rf ++ rest)
      by list_eq.
    rewrite (slice_mid (pre ++ rt) rf rest) by (rewrite len_app; lia).
    replace ((pre ++ rt) ++ rf ++ rest) with (record ++ rest)
      by (unfold record, pre, player_record; list_eq).
    replace (len name + 4 + 4 + 4) with (len record)
      by (unfold record; rewrite Hlen, len_app; lia).
    now rewrite slice_to_app.
  - intros kind tail Hk1 Hk8.
    replace (player_record host pid name kind tail ++ rest)
      with (player_record host pid name kind (tail ++ rest))
      by (unfold player_record; list_eq).
    rewrite Hraw. cbn zeta. now rewrite H1, H8.
Qed.

Lemma player_record_fields_witness :
  Player.from_raw
    ([x00; x02; x4a; x6f; x00; x08; x10; x27; x00; x00; x02; x00; x00; x00]
     ++ [x16])
  = OK (Player.mk 2 "Jo" "orc" true 10000
          [x00; x02; x4a; x6f; x00; x08; x10; x27; x00; x00; x02; x00; x00; x00]
          14).
Proof.
  refine (proj1 (proj2 (proj2
    (player_record_fields x00 x02 [x4a; x6f] [x16] _ eq_refl)))
    [x10; x27; x00; x00] [x02; x00; x00; x00] eq_refl eq_refl).
  intros x Hx.
  repeat (apply elem_of_cons in Hx as [->|Hx]; [discriminate|]).
  now apply not_elem_of_nil in Hx.
Defined.

(** ** The startup record *)

Lemma player_from_raw_inv (data : bytes) (p : Player.t) :
  Player.from_raw data = OK p -> player_ok p.
Proof.
  unfold Player.from_raw, player_ok. intros H.
  destruct (byte_at data 0); cbn [bind] in H; [|discriminate..].
  destruct (byte_at data 1) as [d1| |] eqn:E1; cbn [bind] in H;
    [|discriminate..].
  apply byte_at_range in E1.
  destruct (nulltermstr _) as [[nm i]| |] eqn:E; cbn [bind] in H;
    [|discriminate..].
  apply nulltermstr_ge in E.
  destruct (byte_at data _); cbn [bind] in H; [|discriminate..].
  destruct (_ =? 1); [injection H as <-; cbn; lia|].
  destruct (_ =? 8); [|discriminate].
  destruct (getitem _ _); cbn [bind] in H; [|discriminate..].
  injection H as <-. cbn. lia.
Qed.

Lemma players_loop_inv (data : bytes) (fuel : nat) :
  forall offset ps ps' off',
  players_loop fuel data offset ps = OK (ps', off') ->
  offset <= off' /\ exists more, ps' = ps ++ more /\ Forall player_ok more.
Proof.
  induction fuel as [|fuel IH]; intros offset ps ps' off';
    cbn [players_loop]; intros H.
  - destruct (byte_at data offset) as [tag| |]; cbn [bind] in H;
      [|discriminate..].
    destruct (tag =? 22); [discriminate|]. injection H as <- <-.
    split; [lia|]. exists []. now rewrite app_nil_r.
  - destruct (byte_at data offset) as [tag| |]; cbn [bind] in H;
      [|discriminate..].
    destruct (tag =? 22).
    + destruct (Player.from_raw _) as [p| |] eqn:Ep; cbn [bind] in H;
        [|discriminate..].
      apply player_from_raw_inv in Ep as Hp.
      apply IH in H as (Hoff & more & -> & Hmore).
      split; [destruct Hp; lia|].
      exists (p :: more). rewrite <- app_assoc. now split; [|constructor].
    + injection H as <- <-. split; [lia|]. exists []. now rewrite app_nil_r.
Qed.

Lemma bind_OK_inv {A B} (r : Result A) (k : A -> Result B) (b : B) :
  bind r k = OK b -> exists a, r = OK a /\ k a = OK b.
Proof. destruct r; cbn [bind]; [eauto|discriminate..]. Qed.

Lemma assert_OK_inv (c : bool) (u : unit) : assert c = OK u -> c = true.
Proof. destruct c; [reflexivity|discriminate]. Qed.

(** One step back through a sequence of calls that has returned. *)
Ltac bind_step H :=
  let a := fresh "a" in
  let E := fresh "E" in
  apply bind_OK_inv in H as (a & E & H);
  lazymatch type of a with
  | (_ * _)%type => destruct a
  | _ => idtac
  end;
  cbv beta iota zeta in H.

(** The same, for a call whose result is of no use. *)
Ltac bind_skip H :=
  let a := fresh "a" in
  apply bind_OK_inv in H as (a & _ & H);
  lazymatch type of a with
  | (_ * _)%type => destruct a
  | _ => idtac
  end;
  cbv beta iota zeta in H.

Lemma parse_slot_info_inv (data : bytes) (offset : Z) recs off' :
  parse_slot_info data offset = OK (recs, off') ->
  exists recsize nrecs,
    7 <= recsize <= 9 /\ 0 < nrecs < 256 /\
    off' = offset + 4 + recsize * nrecs /\
    slot_records_from (slice data (offset + 4) off') recsize 0
      (Z.to_nat nrecs) = OK recs.
Proof.
  unfold parse_slot_info. intros H.
  bind_step H. bind_step H. bind_step H.
  apply byte_at_range in E1.
  bind_step H.
  unfold recsize_of in E2.
  destruct (a1 =? 0) eqn:Ez; [discriminate|].
  bind_step E2. apply assert_OK_inv in E3. injection E2 as <-.
  bind_step H. injection H as <- <-.
  unfold WORD in *.
  exists (Z.quot (b2i (slice data (offset + 1) (offset + 1 + 2)) - DWORD - 3) a1), a1.
  repeat split; try lia.
  replace (offset + 4) with (offset + 1 + 2 + 1) by lia.
  exact E2.
Qed.

Lemma parse_startup_inv (data : bytes) (su : Startup) (offset : Z) :
  _parse_startup data = OK (su, offset) ->
  exists host more recsize nrecs off,
    Player.from_raw (slice_from data 4) = OK host /\
    players su = host :: more /\ Forall player_ok (players su) /\
    7 <= recsize <= 9 /\ 0 < nrecs < 256 /\
    Player.size host + 18 <= off /\
    offset = off + 4 + recsize * nrecs + 6 /\ offset <= len data /\
    slot_records_from
      (slice data (off + 4) (off + 4 + recsize * nrecs)) recsize 0
      (Z.to_nat nrecs) = OK (slot_records su).
Proof.
  unfold _parse_startup. intros H.
  bind_step H. rename a into host, E into Ehost.
  apply player_from_raw_inv in Ehost as Hhost.
  bind_step H. apply nulltermstr_ge in E.
  bind_step H. apply blizdecomp_ge in E0.
  repeat lazymatch type of H with
         | bind (players_loop _ _ _ _) _ = _ => fail
         | _ => bind_skip H
         end.
  bind_step H. apply players_loop_inv in E1 as (Hoff & more & -> & Hmore).
  bind_step H.
  apply parse_slot_info_inv in E1 as (recsize & nrecs & Hrs & Hn & -> & Hrecs).
  bind_step H. bind_step H. bind_step H.
  injection H as <- <-. cbn [players slot_records].
  destruct Hhost as [Hid Hsz].
  match type of Hoff with _ <= ?z => exists host, more, recsize, nrecs, z end.
  unfold WORD, DWORD in *.
  split; [exact Ehost|]. split; [reflexivity|].
  split; [constructor; [split|]; assumption|].
  split; [assumption|]. split; [assumption|].
  split; [lia|]. split; [lia|]. split; [|exact Hrecs].
  apply byte_at_OK_lt in E3; lia.
Qed.

Lemma slice_len {A} (l : list A) (a b : Z) :
  0 <= a -> a <= b -> b <= len l -> len (slice l a b) = b - a.
Proof.
  intros Ha Hab Hb. rewrite slice_nonneg by lia. unfold len in *.
  rewrite length_take, length_drop. lia.
Qed.

Lemma slice_split {A} (l : list A) (a b c : Z) :
  0 <= a -> a <= b -> b <= c -> slice l a b ++ slice l b c = slice l a c.
Proof.
  intros Ha Hab Hbc. rewrite !slice_nonneg by lia.
  replace (Z.to_nat b) with (Z.to_nat a + Z.to_nat (b - a))%nat by lia.
  rewrite <- drop_drop, take_take_drop. f_equal. lia.
Qed.

Lemma slot_from_raw_inv (data : bytes) (r : SlotRecord.t) :
  SlotRecord.from_raw data = OK r ->
  slot_ok (len data) r /\ SlotRecord.raw r = data.
Proof.
  unfold SlotRecord.from_raw, slot_ok. intros H.
  bind_step H. apply byte_at_range in E.
  do 6 bind_skip H. bind_step H.
  apply byte_at_OK_lt in E0; [|lia].
  bind_step H. bind_step H. injection H as <-.
  cbn [SlotRecord.size SlotRecord.raw SlotRecord.player_id SlotRecord.ai
       SlotRecord.handicap].
  assert (0 <= a8 < 256) as Hh.
  { destruct (9 <=? len data); [|injection E2 as <-; lia].
    now apply byte_at_range in E2. }
  repeat split; try lia.
  - intros H7. rewrite H7 in E1. now injection E1 as <-.
  - intros H8. destruct (9 <=? len data) eqn:E9; [lia|]. now injection E2 as <-.
Qed.

(** The records the comprehension reads tile the buffer it is given, when
    the buffer holds them all. *)
Lemma slot_records_from_inv (rawrecs : bytes) (recsize : Z) (count : nat) :
  forall n recs,
  0 < recsize -> 0 <= n ->
  (n + Z.of_nat count) * recsize <= len rawrecs ->
  slot_records_from rawrecs recsize n count = OK recs ->
  length recs = count /\ Forall (slot_ok recsize) recs /\
  concat (SlotRecord.raw <$> recs) =
    slice rawrecs (n * recsize) ((n + Z.of_nat count) * recsize).
Proof.
  induction count as [|count IH]; intros n recs Hr Hn Hlen;
    cbn [slot_records_from]; intros H.
  - injection H as <-. split; [reflexivity|]. split; [constructor|].
    rewrite Z.add_0_r, slice_nonneg by nia.
    now rewrite Z.sub_diag, take_0.
  - bind_step H. bind_step H. injection H as <-.
    apply slot_from_raw_inv in E as [Hslot Hraw].
    rewrite slice_len in Hslot by nia.
    replace ((n + 1) * recsize - n * recsize) with recsize in Hslot by lia.
    apply IH in E0 as (Hcount & Hall & Hjoin); [|lia|lia|nia].
    split; [cbn [length]; lia|]. split; [now constructor|].
    rewrite fmap_cons. cbn [concat]. rewrite Hraw, Hjoin.
    rewrite slice_split by nia. f_equal. lia.
Qed.

(** X16: the slot records of a startup record that has been read all
    have the same size, between 7 and 9 bytes; there are between 1 and
    255 of them; they tile the bytes that end 6 bytes before the end of
    the startup record; and a record with no room for the AI strength or
    the handicap has the defaults "normal" and 100. *)
Theorem startup_slot_records (data : bytes) (su : Startup) (offset : Z) :
  _parse_startup data = OK (su, offset) ->
  exists recsize,
    7 <= recsize <= 9 /\ 0 < len (slot_records su) < 256 /\
    Forall (slot_ok recsize) (slot_records su) /\
    concat (SlotRecord.raw <$> slot_records su) =
      slice data (offset - 6 - recsize * len (slot_records su)) (offset - 6).
Proof.
  intros H.
  apply parse_startup_inv in H
    as (host & more & recsize & nrecs & off & Hhost & _ & _ & Hrs & Hn & Hoff
        & -> & Hlen & Hrecs).
  apply player_from_raw_inv in Hhost as [_ Hsz].
  exists recsize. split; [assumption|].
  set (rawrecs := slice data (off + 4) (off + 4 + recsize * nrecs)) in *.
  assert (len rawrecs = recsize * nrecs) as Hraw
    by (unfold rawrecs; rewrite slice_len; nia).
  apply slot_records_from_inv in Hrecs as (Hcount & Hall & Hjoin);
    [|lia|lia|rewrite Hraw; nia].
  assert (len (slot_records su) = nrecs) as -> by (unfold len; lia).
  split; [assumption|]. split; [assumption|].
  rewrite Hjoin, Z2Nat.id, Z.mul_0_l, Z.add_0_l by lia.
  replace (nrecs * recsize) with (len rawrecs) by lia.
  rewrite slice_all. unfold rawrecs. f_equal; lia.
Qed.

(** X17: when [_parse_startup] returns, the offset it returns lies in
    the buffer, at least 39 bytes from its start; the first player is
    the host record read at offset 4; and every player has a byte for id
    and a record of at least 4 bytes. *)
Theorem startup_extent (data : bytes) (su : Startup) (offset : Z) :
  _parse_startup data = OK (su, offset) ->
  39 <= offset <= len data /\
  (exists host more,
     players su = host :: more /\
     Player.from_raw (slice_from data 4) = OK host) /\
  Forall player_ok (players su).
Proof.
  intros H.
  apply parse_startup_inv in H
    as (host & more & recsize & nrecs & off & Hhost & Hps & Hall & Hrs & Hn
        & Hoff & -> & Hlen & _).
  apply player_from_raw_inv in Hhost as Hok. destruct Hok as [_ Hsz].
  split; [split; [nia|assumption]|]. split; [|assumption].
  now exists host, more.
Qed.

Lemma startup_slot_records_witness :
  exists su offset,
    _parse_startup sample_startup = OK (su, offset) /\
    exists recsize,
      7 <= recsize <= 9 /\ 0 < len (slot_records su) < 256 /\
      Forall (slot_ok recsize) (slot_records su) /\
      concat (SlotRecord.raw <$> slot_records su) =
        slice sample_startup
          (offset - 6 - recsize * len (slot_records su)) (offset - 6).
Proof.
  destruct (_parse_startup sample_startup) as [[su offset]| |] eqn:E;
    [|vm_compute in E; discriminate E..].
  exists su, offset. split; [reflexivity|].
  exact (startup_slot_records sample_startup su offset E).
Defined.

Lemma startup_extent_witness :
  exists su offset,
    _parse_startup sample_startup = OK (su, offset) /\
    39 <= offset <= len sample_startup /\
    (exists host more,
       players su = host :: more /\
       Player.from_raw (slice_from sample_startup 4) = OK host) /\
    Forall player_ok (players su).
Proof.
  destruct (_parse_startup sample_startup) as [[su offset]| |] eqn:E;
    [|vm_compute in E; discriminate E..].
  exists su, offset. split; [reflexivity|].
  exact (startup_extent sample_startup su offset E).
Defined.

(** ** Lookups by a negative id *)

Lemma first_with_id_negative (ps : list Player.t) (pid : Z) :
  Forall player_ok ps -> pid < 0 -> first_with_id ps pid = None.
Proof.
  intros Hps Hpid. induction Hps as [|p ps [Hid _] _ IH]; [reflexivity|].
  cbn [first_with_id]. destruct (Player.id p =? pid) eqn:E; [lia|exact IH].
Qed.

(** X18: on a replay that has been read, a negative id never names a
    player, as every player id is a byte.  [player(pid)] with
    [pid < -len(players)] raises [IndexError], at [players[pid]]; with a
    [pid] from [-len(players)] on it is [slot_records[pid]], the slot
    record counted from the end of the list, so that [player_name] is
    "observer", or [IndexError] when there are fewer slot records. *)
Theorem player_negative (data : bytes) (su : Startup) (offset : Z)
    (h : Header) (st : State) (pid : Z) :
  _parse_startup data = OK (su, offset) -> pid < 0 ->
  let f := mkFile h su st in
  (pid < - len (players su) ->
   player f pid = Raise IndexError /\ player_name f pid = Raise IndexError) /\
  (- len (players su) <= pid ->
   player f pid = (s <- index (slot_records su) pid; OK (inr s)) /\
   player_name f pid = (s <- index (slot_records su) pid; OK "observer")).
Proof.
  intros H Hpid f.
  apply parse_startup_inv in H
    as (host & more & recsize & nrecs & off & _ & _ & Hall & _).
  pose proof (len_nonneg (players su)) as Hlen.
  assert ((pid <? len (players su)) = true) as Hlt by lia.
  assert ((pid <? 0) = true) as Hneg by lia.
  assert (player f pid =
          if len (players su) + pid <? 0 then Raise IndexError
          else (s <- index (slot_records su) pid; OK (inr s))) as Hp.
  { unfold player. cbn [startup f]. rewrite Hlt.
    unfold index at 1. rewrite Hneg.
    destruct (len (players su) + pid <? 0) eqn:Hrange; [reflexivity|].
    destruct (players su !! Z.to_nat (len (players su) + pid)) as [p|] eqn:Ep.
    - cbn [bind].
      assert ((Player.id p =? pid) = false) as ->.
      { destruct (Forall_lookup_1 _ _ _ _ Hall Ep). lia. }
      now rewrite first_with_id_negative.
    - apply lookup_ge_None in Ep. unfold len in *. lia. }
  unfold player_name. rewrite Hp.
  split; intros Hrange.
  - assert ((len (players su) + pid <? 0) = true) as -> by lia.
    split; reflexivity.
  - assert ((len (players su) + pid <? 0) = false) as -> by lia.
    split; [reflexivity|].
    now destruct (index (slot_records su) pid).
Qed.

Lemma player_negative_witness :
  exists su offset,
    _parse_startup sample_startup = OK (su, offset) /\
    player_name (mkFile (mkHeader 0 0 0 0 0 None 0 0 [] true false 0 0) su
                   (mkState [] 0 None)) (-1) = OK "observer".
Proof.
  destruct (_parse_startup sample_startup) as [[su offset]| |] eqn:E;
    [|vm_compute in E; discriminate E..].
  exists su, offset. split; [reflexivity|].
  destruct (player_negative sample_startup su offset
              (mkHeader 0 0 0 0 0 None 0 0 [] true false 0 0)
              (mkState [] 0 None) (-1) E ltac:(lia)) as [_ Hin].
  assert (- len (players su) <= -1) as Hr.
  { vm_compute in E. injection E as <- _. vm_compute. discriminate. }
  destruct (Hin Hr) as [_ ->].
  vm_compute in E. injection E as <- _. reflexivity.
Defined.

(** ** The header *)

Lemma slice_past {A} (l : list A) (a b : Z) :
  len l <= a -> a <= b -> slice l a b = [].
Proof.
  intros Ha Hab. pose proof (len_nonneg l).
  rewrite slice_nonneg by lia. rewrite drop_ge by (unfold len in *; lia).
  apply take_nil.
Qed.

Lemma slice_len_le {A} (l : list A) (a b : Z) :
  0 <= a -> a <= b ->
  len (slice l a b) <= b - a /\
  (b <= len l -> len (slice l a b) = b - a) /\
  (len l < b -> len l <= a + len (slice l a b)).
Proof.
  intros Ha Hab. rewrite slice_nonneg by lia. unfold len.
  rewrite length_take, length_drop. lia.
Qed.

(** A read moves the cursor by the bytes it gets, so a short read leaves
    it at the end of the file, where every later read is empty. *)
Lemma read_at (file : bytes) (p q n q' : Z) :
  reads_as file p q -> 0 <= n -> q' = q + n ->
  exists p', read n (mkHandle file p) = (slice file q q', mkHandle file p')
             /\ reads_as file p' q'.
Proof.
  intros (Hp & Hq & H) Hn ->. unfold read. cbn [content loc].
  eexists. split; [|].
  - f_equal. destruct H as [->|[H1 H2]]; [reflexivity|].
    now rewrite !slice_past by lia.
  - destruct (slice_len_le file p (p + n)) as (H1 & H2 & H3); [lia..|].
    pose proof (len_nonneg (slice file p (p + n))).
    split; [lia|]. split; [lia|].
    destruct H as [->|[? ?]]; [|right; lia].
    destruct (Z.le_gt_cases (q + n) (len file)); [left|right]; lia.
Qed.

Lemma reads_as_refl (file : bytes) (p : Z) : 0 <= p -> reads_as file p p.
Proof. intros Hp. repeat split; [assumption..|now left]. Qed.

(** One read of [_read_header], at the cursor that [Hpos] places. *)
Ltac read_step Hpos :=
  lazymatch type of Hpos with
  | reads_as ?file ?p ?q =>
      lazymatch goal with
      | |- context [read ?n (mkHandle file p)] =>
          let q' := eval cbv in (q + n) in
          let p' := fresh "p" in
          let E := fresh "E" in
          let Hp := fresh "Hp" in
          destruct (read_at file p q n q' Hpos ltac:(discriminate) eq_refl)
            as (p' & E & Hp);
          rewrite E; clear E Hpos; rename Hp into Hpos;
          cbv beta iota delta [bind]
      end
  end.

Lemma read_header_at (file : bytes) :
  exists p, _read_header (mkHandle file 0) =
            (h <- header_at file; OK (h, mkHandle file p)).
Proof.
  unfold _read_header, header_at, field. unfold seek at 1. cbn [content].
  pose proof (reads_as_refl file 28 ltac:(lia)) as Hpos.
  do 5 read_step Hpos.
  unfold seek. cbn [content loc]. change (48 + WORD) with 50.
  clear Hpos.
  change (36 + 4) with 40.
  destruct (b2i (slice file 36 40) =? 0).
  - pose proof (reads_as_refl file 50 ltac:(lia)) as Hpos.
    do 5 read_step Hpos. eexists. reflexivity.
  - destruct (b2i (slice file 36 40) =? 1); [|exists 0; reflexivity].
    pose proof (reads_as_refl file 48 ltac:(lia)) as Hpos.
    read_step Hpos.
    destruct (decode (rev (slice file 48 52))); cbn [bind];
      [|exists 0; reflexivity..].
    do 5 read_step Hpos. eexists. reflexivity.
Qed.

(** X19: the header is read at fixed offsets, whatever the length of
    the file: a field that lies beyond the end of the file reads as 0 (as
    the empty string, for the flags) and nothing is raised for it.  The
    build number, the flags, the replay length and the checksum are at
    0x34 in a header of version 0, whose version number is the 2 bytes at
    0x32, and at 0x38 in a header of version 1, whose version id is the 4
    bytes at 0x30, reversed.  Any other version raises [ValueError]. *)
Theorem header_layout (file : bytes) :
  (x <- _read_header (mkHandle file 0); OK x.1) = header_at file.
Proof.
  destruct (read_header_at file) as [p ->].
  destruct (header_at file) as [h| |]; reflexivity.
Qed.

Section Constructor.

Variable _parse_actions : Z -> bytes -> option exn.
Variable zlib_decompress : bytes -> option bytes.

(** X20: a file whose header declares no block is not a replay: the
    header reader accepts it, the buffer of the blocks is empty, and the
    constructor raises [IndexError] at the first byte of the startup
    record.  So does every file of at most 36 bytes, the empty file
    included: its header version and block count, past the end of the
    file, read as 0. *)
Theorem no_block_no_replay (file : bytes) :
  (forall h f, _read_header (mkHandle file 0) = OK (h, f) ->
     nblocks h = 0 ->
     File_init _parse_actions zlib_decompress file = Raise IndexError) /\
  (len file <= 36 ->
   File_init _parse_actions zlib_decompress file = Raise IndexError).
Proof.
  assert (forall h f, _read_header (mkHandle file 0) = OK (h, f) ->
            nblocks h = 0 ->
            File_init _parse_actions zlib_decompress file = Raise IndexError)
    as Hno.
  { intros h f Hh Hn. unfold File_init. rewrite Hh. cbn [bind].
    unfold _read_blocks. rewrite Hn. reflexivity. }
  split; [exact Hno|]. intros Hlen.
  destruct (read_header_at file) as [p Hh].
  unfold header_at, field in Hh.
  rewrite (slice_past file 36 (36 + 4)) in Hh by lia.
  cbn [b2i Z.eqb bind] in Hh.
  eapply Hno; [exact Hh|].
  cbn [nblocks]. now rewrite slice_past by lia.
Qed.

(** X21: the constructor halts on every file: each loop of the reader
    moves its cursor forward, so [File(f)] returns a replay or raises. *)
Theorem reader_halts (file : bytes) :
  (exists f, File_init _parse_actions zlib_decompress file = OK f) \/
  (exists e, File_init _parse_actions zlib_decompress file = Raise e).
Proof.
  destruct (File_init _parse_actions zlib_decompress file) as [f|e|] eqn:E.
  - left. now exists f.
  - right. now exists e.
  - now apply File_init_total in E.
Qed.

End Constructor.

Lemma no_block_no_replay_witness :
  File_init skip_actions stored [] = Raise IndexError /\
  File_init skip_actions stored (replicate 68 x00) = Raise IndexError.
Proof.
  split.
  - refine (proj2 (no_block_no_replay skip_actions stored []) _).
    discriminate.
  - destruct (_read_header (mkHandle (replicate 68 x00) 0)) as [[h f]| |]
      eqn:E; [|vm_compute in E; discriminate E..].
    refine (proj1 (no_block_no_replay skip_actions stored (replicate 68 x00))
              h f E _).
    vm_compute in E. injection E as <- _. reflexivity.
Defined.

Section ChatRecords.

Variable _parse_actions : Z -> bytes -> option exn.

Lemma b2z_inj (a b : byte) : b2z a = b2z b -> a = b.
Proof.
  unfold b2z. intros H. apply N2Z.inj in H.
  apply (f_equal Byte.of_N) in H. rewrite !Byte.of_to_N in H. congruence.
Qed.

(** X22: a chat record is read whole.  With a message that holds no
    zero byte and is well-formed UTF-8, the record appends one [Chat]
    stamped with the clock, from the player of the record, with the mode
    "startup" under the flag 0x10 and the mode of the 4-byte code under
    any other flag, and the run goes on after the bytes the record
    declares, whatever follows the message inside the record. *)
Theorem chat_record_read (pid : byte) (msg pad rest : bytes) (self : State) :
  (forall x, x ∈ msg -> x <> x00) -> utf8_valid msg = true ->
  len msg + len pad < 65000 ->
  let chat mode :=
    append (EChat (Chat.mk (_clock self) (b2z pid) mode
                     (string_of_list_byte msg))) self in
  parse_events _parse_actions (chat_record pid [x10] msg pad ++ rest) self =
  parse_events _parse_actions rest (chat "startup") /\
  (forall flags mode, flags <> x10 -> len mode = 4 ->
   parse_events _parse_actions
     (chat_record pid (flags :: mode) msg pad ++ rest) self =
   parse_events _parse_actions rest (chat (chat_mode (b2i mode)))).
Proof.
  intros Hz Hv Hlen chat.
  pose proof (len_nonneg msg) as Hm. pose proof (len_nonneg pad) as Hp.
  assert (forall flags hd mode,
    (flags = x10 /\ hd = [] /\ mode = "startup") \/
    (flags <> x10 /\ len hd = 4 /\ mode = chat_mode (b2i hd)) ->
    parse_events _parse_actions
      (chat_record pid (flags :: hd) msg pad ++ rest) self =
    parse_events _parse_actions rest (chat mode)) as Hrec.
  { intros flags hd mode Hcase.
    assert (0 <= len hd <= 4) as Hhd
      by (destruct Hcase as [(_ & E & _)|(_ & E & _)];
          [rewrite E; unfold len; cbn [length]; lia|lia]).
    set (n := len (flags :: hd) + len msg + 1 + len pad).
    assert (0 <= n < 65536) as Hn by (unfold n; rewrite len_cons; lia).
    assert (len (chat_record pid (flags :: hd) msg pad) = n + 4) as Hsize.
    { unfold chat_record. fold n. rewrite !len_cons, !len_app.
      change (len (le16 n)) with 2. change (len [x00]) with 1.
      rewrite len_cons. unfold n. rewrite len_cons. lia. }
    eapply parse_events_record; [reflexivity|discriminate|reflexivity|].
    rewrite Hsize. unfold _parse_chat.
    set (data := chat_record pid (flags :: hd) msg pad ++ rest).
    assert (data = x20 :: pid :: le16 n ++ flags :: hd ++ msg ++ x00 :: pad ++ rest)
      as Hdata by (unfold data, chat_record; fold n; list_eq).
    assert (byte_at data 1 = OK (b2z pid)) as -> by now rewrite Hdata.
    cbn [lift].
    assert (b2i (slice data 2 (2 + WORD)) = n) as ->.
    { rewrite Hdata, slice_nonneg by (unfold WORD; lia).
      cbn. apply b2i_le16. assumption. }
    assert (byte_at data (2 + WORD) = OK (b2z flags)) as ->
      by now rewrite Hdata.
    cbn [lift].
    assert (forall off mode',
      slice_from data off = msg ++ x00 :: pad ++ rest ->
      lift (nulltermstr (slice_from data off))
        (fun '(msg, _) self =>
           (OK (n + 4),
            append (EChat (Chat.mk (_clock self) (b2z pid) mode' msg)) self))
        self = (OK (n + 4), chat mode')) as Hmsg.
    { intros off mode' ->. rewrite nulltermstr_app by assumption.
      unfold decode. rewrite Hv. reflexivity. }
    destruct Hcase as [(-> & -> & ->)|(Hf & Hl & ->)].
    - cbn [b2z Byte.to_N Z.of_N Z.eqb Pos.eqb].
      apply Hmsg. rewrite Hdata. now rewrite slice_from_nonneg.
    - assert ((b2z flags =? 16) = false) as ->.
      { apply Z.eqb_neq. intros E. apply Hf. now apply b2z_inj. }
      assert (slice data (2 + WORD + 1) (2 + WORD + 1 + DWORD) = hd) as ->.
      { rewrite Hdata.
        change (x20 :: pid :: le16 n ++ flags :: hd ++ msg ++ x00 :: pad ++ rest)
          with ((x20 :: pid :: le16 n ++ [flags])
                  ++ hd ++ msg ++ x00 :: pad ++ rest).
        apply slice_mid; [reflexivity|]. rewrite Hl. reflexivity. }
      assert (slice_from data (2 + WORD + 1 + DWORD)
              = msg ++ x00 :: pad ++ rest) as Htail.
      { rewrite Hdata.
        replace (x20 :: pid :: le16 n ++ flags :: hd ++ msg ++ x00 :: pad ++ rest)
          with ((x20 :: pid :: le16 n ++ flags :: hd)
                  ++ msg ++ x00 :: pad ++ rest) by list_eq.
        replace (2 + WORD + 1 + DWORD)
          with (len (x20 :: pid :: le16 n ++ flags :: hd)).
        - apply slice_from_app.
        - rewrite !len_cons, len_app, len_cons.
          change (len (le16 n)) with 2. unfold WORD, DWORD. lia. }
      unfold chat_mode.
      destruct (get CHAT_MODES (b2i hd)); now apply Hmsg. }
  split.
  - apply Hrec. now left.
  - intros flags mode Hf Hl. apply Hrec. now right.
Qed.

End ChatRecords.

Lemma chat_record_read_witness :
  parse_events skip_actions
    [x20; x01; x08; x00; x20; x05; x00; x00; x00; x68; x69; x00; x00]
    (mkState [] 7 None)
  = (OK tt, mkState [EChat (Chat.mk 7 1 "player2" "hi")] 7 None).
Proof.
  refine (proj2 (chat_record_read skip_actions x01 [x68; x69] [] [x00]
                   (mkState [] 7 None) _ eq_refl eq_refl)
            x20 [x05; x00; x00; x00] _ eq_refl); [|discriminate].
  intros x Hx.
  repeat (apply elem_of_cons in Hx as [->|Hx]; [discriminate|]).
  now apply not_elem_of_nil in Hx.
Defined.
